(** * Blokus rule engine: a shallow embedding of [server/index.js]
    (piece catalog, geometry, state projection, the place and skip
    handlers) and of the client's placement preview ([cornerFor],
    [canPlaceLocal] in [client/src/App.jsx]), with the properties of the
    specification proved or refuted on it.

    Conventions of the embedding.
    - A JS number holding an integer is a [Z]; [%] is JS's truncating
      remainder, [Z.rem]. The numbers of a request (anchor, rotation) are
      taken to be integers: a placement with a fractional anchor is never
      accepted (its cells miss the integer corner, and their keys miss the
      keys of the cells already placed).
    - A JS string is a [string]; a [Set] of strings is a [gset string]; a
      [Map] with string keys is a [gmap string _].
    - A thrown [TypeError] inside a handler's [try] block is the handler's
      [500] reply.
    - The rows of one game are a record [Db]; the handlers take it and return
      the rows after the request together with the reply. *)

From stdpp Require Import gmap strings list pretty.
From Stdlib Require Import ZArith Lia Ascii.

Local Open Scope Z_scope.
Set Warnings "-clear-no-such-hyp".

(** ** Geometry engine *)

Module Geometry.

(** [times = ((times % 4) + 4) % 4] *)
Definition rotate_times (times : Z) : Z := Z.rem (Z.rem times 4 + 4) 4.

(** One pass of the loop body [[x,y] = [y, -x]]. *)
Definition rot90 (p : Z * Z) : Z * Z := (p.2, - p.1).

(** [rotate(point, times)]: the loop body runs for [i = 0 .. times-1]. *)
Definition rotate (point : Z * Z) (times : Z) : Z * Z :=
  Nat.iter (Z.to_nat (rotate_times times)) rot90 point.

(** [flip(point)] *)
Definition flip (point : Z * Z) : Z * Z := (- point.1, point.2).

(** [Math.min(...l)]; [None] stands for the [Infinity] of an empty list. *)
Definition Math_min (l : list Z) : option Z :=
  match l with
  | [] => None
  | x :: l' => Some (foldl Z.min x l')
  end.

(** [normalize(cells)]: on an empty array the final [map] has nothing to
    visit, whatever the two minima are. *)
Definition normalize (cells : list (Z * Z)) : list (Z * Z) :=
  match Math_min (cells.*1), Math_min (cells.*2) with
  | Some minX, Some minY => (λ p, (p.1 - minX, p.2 - minY)) <$> cells
  | _, _ => []
  end.

(** [transformShape(shape, rotationTimes, flipped)] *)
Definition transformShape (shape : list (Z * Z)) (rotationTimes : Z)
    (flipped : bool) : list (Z * Z) :=
  let cells := shape in
  let cells := if flipped then flip <$> cells else cells in
  let cells := (λ p, rotate p rotationTimes) <$> cells in
  normalize cells.

(** [translate(cells, dx, dy)] *)
Definition translate (cells : list (Z * Z)) (dx dy : Z) : list (Z * Z) :=
  (λ p, (p.1 + dx, p.2 + dy)) <$> cells.

(** [keyOfCell(x,y)]: the template string [`${x},${y}`]. *)
Definition keyOfCell (x y : Z) : string := pretty x +:+ "," +:+ pretty y.

End Geometry.

(** ** Piece catalog and the other constant tables *)

Module Catalog.

(** The result of reading [obj[key]] on an object literal: an own property,
    a property found on [Object.prototype], or [undefined]. *)
Inductive JsProp (A : Type) : Type :=
  | Own (a : A)
  | Inherited
  | Undefined.
Arguments Own {A} a.
Arguments Inherited {A}.
Arguments Undefined {A}.

(** The property names every object literal inherits. *)
Definition Object_prototype_keys : list string :=
  [ "constructor"; "__defineGetter__"; "__defineSetter__"; "hasOwnProperty";
    "__lookupGetter__"; "__lookupSetter__"; "isPrototypeOf";
    "propertyIsEnumerable"; "toString"; "valueOf"; "__proto__";
    "toLocaleString" ]%string.

Fixpoint assoc {A} (obj : list (string * A)) (key : string) : option A :=
  match obj with
  | [] => None
  | (k, v) :: obj' => if decide (k = key) then Some v else assoc obj' key
  end.

Definition js_get {A} (obj : list (string * A)) (key : string) : JsProp A :=
  match assoc obj key with
  | Some v => Own v
  | None => if decide (key ∈ Object_prototype_keys) then Inherited else Undefined
  end.

(** [PIECES], in source order (the order [Object.keys] returns). *)
Definition PIECES : list (string * list (Z * Z)) :=
  [ ("I1", [(0,0)]);
    ("I2", [(0,0);(1,0)]);
    ("I3", [(0,0);(1,0);(2,0)]);
    ("I4", [(0,0);(1,0);(2,0);(3,0)]);
    ("I5", [(0,0);(1,0);(2,0);(3,0);(4,0)]);
    ("V3", [(0,0);(0,1);(1,0)]);
    ("L4", [(0,0);(0,1);(0,2);(1,0)]);
    ("Z4", [(0,0);(1,0);(1,1);(2,1)]);
    ("O4", [(0,0);(1,0);(0,1);(1,1)]);
    ("T5", [(0,0);(1,0);(2,0);(1,1);(1,2)]);
    ("L5", [(0,0);(0,1);(0,2);(0,3);(1,0)]);
    ("Y5", [(0,0);(1,0);(2,0);(3,0);(1,1)]);
    ("N5", [(0,0);(1,0);(1,1);(2,1);(3,1)]);
    ("Z5", [(0,0);(1,0);(2,0);(2,1);(3,1)]);
    ("U5", [(0,0);(2,0);(0,1);(1,1);(2,1)]);
    ("V5", [(0,0);(0,1);(0,2);(1,0);(2,0)]);
    ("W5", [(0,0);(1,0);(1,1);(2,1);(2,2)]);
    ("X5", [(1,0);(0,1);(1,1);(2,1);(1,2)]);
    ("P5", [(0,0);(1,0);(0,1);(1,1);(0,2)]);
    ("F5", [(1,0);(0,1);(1,1);(1,2);(2,2)]);
    ("T4", [(0,0);(1,0);(2,0);(1,1)]) ]%string.

(** [Object.keys(PIECES)] *)
Definition pieceKeys : list string := PIECES.*1.

Definition DEFAULT_COLORS : list string :=
  ["blue"; "yellow"; "red"; "green"]%string.

(** [START_CORNERS] (server) *)
Definition START_CORNERS : list (string * (Z * Z)) :=
  [ ("blue", (0,0)); ("yellow", (19,0)); ("red", (0,19));
    ("green", (19,19)) ]%string.

End Catalog.

(** ** Stored rows, state projection and the two move handlers *)

Module Server.
Import Geometry Catalog.

(** The [status] of a game: the column holds ['active'] (its default, never
    updated); [getGameState] reports ['finished'] or the column. *)
Inductive Status : Type := active | finished.

Global Instance Status_eq_dec : EqDecision Status.
Proof. solve_decision. Defined.

Inductive ErrorKind : Type :=
  | invalid_piece
  | invalid_position
  | not_your_turn
  | out_of_bounds
  | overlap
  | first_move_must_cover_corner
  | must_touch_same_color_corner
  | cannot_touch_same_color_edge
  | failed_to_place
  | failed_to_skip.

Global Instance ErrorKind_eq_dec : EqDecision ErrorKind.
Proof. solve_decision. Defined.

(** The columns of [games], [players] and [moves] that the rules read.
    [NULL] columns are [None]. *)
Record GameRow : Type := {
  status : Status;
  board_size : Z;
  next_player_index : Z
}.

Record PlayerRow : Type := {
  color : string;
  order_index : Z
}.

Record MoveRow : Type := {
  player_color : string;
  piece_key : option string;
  rotation : option Z;
  flipped : option bool;
  cells : option (list (Z * Z));
  passed : bool;
  turn_number : Z
}.

(** The rows of one game: [players] as [ORDER BY order_index] returns them,
    [moves] as [ORDER BY turn_number] returns them. A handler inserts a move
    with [turn_number = moves.length + 1], so that order is the order of
    insertion (lemma [reachable_turn_numbers] below). *)
Record Db : Type := {
  game : GameRow;
  players : list PlayerRow;
  moves : list MoveRow
}.

(** [occupied] and [playerCells]/[playerSets] (and [usedPieces]), as built
    by the loop over the move rows. *)
Record Board : Type := {
  occupied : gmap string string;
  playerSets : gmap string (gset string);
  usedPieces : gmap string (gset string)
}.

(** [{ blue: new Set(), yellow: new Set(), red: new Set(), green: new Set() }] *)
Definition four_sets : gmap string (gset string) :=
  <["blue" := ∅]> (<["yellow" := ∅]> (<["red" := ∅]> (<["green" := ∅]> ∅))).

Definition empty_board : Board :=
  {| occupied := ∅; playerSets := four_sets; usedPieces := four_sets |}.

(** A left fold whose step may throw. *)
Fixpoint foldM {A B} (f : B → A → option B) (b : B) (l : list A) : option B :=
  match l with
  | [] => Some b
  | a :: l' => b' ← f b a; foldM f b' l'
  end.

(** The body of [for (const [x,y] of cells)]:
    [occupied.set(key, color); playerSets[color].add(key)].
    [.add] on a missing (or inherited, non-Set) property throws. *)
Definition add_cell (c : string) (b : Board) (p : Z * Z) : option Board :=
  s ← playerSets b !! c;
  Some {| occupied := <[keyOfCell p.1 p.2 := c]> (occupied b);
          playerSets := <[c := {[keyOfCell p.1 p.2]} ∪ s]> (playerSets b);
          usedPieces := usedPieces b |}.

(** [usedPieces[color].add(piece_key)]. A [null] key added to the set is
    never looked up (only catalog keys are), so it is left out. *)
Definition add_used (c : string) (k : option string) (b : Board) : option Board :=
  u ← usedPieces b !! c;
  Some {| occupied := occupied b;
          playerSets := playerSets b;
          usedPieces := <[c := from_option (λ k, {[k]} ∪ u) u k]> (usedPieces b) |}.

(** [!m.passed && m.cells] *)
Definition placement_cells (m : MoveRow) : option (list (Z * Z)) :=
  if passed m then None else cells m.

(** One move row in the loop of [getGameState]. *)
Definition project_move (b : Board) (m : MoveRow) : option Board :=
  match placement_cells m with
  | Some cs => b' ← foldM (add_cell (player_color m)) b cs;
               add_used (player_color m) (piece_key m) b'
  | None => Some b
  end.

(** One move row in the loop of the place handler (no [usedPieces]). *)
Definition replay_move (b : Board) (m : MoveRow) : option Board :=
  match placement_cells m with
  | Some cs => foldM (add_cell (player_color m)) b cs
  | None => Some b
  end.

(** [arr.slice(-n)]: [-0] is [0], so [slice(-0)] is the whole array. *)
Definition slice_last {A} (l : list A) (n : nat) : list A :=
  match n with
  | O => l
  | _ => drop (length l - n)%nat l
  end.

(** [sizeOf(k) = PIECES[k].length], for [k] among [pieceKeys]. *)
Definition sizeOf (k : string) : Z :=
  match assoc PIECES k with
  | Some shape => Z.of_nat (length shape)
  | None => 0
  end.

(** [pieceKeys.filter(k => !used.has(k))] *)
Definition remPieces (used : gset string) : list string :=
  filter (λ k, k ∉ used) pieceKeys.

(** The score of one player, from its set of used pieces. *)
Definition score_of (used : gset string) : Z :=
  let rem := remPieces used in
  let remSquares := foldl (λ a k, a + sizeOf k) 0 rem in
  let score := - remSquares in
  let score := if decide (length rem = 0%nat) then score + 15 else score in
  let score :=
    if decide ("I1" ∈ used ∧ length rem = 0%nat) then score + 5 else score in
  score.

(** What [getGameState] returns. *)
Record GameState : Type := {
  gs_game : GameRow;
  gs_players : list PlayerRow;
  gs_moves : list MoveRow;
  remaining : gmap string (list string);
  scores : gmap string Z;
  occupiedCount : nat
}.

(** [remaining[p.color] = pieceKeys.filter(...)]: [.has] on a missing
    property throws. *)
Definition add_remaining (used : gmap string (gset string))
    (r : gmap string (list string)) (p : PlayerRow) : option (gmap string (list string)) :=
  u ← used !! color p;
  Some (<[color p := remPieces u]> r).

Definition add_score (used : gmap string (gset string))
    (r : gmap string Z) (p : PlayerRow) : option (gmap string Z) :=
  u ← used !! color p;
  Some (<[color p := score_of u]> r).

(** [everyonePassed] *)
Definition everyonePassed (db : Db) : bool :=
  let recentPasses := slice_last (moves db) (length (players db)) in
  bool_decide (length recentPasses = length (players db))
  && forallb passed recentPasses.

(** [let status = everyonePassed ? 'finished' : game.status] *)
Definition projected_status (db : Db) : Status :=
  if everyonePassed db then finished else status (game db).

(** [getGameState(gameId)] for an existing game; [None] when it throws. *)
Definition getGameState (db : Db) : option GameState :=
  b ← foldM project_move empty_board (moves db);
  rem ← foldM (add_remaining (usedPieces b)) ∅ (players db);
  let st := projected_status db in
  sc ← (if decide (st = finished)
        then foldM (add_score (usedPieces b)) ∅ (players db)
        else Some ∅);
  Some {| gs_game := {| status := st;
                        board_size := board_size (game db);
                        next_player_index := next_player_index (game db) |};
          gs_players := players db;
          gs_moves := moves db;
          remaining := rem;
          scores := sc;
          occupiedCount := size (occupied b) |}.

(** [isWithinBoard(cells, size)] *)
Definition isWithinBoard (cs : list (Z * Z)) (size : Z) : bool :=
  forallb (λ p, bool_decide (p.1 >= 0) && bool_decide (p.2 >= 0)
                && bool_decide (p.1 < size) && bool_decide (p.2 < size)) cs.

(** [hasCornerContact(cells, playerSet)] *)
Definition hasCornerContact (cs : list (Z * Z)) (playerSet : gset string) : bool :=
  existsb (λ p,
    existsb (λ q, bool_decide (keyOfCell q.1 q.2 ∈ playerSet))
      [(p.1 - 1, p.2 - 1); (p.1 - 1, p.2 + 1);
       (p.1 + 1, p.2 - 1); (p.1 + 1, p.2 + 1)]) cs.

(** [hasEdgeContact(cells, playerSet)] *)
Definition hasEdgeContact (cs : list (Z * Z)) (playerSet : gset string) : bool :=
  existsb (λ p,
    existsb (λ q, bool_decide (keyOfCell q.1 q.2 ∈ playerSet))
      [(p.1 - 1, p.2); (p.1 + 1, p.2); (p.1, p.2 - 1); (p.1, p.2 + 1)]) cs.

(** The reply of a handler: [200] with the new state, or a status code with
    an error kind. *)
Inductive Reply : Type :=
  | Ok200 (s : GameState)
  | Error (code : Z) (e : ErrorKind).

(** [x|0]: conversion to a signed 32-bit integer. *)
Definition to_int32 (x : Z) : Z := (x + 2^31) `mod` 2^32 - 2^31.

(** [players[i]] for an integer [i]. *)
Definition index {A} (l : list A) (i : Z) : option A :=
  if decide (0 <= i) then l !! Z.to_nat i else None.

(** [INSERT INTO moves ...] followed by [UPDATE games SET next_player_index]. *)
Definition append_move (db : Db) (m : MoveRow) : Db :=
  {| game := {| status := status (game db);
                board_size := board_size (game db);
                next_player_index :=
                  Z.rem (next_player_index (game db) + 1)
                        (Z.of_nat (length (players db))) |};
     players := players db;
     moves := moves db ++ [m] |}.

(** The reply after the two writes: [res.json(await getGameState(gameId))];
    a throw there is caught too. *)
Definition reply_state (db' : Db) (fault : ErrorKind) : Db * Reply :=
  match getGameState db' with
  | Some s => (db', Ok200 s)
  | None => (db', Error 500 fault)
  end.

(** The row of [INSERT INTO moves(id, game_id, player_color, passed,
    turn_number)]: the other columns stay [NULL]. *)
Definition pass_row (player_color : string) (turnNumber : Z) : MoveRow :=
  {| player_color := player_color; piece_key := None;
     rotation := None; flipped := None; cells := None;
     passed := true; turn_number := turnNumber |}.

(** [POST /api/games/:id/skip] with body [{ player_color }]. *)
Definition skip (db : Db) (player_color : string) : Db * Reply :=
  match getGameState db with
  | None => (db, Error 500 failed_to_skip)
  | Some state =>
    match index (gs_players state) (next_player_index (gs_game state)) with
    | None => (db, Error 500 failed_to_skip)
    | Some current =>
      if decide (color current ≠ player_color) then (db, Error 400 not_your_turn)
      else
        let turnNumber := Z.of_nat (length (gs_moves state)) + 1 in
        reply_state (append_move db (pass_row player_color turnNumber))
                    failed_to_skip
    end
  end.

(** The body of a place request; [rotation] and [flipped] carry their
    defaults [0] and [false] when absent; [position] is [None] when it is
    missing or its [x], [y] are not numbers. *)
Record PlaceReq : Type := {
  rq_player_color : string;
  rq_piece_key : string;
  rq_rotation : Z;
  rq_flipped : bool;
  rq_position : option (Z * Z)
}.

(** The row the place handler inserts: [rotation|0], [!!flipped],
    [JSON.stringify(placed)], [passed = false]. *)
Definition placement_row (rq : PlaceReq) (placed : list (Z * Z))
    (turnNumber : Z) : MoveRow :=
  {| player_color := rq_player_color rq;
     piece_key := Some (rq_piece_key rq);
     rotation := Some (to_int32 (rq_rotation rq));
     flipped := Some (rq_flipped rq);
     cells := Some placed;
     passed := false;
     turn_number := turnNumber |}.

(** The cells a request asks for, given the catalog shape. *)
Definition placed_cells (shape : list (Z * Z)) (rq : PlaceReq)
    (position : Z * Z) : list (Z * Z) :=
  let transformed := transformShape shape (rq_rotation rq) (rq_flipped rq) in
  translate transformed position.1 position.2.

(** [!state.moves.some(m => m.player_color===player_color && !m.passed)] *)
Definition isFirstMove (ms : list MoveRow) (c : string) : bool :=
  negb (existsb (λ m, bool_decide (player_color m = c) && negb (passed m)) ms).

(** The checks of the place handler after the turn check, on the cells
    [placed]: [inl] is the rejection, [inr tt] lets the move through. *)
Definition validate (db : Db) (b : Board) (c : string) (placed : list (Z * Z))
    : (Z * ErrorKind) + unit :=
  if negb (isWithinBoard placed (board_size (game db)))
  then inl (400, out_of_bounds)
  else if existsb (λ p, bool_decide (is_Some (occupied b !! keyOfCell p.1 p.2))) placed
  then inl (400, overlap)
  else
    let mySet := playerSets b !! c in
    let corner_rule : (Z * ErrorKind) + unit :=
      if isFirstMove (moves db) c then
        match js_get START_CORNERS c, placed with
        | Own corner, _ =>
            if existsb (λ p, bool_decide (p.1 = corner.1) && bool_decide (p.2 = corner.2)) placed
            then inr tt else inl (400, first_move_must_cover_corner)
        | Inherited, _ => inl (400, first_move_must_cover_corner)
        | Undefined, [] => inl (400, first_move_must_cover_corner)
        | Undefined, _ :: _ => inl (500, failed_to_place)
        end
      else
        match mySet, placed with
        | Some s, _ =>
            if hasCornerContact placed s then inr tt
            else inl (400, must_touch_same_color_corner)
        | None, [] => inl (400, must_touch_same_color_corner)
        | None, _ :: _ => inl (500, failed_to_place)
        end in
    match corner_rule with
    | inl e => inl e
    | inr _ =>
      match mySet, placed with
      | Some s, _ =>
          if hasEdgeContact placed s then inl (400, cannot_touch_same_color_edge)
          else inr tt
      | None, [] => inr tt
      | None, _ :: _ => inl (500, failed_to_place)
      end
    end.

(** [POST /api/games/:id/place] *)
Definition place (db : Db) (rq : PlaceReq) : Db * Reply :=
  match js_get PIECES (rq_piece_key rq) with
  | Undefined => (db, Error 400 invalid_piece)
  | piece =>
    match rq_position rq with
    | None => (db, Error 400 invalid_position)
    | Some position =>
      match getGameState db with
      | None => (db, Error 500 failed_to_place)
      | Some state =>
        match index (gs_players state) (next_player_index (gs_game state)) with
        | None => (db, Error 500 failed_to_place)
        | Some current =>
          if decide (color current ≠ rq_player_color rq)
          then (db, Error 400 not_your_turn)
          else
            match foldM replay_move empty_board (gs_moves state), piece with
            | Some b, Own shape =>
              let placed := placed_cells shape rq position in
              match validate db b (rq_player_color rq) placed with
              | inl (code, e) => (db, Error code e)
              | inr _ =>
                let turnNumber := Z.of_nat (length (gs_moves state)) + 1 in
                reply_state (append_move db (placement_row rq placed turnNumber))
                            failed_to_place
              end
            | _, _ => (db, Error 500 failed_to_place)
            end
        end
      end
    end
  end.

(** [POST /api/games]: the rows after the inserts. [players] is the request's
    array when it is a non-empty array, else [DEFAULT_COLORS]. *)
Definition createGame (players : list string) : Db :=
  let colors := match players with [] => DEFAULT_COLORS | _ => players end in
  {| game := {| status := active; board_size := 20; next_player_index := 0 |};
     players := imap (λ idx c, {| color := c; order_index := Z.of_nat idx |}) colors;
     moves := [] |}.

(** The rows a game can hold: those of a new game, then those left by any
    sequence of place and skip requests (a rejected request leaves them as
    they were, see [place_rejected_unchanged], [skip_rejected_unchanged]). *)
Inductive reachable : Db → Prop :=
  | reach_create (colors : list string) : reachable (createGame colors)
  | reach_place db rq : reachable db → reachable (place db rq).1
  | reach_skip db c : reachable db → reachable (skip db c).1.

End Server.

(** ** Client preview ([App.jsx]) *)

Module Client.
Import Geometry Server.

Definition BOARD_SIZE : Z := 20.

(** [transform(shape, rotation, flipped)], the client's copy of
    [transformShape]. *)
Definition transform (shape : list (Z * Z)) (rotation : Z) (flipped : bool)
    : list (Z * Z) :=
  let cells := shape in
  let rot := Z.rem (Z.rem rotation 4 + 4) 4 in
  let cells := if flipped then (λ p, (- p.1, p.2)) <$> cells else cells in
  let cells := Nat.iter (Z.to_nat rot) (fmap (λ p : Z * Z, (p.2, - p.1))) cells in
  match Math_min (cells.*1), Math_min (cells.*2) with
  | Some minX, Some minY => (λ p, (p.1 - minX, p.2 - minY)) <$> cells
  | _, _ => []
  end.

(** [cornerFor(color)]; [None] is the [default: return null]. *)
Definition cornerFor (color : string) : option (Z * Z) :=
  if decide (color = "blue") then Some (0, 0)
  else if decide (color = "yellow") then Some (BOARD_SIZE - 1, 0)
  else if decide (color = "red") then Some (BOARD_SIZE - 1, BOARD_SIZE - 1)
  else if decide (color = "green") then Some (0, BOARD_SIZE - 1)
  else None.

(** [boardOccupancy()]: the 20 x 20 array [occ], [null] everywhere but
    [occ[y][x] = m.player_color] on the cells of the placements; the entry
    of column [x], row [y] is kept under the pair [(x, y)]. *)
Definition boardOccupancy (ms : list MoveRow) : gmap (Z * Z) string :=
  foldl (λ occ m,
           match placement_cells m with
           | Some cs => foldl (λ occ p, <[p := player_color m]> occ) occ cs
           | None => occ
           end) ∅ ms.

(** The indices the two nested loops of [playerHasAny] visit. *)
Definition grid : list (Z * Z) :=
  yy ← Z.of_nat <$> seq 0 20; xx ← Z.of_nat <$> seq 0 20; [(xx, yy)].

(** [playerHasAny(color, occ)] *)
Definition playerHasAny (color : string) (occ : gmap (Z * Z) string) : bool :=
  existsb (λ p, bool_decide (occ !! p = Some color)) grid.

Definition on_board (p : Z * Z) : bool :=
  bool_decide (p.1 >= 0) && bool_decide (p.2 >= 0)
  && bool_decide (p.1 < BOARD_SIZE) && bool_decide (p.2 < BOARD_SIZE).

(** Some target has a neighbour in one of the directions [dirs] that is on
    the board and holds [color]. *)
Definition touches (dirs : list (Z * Z)) (targets : list (Z * Z))
    (color : string) (occ : gmap (Z * Z) string) : bool :=
  existsb (λ t,
    existsb (λ d, let n := (t.1 + d.1, t.2 + d.2) in
                  on_board n && bool_decide (occ !! n = Some color)) dirs)
    targets.

(** [canPlaceLocal({ piece, rotation, flipped, anchor, color, occ })];
    [None] when it throws (no corner for the colour). *)
Definition canPlaceLocal (piece : option (list (Z * Z))) (rotation : Z)
    (flipped : bool) (anchor : option (Z * Z)) (color : string)
    (occ : gmap (Z * Z) string) : option bool :=
  match piece, anchor with
  | Some shape, Some a =>
    if decide (color = "") then Some false
    else
      let tr := transform shape rotation flipped in
      let targets := (λ d, (a.1 + d.1, a.2 + d.2)) <$> tr in
      if existsb (λ t, negb (on_board t)
                       || match occ !! t with
                          | Some c => bool_decide (c ≠ "")
                          | None => false
                          end)
                 targets
      then Some false
      else
        let hasAny := playerHasAny color occ in
        if touches [(1,0); (-1,0); (0,1); (0,-1)] targets color occ
        then Some false
        else
          let touchesDiagonal :=
            touches [(1,1); (1,-1); (-1,1); (-1,-1)] targets color occ in
          if negb hasAny then
            match cornerFor color, targets with
            | Some start, _ =>
                Some (existsb (λ t, bool_decide (t.1 = start.1)
                                    && bool_decide (t.2 = start.2)) targets)
            | None, [] => Some false
            | None, _ :: _ => None
            end
          else Some touchesDiagonal
  | _, _ => Some false
  end.

End Client.

(** ** Specification-side notions used in the statements *)

Module Props.
Import Geometry Catalog Server.

(** [m] is the least element of [l]. *)
Definition is_min (m : Z) (l : list Z) : Prop := m ∈ l ∧ ∀ x, x ∈ l → m <= x.

(** The mirror and the quarter turn as the specification writes them. *)
Definition mirror (p : Z * Z) : Z * Z := let '(x, y) := p in (- x, y).
Definition quarter_turn (p : Z * Z) : Z * Z := let '(x, y) := p in (y, - x).

(** Flip first (when asked), then [n] quarter turns of every cell. *)
Definition flip_then_rotate (shape : list (Z * Z)) (n : nat) (flipped : bool)
    : list (Z * Z) :=
  Nat.iter n quarter_turn <$> (if flipped then mirror <$> shape else shape).

(** The number of catalog entries with [n] cells. *)
Definition count_size (n : nat) : nat :=
  length (filter (λ e, length e.2 = n) PIECES).

(** The cells a log claims, each with the colour of its move, in log order. *)
Definition events (ms : list MoveRow) : list (string * (Z * Z)) :=
  ms ≫= λ m, (λ p, (player_color m, p)) <$> default [] (placement_cells m).

(** All cells claimed in a log, with repetitions if any. *)
Definition log_cells (ms : list MoveRow) : list (Z * Z) := (events ms).*2.

(** Cell [p] is claimed for colour [c] by some placement of the log. *)
Definition claims (ms : list MoveRow) (p : Z * Z) (c : string) : Prop :=
  ∃ m cs, m ∈ ms ∧ placement_cells m = Some cs ∧ p ∈ cs ∧ player_color m = c.

(** The keys for which the per-colour sets exist. *)
Definition is_color (c : string) : Prop := c ∈ DEFAULT_COLORS.

(** The piece keys colour [c] has placed in a log. *)
Definition placed_keys (c : string) (ms : list MoveRow) : list string :=
  omap (λ m, if decide (player_color m = c)
             then match placement_cells m with
                  | Some _ => piece_key m
                  | None => None
                  end
             else None) ms.

(** Two cells share an edge / touch at a corner only. *)
Definition edge_adjacent (p q : Z * Z) : Prop :=
  (q.1 = p.1 - 1 ∧ q.2 = p.2) ∨ (q.1 = p.1 + 1 ∧ q.2 = p.2)
  ∨ (q.1 = p.1 ∧ q.2 = p.2 - 1) ∨ (q.1 = p.1 ∧ q.2 = p.2 + 1).
Definition corner_adjacent (p q : Z * Z) : Prop :=
  (q.1 = p.1 - 1 ∨ q.1 = p.1 + 1) ∧ (q.2 = p.2 - 1 ∨ q.2 = p.2 + 1).

Global Instance edge_adjacent_dec p q : Decision (edge_adjacent p q).
Proof. unfold edge_adjacent. apply _. Defined.
Global Instance corner_adjacent_dec p q : Decision (corner_adjacent p q).
Proof. unfold corner_adjacent. apply _. Defined.

(** The cells colour [c] holds in a log. *)
Definition cells_of (c : string) (ms : list MoveRow) : list (Z * Z) :=
  (filter (λ e, e.1 = c) (events ms)).*2.

(** No non-pass move by [c] in the log. *)
Definition first_move_for (c : string) (ms : list MoveRow) : Prop :=
  ∀ m, m ∈ ms → player_color m = c → passed m = true.

(** What the loop over the move rows has built once it has gone through the
    events [es]: the keys of [occupied] and of each colour's set are those
    of the cells claimed. *)
Record board_of (es : list (string * (Z * Z))) (b : Board) : Prop := {
  bo_dom : dom (playerSets b) = dom four_sets;
  bo_occ_sound : ∀ k c, occupied b !! k = Some c →
                   ∃ p, (c, p) ∈ es ∧ k = keyOfCell p.1 p.2;
  bo_occ_complete : ∀ c p, (c, p) ∈ es → is_Some (occupied b !! keyOfCell p.1 p.2);
  bo_sets : ∀ c s, playerSets b !! c = Some s →
              ∀ k, k ∈ s ↔ ∃ p, (c, p) ∈ es ∧ k = keyOfCell p.1 p.2
}.

(** Two boards with the same [occupied] and the same per-colour sets. *)
Definition same_cells (b1 b2 : Board) : Prop :=
  occupied b1 = occupied b2 ∧ playerSets b1 = playerSets b2.

(** The used-piece sets built by [getGameState] from the log [ms]. *)
Record used_of (ms : list MoveRow) (b : Board) : Prop := {
  uo_dom : dom (usedPieces b) = dom four_sets;
  uo_dom_sets : dom (playerSets b) = dom four_sets;
  uo_keys : ∀ c u, usedPieces b !! c = Some u →
              ∀ k, k ∈ u ↔ k ∈ placed_keys c ms
}.

(** Every placement row of the log has one of the four colours. *)
Definition moves_ok (ms : list MoveRow) : Prop :=
  ∀ m, m ∈ ms → is_Some (placement_cells m) → is_color (player_color m).

(** Every player has one of the four colours. *)
Definition colors_ok (ps : list PlayerRow) : Prop :=
  ∀ p, p ∈ ps → is_color (color p).

(** The starting corners as the specification lists them, for a board of
    side [boardSize]. *)
Definition starting_corner (boardSize : Z) (c : string) : option (Z * Z) :=
  if decide (c = "blue") then Some (0, 0)
  else if decide (c = "yellow") then Some (boardSize - 1, 0)
  else if decide (c = "red") then Some (0, boardSize - 1)
  else if decide (c = "green") then Some (boardSize - 1, boardSize - 1)
  else None.

(** What holds of the rows of every game (see [reachable_wf]). *)
Record wf_db (db : Db) : Prop := {
  wf_size : board_size (game db) = 20;
  wf_status : status (game db) = active;
  wf_players : players db ≠ [];
  wf_index : 0 <= next_player_index (game db) < Z.of_nat (length (players db));
  wf_turns : turn_number <$> moves db
             = (λ i, Z.of_nat i + 1) <$> seq 0 (length (moves db));
  wf_pass : ∀ m, m ∈ moves db → passed m = true → cells m = None;
  wf_placement : ∀ m, m ∈ moves db → passed m = false →
      ∃ cs k shape, cells m = Some cs ∧ piece_key m = Some k
        ∧ assoc PIECES k = Some shape ∧ length cs = length shape
        ∧ is_color (player_color m)
        ∧ ∀ p, p ∈ cs → 0 <= p.1 < 20 ∧ 0 <= p.2 < 20;
  wf_mover : ∀ m, m ∈ moves db → ∃ p, p ∈ players db ∧ color p = player_color m;
  wf_nodup : NoDup (log_cells (moves db))
}.

(** A place request that gets as far as the geometric checks: the piece
    exists, the anchor is given, the state can be read and it is the
    requester's turn. *)
Record on_turn (db : Db) (rq : PlaceReq) (shape : list (Z * Z))
    (position : Z * Z) : Prop := {
  ot_piece : js_get PIECES (rq_piece_key rq) = Own shape;
  ot_position : rq_position rq = Some position;
  ot_state : is_Some (getGameState db);
  ot_turn : ∃ current,
      index (players db) (next_player_index (game db)) = Some current
      ∧ color current = rq_player_color rq
}.

(** Every cell lies on the board of side [size]. *)
Definition in_bounds (cs : list (Z * Z)) (size : Z) : Prop :=
  ∀ p, p ∈ cs → 0 <= p.1 < size ∧ 0 <= p.2 < size.

(** No cell is already claimed in the log. *)
Definition overlap_free (cs : list (Z * Z)) (ms : list MoveRow) : Prop :=
  ∀ p, p ∈ cs → p ∉ log_cells ms.

(** Some cell of [cs] is edge-adjacent (corner-adjacent) to a cell that
    colour [c] holds in the log. *)
Definition touches_edge (cs : list (Z * Z)) (c : string) (ms : list MoveRow) : Prop :=
  ∃ p q, p ∈ cs ∧ claims ms q c ∧ edge_adjacent p q.
Definition touches_corner (cs : list (Z * Z)) (c : string) (ms : list MoveRow) : Prop :=
  ∃ p q, p ∈ cs ∧ claims ms q c ∧ corner_adjacent p q.

(** The verdict of [validate], in terms of cells. *)
Inductive verdict (db : Db) (c : string) (placed : list (Z * Z))
    : (Z * ErrorKind) + unit → Prop :=
  | v_out_of_bounds :
      ¬ in_bounds placed (board_size (game db)) →
      verdict db c placed (inl (400, out_of_bounds))
  | v_overlap :
      in_bounds placed (board_size (game db)) →
      ¬ overlap_free placed (moves db) →
      verdict db c placed (inl (400, overlap))
  | v_first_miss corner :
      in_bounds placed (board_size (game db)) →
      overlap_free placed (moves db) →
      first_move_for c (moves db) →
      js_get START_CORNERS c = Own corner → corner ∉ placed →
      verdict db c placed (inl (400, first_move_must_cover_corner))
  | v_first_ok corner :
      in_bounds placed (board_size (game db)) →
      overlap_free placed (moves db) →
      first_move_for c (moves db) →
      js_get START_CORNERS c = Own corner → corner ∈ placed →
      verdict db c placed (inr tt)
  | v_no_corner :
      in_bounds placed (board_size (game db)) →
      overlap_free placed (moves db) →
      ¬ first_move_for c (moves db) →
      ¬ touches_corner placed c (moves db) →
      verdict db c placed (inl (400, must_touch_same_color_corner))
  | v_edge :
      in_bounds placed (board_size (game db)) →
      overlap_free placed (moves db) →
      ¬ first_move_for c (moves db) →
      touches_corner placed c (moves db) →
      touches_edge placed c (moves db) →
      verdict db c placed (inl (400, cannot_touch_same_color_edge))
  | v_ok :
      in_bounds placed (board_size (game db)) →
      overlap_free placed (moves db) →
      ¬ first_move_for c (moves db) →
      touches_corner placed c (moves db) →
      ¬ touches_edge placed c (moves db) →
      verdict db c placed (inr tt).

(** A string without a comma. *)
Fixpoint no_comma (s : string) : Prop :=
  match s with
  | EmptyString => True
  | String c s' => c ≠ ","%char ∧ no_comma s'
  end.

End Props.

(** ** Concrete games *)

Module Examples.
Import Geometry Catalog Server Props.

(** A request to one of the two move handlers. *)
Inductive Request : Type :=
  | Place (rq : PlaceReq)
  | Skip (player_color : string).

Definition handle (db : Db) (r : Request) : Db * Reply :=
  match r with
  | Place rq => place db rq
  | Skip c => skip db c
  end.

(** The rows after a sequence of requests. *)
Definition run (db : Db) (rs : list Request) : Db :=
  foldl (λ db r, (handle db r).1) db rs.

(** Whether a reply is the [200] one. *)
Definition accepted (r : Reply) : bool :=
  match r with
  | Ok200 _ => true
  | Error _ _ => false
  end.

Definition request (c k : string) (r : Z) (f : bool) (x y : Z) : PlaceReq :=
  {| rq_player_color := c; rq_piece_key := k; rq_rotation := r;
     rq_flipped := f; rq_position := Some (x, y) |}.

(** Blue places, the three others pass. *)
Definition blue_round (k : string) (r : Z) (f : bool) (x y : Z) : list Request :=
  [ Place (request "blue" k r f x y); Skip "yellow"; Skip "red"; Skip "green" ].

(** A game created with the default four colours. *)
Definition new_game : Db := createGame [].

(** Blue has placed the monomino on its corner; blue is on turn again. *)
Definition one_blue : Db := run new_game (blue_round "I1" 0 false 0 0).

(** The domino beside blue's monomino: cells (1,0),(2,0). *)
Definition beside : PlaceReq := request "blue" "I2" 0 false 1 0.

(** The domino upright beside blue's monomino: cells (1,0),(1,1). *)
Definition beside_upright : PlaceReq := request "blue" "I2" 1 false 1 0.

(** All four players have passed in the opening round. *)
Definition all_passed : Db :=
  run new_game [Skip "blue"; Skip "yellow"; Skip "red"; Skip "green"].

(** Blue and yellow have passed: red is on turn, with nothing placed. *)
Definition red_to_move : Db := run new_game [Skip "blue"; Skip "yellow"].

(** Blue places all 21 pieces, the monomino first and [T4] last, the others
    pass throughout; then blue passes too. *)
Definition blue_plays_all : list Request :=
  blue_round "I1" 0 false 0 0 ++ blue_round "I2" 0 false 1 1
  ++ blue_round "I3" 0 false 3 0 ++ blue_round "I4" 0 false 6 1
  ++ blue_round "I5" 0 false 10 0 ++ blue_round "V3" 2 false 15 0
  ++ blue_round "L4" 2 false 17 0 ++ blue_round "Z4" 1 true 0 2
  ++ blue_round "O4" 0 false 3 2 ++ blue_round "T5" 3 false 8 2
  ++ blue_round "L5" 2 false 11 2 ++ blue_round "Y5" 1 false 14 2
  ++ blue_round "N5" 3 false 5 3 ++ blue_round "Z5" 1 false 18 3
  ++ blue_round "U5" 0 false 0 5 ++ blue_round "V5" 2 false 6 5
  ++ blue_round "W5" 3 false 14 5 ++ blue_round "X5" 0 false 2 7
  ++ blue_round "P5" 2 true 10 6 ++ blue_round "F5" 0 false 16 7
  ++ blue_round "T4" 1 false 0 8
  ++ [Skip "blue"].

Definition full_game : Db := run new_game blue_plays_all.

End Examples.

(** ** Further notions used in the statements *)

Module MoreProps.
Import Geometry Catalog Server Props.

(** The rejection a reply carries, if any. *)
Definition outcome (r : Reply) : option (Z * ErrorKind) :=
  match r with
  | Ok200 _ => None
  | Error code e => Some (code, e)
  end.

(** Two move rows that agree on colour, cells and the pass flag (and may
    differ in piece key, rotation, flip and turn number). *)
Definition same_but_key (m1 m2 : MoveRow) : Prop :=
  player_color m1 = player_color m2 ∧ cells m1 = cells m2 ∧ passed m1 = passed m2.

(** The placement row [m] satisfies the rules of the validator against the
    rows [pre] that precede it. *)
Definition legal_after (pre : list MoveRow) (m : MoveRow) : Prop :=
  ∀ cs, placement_cells m = Some cs →
    in_bounds cs 20
    ∧ overlap_free cs pre
    ∧ ¬ touches_edge cs (player_color m) pre
    ∧ (first_move_for (player_color m) pre →
       ∃ corner, js_get START_CORNERS (player_color m) = Own corner ∧ corner ∈ cs)
    ∧ (¬ first_move_for (player_color m) pre →
       touches_corner cs (player_color m) pre).

(** The columns of a stored row fit together: a pass row has no piece,
    rotation, flip or cells; a placement row has a catalog key, a rotation in
    the signed 32-bit range and a flip, and its cells are that piece
    transformed so and moved to some anchor. *)
Definition reproducible (m : MoveRow) : Prop :=
  if passed m
  then piece_key m = None ∧ rotation m = None ∧ flipped m = None ∧ cells m = None
  else ∃ k shape r f dx dy,
         piece_key m = Some k ∧ js_get PIECES k = Own shape
         ∧ rotation m = Some r ∧ - 2^31 <= r < 2^31
         ∧ flipped m = Some f
         ∧ cells m = Some (translate (transformShape shape r f) dx dy).

(** What the turn order keeps: the pointer is the number of moves modulo the
    number of players, and the row at position [i] has turn number [i + 1] and
    the colour of the player at position [i mod playerCount]. *)
Record turn_inv (db : Db) : Prop := {
  ti_index : next_player_index (game db)
             = Z.of_nat (length (moves db)) `mod` Z.of_nat (length (players db));
  ti_rows : ∀ i m, moves db !! i = Some m →
              turn_number m = Z.of_nat i + 1
              ∧ ∃ p, players db !! (i `mod` length (players db))%nat = Some p
                     ∧ color p = player_color m
}.

(** The geometric rules a placement must meet to be accepted. *)
Definition meets_rules (db : Db) (c : string) (placed : list (Z * Z)) : Prop :=
  in_bounds placed (board_size (game db))
  ∧ overlap_free placed (moves db)
  ∧ ((first_move_for c (moves db)
      ∧ ∃ corner, js_get START_CORNERS c = Own corner ∧ corner ∈ placed)
     ∨ (¬ first_move_for c (moves db)
        ∧ touches_corner placed c (moves db)
        ∧ ¬ touches_edge placed c (moves db))).

End MoreProps.

Module MoreExamples.
Import Geometry Catalog Server Props Examples MoreProps.

(** The same rows with the piece key of every move row replaced by [f] of
    it. *)
Definition rekey (f : option string → option string) (db : Db) : Db :=
  {| game := game db;
     players := players db;
     moves := (λ m, {| player_color := player_color m;
                       piece_key := f (piece_key m);
                       rotation := rotation m;
                       flipped := flipped m;
                       cells := cells m;
                       passed := passed m;
                       turn_number := turn_number m |}) <$> moves db |}.

(** The rows of a game with the given log (for statements about the board
    alone). *)
Definition with_log (ms : list MoveRow) : Db :=
  {| game := {| status := active; board_size := 20; next_player_index := 0 |};
     players := [];
     moves := ms |}.

End MoreExamples.

(** ** Geometry: lemmas *)

Module GeometryFacts.
Import Geometry Props.

Lemma rotate_times_mod r : rotate_times r = r `mod` 4.
Proof.
  unfold rotate_times.
  pose proof (Z.rem_bound_abs r 4 ltac:(lia)) as Hb.
  pose proof (Z.quot_rem' r 4) as Hq.
  assert (Hr : -4 < Z.rem r 4 < 4) by lia.
  rewrite Z.rem_mod_nonneg by lia.
  rewrite Hq at 2.
  rewrite <- (Zplus_mod_idemp_r 4 (Z.rem r 4) 4).
  change (4 `mod` 4) with 0. rewrite Z.add_0_r.
  rewrite (Z.add_comm (4 * _)), (Z.mul_comm 4), Z_mod_plus_full. reflexivity.
Qed.

Lemma rotate_times_bound r : 0 <= rotate_times r < 4.
Proof. rewrite rotate_times_mod. apply Z.mod_pos_bound. lia. Qed.

Lemma rot90_quarter_turn p : rot90 p = quarter_turn p.
Proof. by destruct p. Qed.

Lemma flip_mirror p : flip p = mirror p.
Proof. by destruct p. Qed.

Lemma iter_ext {A} (f g : A → A) n x :
  (∀ y, f y = g y) → Nat.iter n f x = Nat.iter n g x.
Proof. intros E. induction n as [|n IH]; simpl; [done|]. by rewrite IH, E. Qed.

Lemma foldl_min_le x l : foldl Z.min x l <= x ∧ ∀ y, y ∈ l → foldl Z.min x l <= y.
Proof.
  revert x. induction l as [|a l IH]; intros x; simpl.
  - split; [lia|]. intros y Hy. by apply elem_of_nil in Hy.
  - destruct (IH (Z.min x a)) as [H1 H2]. split; [lia|].
    intros y [->|Hy]%elem_of_cons; [lia|]. by apply H2.
Qed.

Lemma foldl_min_in x l : foldl Z.min x l ∈ x :: l.
Proof.
  revert x. induction l as [|a l IH]; intros x; simpl.
  - apply list_elem_of_here.
  - specialize (IH (Z.min x a)).
    apply elem_of_cons in IH as [E|Hin].
    + rewrite E. destruct (Z.min_spec x a) as [[_ ->]|[_ ->]].
      * apply list_elem_of_here.
      * apply list_elem_of_further, list_elem_of_here.
    + by do 2 apply list_elem_of_further.
Qed.

Lemma Math_min_is_min l m : Math_min l = Some m → is_min m l.
Proof.
  destruct l as [|x l]; simpl; [done|]. intros [= <-]. split.
  - apply foldl_min_in.
  - destruct (foldl_min_le x l) as [H1 H2].
    intros y [->|Hy]%elem_of_cons; auto.
Qed.

Lemma Math_min_is_Some l : l ≠ [] → is_Some (Math_min l).
Proof. destruct l; [done|]. by eexists. Qed.

(** [normalize] on a non-empty list: subtract the two minima. *)
Lemma normalize_spec cs :
  cs ≠ [] →
  ∃ mx my, is_min mx (cs.*1) ∧ is_min my (cs.*2)
           ∧ normalize cs = (λ p, (p.1 - mx, p.2 - my)) <$> cs.
Proof.
  intros Hne. unfold normalize.
  destruct (Math_min_is_Some (cs.*1)) as [mx Hx]; [by destruct cs|].
  destruct (Math_min_is_Some (cs.*2)) as [my Hy]; [by destruct cs|].
  rewrite Hx, Hy. exists mx, my.
  split_and!; [by apply Math_min_is_min | by apply Math_min_is_min | done].
Qed.

Lemma is_min_shift m l d : is_min m l → is_min (m - d) ((λ x, x - d) <$> l).
Proof.
  intros [Hin Hle]. split.
  - apply list_elem_of_fmap. by exists m.
  - intros x (y & -> & Hy)%list_elem_of_fmap. specialize (Hle y Hy). lia.
Qed.

Lemma transformShape_pipeline (shape : list (Z * Z)) r (flipped : bool) :
  (λ p, rotate p r) <$> (if flipped then flip <$> shape else shape)
  = flip_then_rotate shape (Z.to_nat (r `mod` 4)) flipped.
Proof.
  unfold flip_then_rotate.
  assert (Hf : (if flipped then flip <$> shape else shape)
               = (if flipped then mirror <$> shape else shape)).
  { destruct flipped; [|done]. apply list_fmap_ext. intros _ p _. apply flip_mirror. }
  rewrite Hf. apply list_fmap_ext. intros _ p _.
  unfold rotate. rewrite rotate_times_mod.
  apply iter_ext, rot90_quarter_turn.
Qed.

(** Injectivity of the point maps, for [NoDup] of a placed piece. *)
Global Instance rot90_inj : Inj (=) (=) rot90.
Proof. intros [x y] [x' y']; unfold rot90; simpl. intros [= -> ?]. f_equal. lia. Qed.

Global Instance flip_inj : Inj (=) (=) flip.
Proof. intros [x y] [x' y']; unfold flip; simpl. intros [= ? ->]. f_equal. lia. Qed.

Global Instance rotate_inj r : Inj (=) (=) (λ p, rotate p r).
Proof.
  intros p q. unfold rotate.
  induction (Z.to_nat (rotate_times r)) as [|n IH]; simpl; [done|].
  intros E. by apply IH, (inj rot90).
Qed.

Global Instance shift_inj dx dy : Inj (=) (=) (λ p : Z * Z, (p.1 + dx, p.2 + dy)).
Proof. intros [x y] [x' y']; simpl. intros [= ? ?]. f_equal; lia. Qed.

Lemma normalize_NoDup cs : NoDup cs → NoDup (normalize cs).
Proof.
  intros Hnd. unfold normalize.
  destruct (Math_min _); [|constructor]. destruct (Math_min _); [|constructor].
  apply NoDup_fmap_2; [|done].
  intros [x y] [x' y']; simpl. intros [= ? ?]. f_equal; lia.
Qed.

Lemma placed_NoDup shape r flipped dx dy :
  NoDup shape → NoDup (translate (transformShape shape r flipped) dx dy).
Proof.
  intros Hnd. unfold translate, transformShape.
  apply (NoDup_fmap_2 _), normalize_NoDup, (NoDup_fmap_2 _).
  destruct flipped; [by apply (NoDup_fmap_2 _)|done].
Qed.

Lemma placed_length shape r flipped dx dy :
  length (translate (transformShape shape r flipped) dx dy) = length shape.
Proof.
  unfold translate, transformShape, normalize. rewrite length_fmap.
  destruct shape as [|p shape]; [by destruct flipped|].
  destruct flipped; simpl; by rewrite !length_fmap.
Qed.

Lemma iter_fmap {A} (f : A → A) n (l : list A) :
  Nat.iter n (fmap f) l = Nat.iter n f <$> l.
Proof.
  induction n as [|n IH]; simpl.
  - by rewrite list_fmap_id.
  - by rewrite IH, <- list_fmap_compose.
Qed.

(** The client's [transform] computes what the server's [transformShape]
    computes. *)
Lemma client_transform shape r flipped :
  Client.transform shape r flipped = transformShape shape r flipped.
Proof.
  unfold Client.transform, transformShape, normalize.
  rewrite iter_fmap.
  assert ((if flipped then (λ p : Z * Z, (- p.1, p.2)) <$> shape else shape)
          = (if flipped then flip <$> shape else shape)) as -> by done.
  assert (Nat.iter (Z.to_nat (Z.rem (Z.rem r 4 + 4) 4)) (λ p : Z * Z, (p.2, - p.1))
          <$> (if flipped then flip <$> shape else shape)
          = (λ p, rotate p r) <$> (if flipped then flip <$> shape else shape))
    as -> by done.
  done.
Qed.

End GeometryFacts.

(** ** Cell keys: [keyOfCell] separates distinct cells *)

Module KeyFacts.
Import Geometry Props.

Lemma pretty_N_char_no_comma x : pretty_N_char x ≠ ","%char.
Proof. unfold pretty_N_char. by repeat case_match. Qed.

Lemma pretty_N_go_no_comma x s : no_comma s → no_comma (pretty_N_go x s).
Proof.
  revert s. induction (N.lt_wf_0 x) as [x _ IH]; intros s Hs.
  destruct (decide (x = 0)%N) as [->|Hx].
  - by rewrite pretty_N_go_0.
  - rewrite pretty_N_go_step by lia. apply IH.
    + apply N.div_lt; lia.
    + split; [apply pretty_N_char_no_comma | done].
Qed.

Lemma pretty_N_no_comma (x : N) : no_comma (pretty x).
Proof.
  unfold pretty, pretty_N. case_decide.
  - by split.
  - by apply pretty_N_go_no_comma.
Qed.

Lemma pretty_Z_no_comma (x : Z) : no_comma (pretty x).
Proof.
  unfold pretty, pretty_Z. destruct x as [|p|p].
  - by split.
  - apply pretty_N_no_comma.
  - split; [done|]. apply pretty_N_no_comma.
Qed.

Lemma split_at_comma s1 s2 t1 t2 :
  no_comma s1 → no_comma s2 →
  s1 +:+ "," +:+ t1 = s2 +:+ "," +:+ t2 → s1 = s2 ∧ t1 = t2.
Proof.
  revert s2. induction s1 as [|c s1 IH]; intros [|c' s2]; simpl.
  - intros _ _ [= E]. by subst.
  - intros _ [Hc _] [= E _]. by subst.
  - intros [Hc _] _ [= E _]. by subst.
  - intros [_ H1] [_ H2] [= Ec E]. destruct (IH _ H1 H2 E) as [? ?]. by subst.
Qed.

Lemma keyOfCell_inj x y x' y' :
  keyOfCell x y = keyOfCell x' y' → x = x' ∧ y = y'.
Proof.
  unfold keyOfCell. intros E.
  apply split_at_comma in E as [Ex Ey]; try apply pretty_Z_no_comma.
  split; by apply (inj pretty).
Qed.

Lemma keyOfCell_pair_inj (p q : Z * Z) :
  keyOfCell p.1 p.2 = keyOfCell q.1 q.2 → p = q.
Proof. destruct p, q; simpl. intros [-> ->]%keyOfCell_inj. done. Qed.

End KeyFacts.

(** ** The board built from a log *)

Module BoardFacts.
Import Geometry Catalog Server Props KeyFacts.

Lemma foldM_app {A B} (f : B → A → option B) b l1 l2 :
  foldM f b (l1 ++ l2) = foldM f b l1 ≫= λ b', foldM f b' l2.
Proof.
  revert b. induction l1 as [|a l1 IH]; intros b; simpl; [done|].
  destruct (f b a) as [b'|]; simpl; [apply IH|done].
Qed.

Lemma foldM_snoc {A B} (f : B → A → option B) b l a b' :
  foldM f b (l ++ [a]) = Some b' ↔ ∃ b1, foldM f b l = Some b1 ∧ f b1 a = Some b'.
Proof.
  rewrite foldM_app. destruct (foldM f b l) as [b1|]; simpl.
  - destruct (f b1 a) as [b2|] eqn:E; simpl.
    + split; [intros [= <-]; eauto|]. intros (? & [= <-] & ?). congruence.
    + split; [done|]. intros (? & [= <-] & ?). congruence.
  - split; [done|]. by intros (? & ? & ?).
Qed.

Lemma foldM_fmap {A B C} (f : B → A → option B) (g : C → A) b l :
  foldM f b (g <$> l) = foldM (λ b c, f b (g c)) b l.
Proof.
  revert b. induction l as [|c l IH]; intros b; simpl; [done|].
  destruct (f b (g c)); simpl; auto.
Qed.

(** An invariant of the steps holds of the result. *)
Lemma foldM_invariant {A B} (f : B → A → option B) (P : B → Prop) b l b' :
  P b → (∀ b1 a b2, P b1 → f b1 a = Some b2 → P b2) →
  foldM f b l = Some b' → P b'.
Proof.
  intros Hb Hstep. revert b Hb. induction l as [|x l IH]; intros b Hb; simpl.
  - by intros [= <-].
  - destruct (f b x) as [b1|] eqn:E; simpl; [|done]. eauto.
Qed.

Lemma elem_of_four_sets c : c ∈ dom four_sets ↔ is_color c.
Proof.
  unfold four_sets, is_color, DEFAULT_COLORS.
  rewrite !dom_insert_L, dom_empty_L. set_solver.
Qed.

Lemma four_sets_lookup c s : four_sets !! c = Some s → s = ∅.
Proof.
  unfold four_sets. rewrite !lookup_insert.
  repeat case_decide; naive_solver.
Qed.

(** *** Events *)

Lemma events_app ms1 ms2 : events (ms1 ++ ms2) = events ms1 ++ events ms2.
Proof. unfold events. apply bind_app. Qed.

Lemma events_cons m ms :
  events (m :: ms)
  = ((λ p, (player_color m, p)) <$> default [] (placement_cells m)) ++ events ms.
Proof. done. Qed.

Lemma elem_of_events c p ms : (c, p) ∈ events ms ↔ claims ms p c.
Proof.
  unfold events, claims. rewrite list_elem_of_bind. split.
  - intros (m & Hin & Hm). apply list_elem_of_fmap in Hin as (q & [= -> ->] & Hq).
    destruct (placement_cells m) as [cs|] eqn:E; simpl in Hq.
    + by exists m, cs.
    + by apply elem_of_nil in Hq.
  - intros (m & cs & Hm & E & Hp & <-). exists m. split; [|done].
    rewrite E. simpl. apply list_elem_of_fmap. by exists p.
Qed.

Lemma elem_of_log_cells p ms : p ∈ log_cells ms ↔ ∃ c, claims ms p c.
Proof.
  unfold log_cells. rewrite list_elem_of_fmap. split.
  - intros ([c q] & -> & H). exists c. by apply elem_of_events.
  - intros [c H]. exists (c, p). split; [done|]. by apply elem_of_events.
Qed.

Lemma elem_of_cells_of c p ms : p ∈ cells_of c ms ↔ claims ms p c.
Proof.
  unfold cells_of. rewrite list_elem_of_fmap. split.
  - intros ([c' q] & -> & H). apply list_elem_of_filter in H as [E H].
    simpl in E. subst. by apply elem_of_events.
  - intros H. exists (c, p). split; [done|].
    apply list_elem_of_filter. split; [done|]. by apply elem_of_events.
Qed.

Lemma log_cells_app ms1 ms2 : log_cells (ms1 ++ ms2) = log_cells ms1 ++ log_cells ms2.
Proof. unfold log_cells. by rewrite events_app, fmap_app. Qed.

Lemma log_cells_single m :
  log_cells [m] = default [] (placement_cells m).
Proof.
  unfold log_cells. rewrite events_cons. unfold events. simpl.
  rewrite app_nil_r, <- list_fmap_compose. simpl. apply list_fmap_id.
Qed.

Lemma replay_events ms b :
  foldM replay_move b ms = foldM (λ b e, add_cell e.1 b e.2) b (events ms).
Proof.
  revert b. induction ms as [|m ms IH]; intros b; [done|].
  rewrite events_cons, foldM_app, foldM_fmap.
  cbn [foldM].
  assert (replay_move b m
          = foldM (λ b c, add_cell (player_color m, c).1 b (player_color m, c).2) b
              (default [] (placement_cells m))) as ->.
  { unfold replay_move. by destruct (placement_cells m). }
  destruct (foldM _ b _); simpl; [apply IH|done].
Qed.

(** *** What the event fold builds *)

Lemma board_of_empty u :
  board_of [] {| occupied := ∅; playerSets := four_sets; usedPieces := u |}.
Proof.
  split; simpl.
  - done.
  - intros k c H. by rewrite lookup_empty in H.
  - intros c p H. by apply elem_of_nil in H.
  - intros c s H k. apply four_sets_lookup in H as ->. split.
    + intros H. by apply not_elem_of_empty in H.
    + intros (p & H & _). by apply elem_of_nil in H.
Qed.

Lemma board_of_step es b e b' :
  board_of es b → add_cell e.1 b e.2 = Some b' → board_of (es ++ [e]) b'.
Proof.
  intros [Hd Hs Hc Hp]. destruct e as [c0 p0]. unfold add_cell. simpl.
  destruct (playerSets b !! c0) as [s0|] eqn:E0; simpl; [|done].
  intros [= <-]. split; simpl.
  - rewrite dom_insert_L, Hd.
    assert (c0 ∈ dom four_sets) by (rewrite <- Hd; apply elem_of_dom; eauto).
    set_solver.
  - intros k c. rewrite lookup_insert. case_decide as Hk.
    + intros [= <-]. exists p0. split; [set_solver|done].
    + intros H. destruct (Hs _ _ H) as (p & Hin & ->). exists p. split; [set_solver|done].
  - intros c p [Hin|Hin%list_elem_of_singleton]%elem_of_app.
    + rewrite lookup_insert. case_decide; [by eexists|]. eauto.
    + injection Hin as -> ->. rewrite lookup_insert_eq. by eexists.
  - intros c s. rewrite lookup_insert. case_decide as Hc0.
    + subst c. intros [= <-] k. rewrite elem_of_union, elem_of_singleton, (Hp _ _ E0 k).
      split.
      * intros [->|(p & Hin & ->)]; [exists p0|exists p]; split; set_solver.
      * intros (p & [Hin|Hin%list_elem_of_singleton]%elem_of_app & ->).
        -- right. by exists p.
        -- left. by injection Hin as ->.
    + intros H k. rewrite (Hp _ _ H k). split.
      * intros (p & Hin & ->). exists p. split; set_solver.
      * intros (p & [Hin|Hin%list_elem_of_singleton]%elem_of_app & ->).
        -- by exists p.
        -- injection Hin as ? ?. congruence.
Qed.

Lemma board_of_fold es : ∀ b,
  foldM (λ b e, add_cell e.1 b e.2) empty_board es = Some b → board_of es b.
Proof.
  induction es as [|e es IH] using rev_ind; intros b.
  - simpl. intros [= <-]. apply board_of_empty.
  - intros (b1 & H1 & H2)%foldM_snoc. eapply board_of_step; eauto.
Qed.

Lemma replay_board ms b :
  foldM replay_move empty_board ms = Some b → board_of (events ms) b.
Proof. rewrite replay_events. apply board_of_fold. Qed.

End BoardFacts.

(** ** [getGameState]: when it returns and what it returns *)

Module ProjectFacts.
Import Geometry Catalog Server Props KeyFacts BoardFacts.

Lemma add_cell_keeps c b p b' :
  add_cell c b p = Some b' →
  usedPieces b' = usedPieces b ∧ dom (playerSets b') = dom (playerSets b).
Proof.
  unfold add_cell. destruct (playerSets b !! c) as [s|] eqn:E; simpl; [|done].
  intros [= <-]. simpl. split; [done|].
  rewrite dom_insert_L. apply (elem_of_dom_2 (D := gset string)) in E. set_solver.
Qed.

Lemma add_cell_fold_keeps c b cs b' :
  foldM (add_cell c) b cs = Some b' →
  usedPieces b' = usedPieces b ∧ dom (playerSets b') = dom (playerSets b).
Proof.
  apply (foldM_invariant _
    (λ b1, usedPieces b1 = usedPieces b ∧ dom (playerSets b1) = dom (playerSets b))).
  - done.
  - intros b1 a b2 [H1 H2] [H3 H4]%add_cell_keeps. split; congruence.
Qed.

Lemma add_cell_fold_is_Some c b cs :
  c ∈ dom (playerSets b) → is_Some (foldM (add_cell c) b cs).
Proof.
  revert b. induction cs as [|p cs IH]; intros b Hc; simpl; [by eexists|].
  destruct (add_cell c b p) as [b1|] eqn:E; simpl.
  - apply IH. apply add_cell_keeps in E as [_ ->]. done.
  - unfold add_cell in E. apply elem_of_dom in Hc as [s Hs].
    by rewrite Hs in E.
Qed.

Lemma add_cell_agree c b1 b2 p b1' :
  same_cells b1 b2 → add_cell c b1 p = Some b1' →
  ∃ b2', add_cell c b2 p = Some b2' ∧ same_cells b1' b2'.
Proof.
  intros [Ho Hs]. unfold add_cell. rewrite <- Hs, <- Ho.
  destruct (playerSets b1 !! c) as [s|]; simpl; [|done].
  intros [= <-]. eexists. split; [done|]. by split.
Qed.

Lemma add_cell_fold_agree c cs : ∀ b1 b2 b1',
  same_cells b1 b2 → foldM (add_cell c) b1 cs = Some b1' →
  ∃ b2', foldM (add_cell c) b2 cs = Some b2' ∧ same_cells b1' b2'.
Proof.
  induction cs as [|p cs IH]; intros b1 b2 b1' Hs; simpl.
  - intros [= <-]. eauto.
  - destruct (add_cell c b1 p) as [b1m|] eqn:E; simpl; [|done].
    destruct (add_cell_agree _ _ _ _ _ Hs E) as (b2m & -> & Hm). simpl.
    by apply IH.
Qed.

Lemma project_replay_agree ms : ∀ b1 b2 b1',
  same_cells b1 b2 → foldM project_move b1 ms = Some b1' →
  ∃ b2', foldM replay_move b2 ms = Some b2' ∧ same_cells b1' b2'.
Proof.
  induction ms as [|m ms IH]; intros b1 b2 b1' Hs; simpl.
  - intros [= <-]. eauto.
  - destruct (project_move b1 m) as [b1m|] eqn:E1; simpl; [|done].
    intros Hrest.
    assert (∃ b2m, replay_move b2 m = Some b2m ∧ same_cells b1m b2m)
      as (b2m & -> & Hm).
    { unfold project_move in E1. unfold replay_move.
      destruct (placement_cells m) as [cs|].
      - destruct (foldM (add_cell (player_color m)) b1 cs) as [b1c|] eqn:E;
          simpl in E1; [|done].
        destruct (add_cell_fold_agree _ _ _ _ _ Hs E) as (b2c & -> & Hc).
        exists b2c. split; [done|]. unfold add_used in E1.
        destruct (usedPieces b1c !! _); simpl in E1; [|done].
        injection E1 as <-. destruct Hc. by split.
      - injection E1 as <-. eauto. }
    simpl. eapply IH; eauto.
Qed.

Lemma board_of_same es b1 b2 : same_cells b1 b2 → board_of es b1 → board_of es b2.
Proof.
  intros [Ho Hs] [H1 H2 H3 H4]. split; rewrite <- ?Hs, <- ?Ho; done.
Qed.

(** The board of [getGameState] is the board of the place handler. *)
Lemma project_board ms b :
  foldM project_move empty_board ms = Some b →
  board_of (events ms) b
  ∧ ∃ b', foldM replay_move empty_board ms = Some b' ∧ same_cells b b'.
Proof.
  intros H.
  destruct (project_replay_agree ms empty_board empty_board b) as (b' & Hr & Hs);
    [by split|done|].
  split; [|eauto].
  apply (board_of_same _ b'); [by destruct Hs|]. by apply replay_board.
Qed.

Lemma placed_keys_snoc c ms m :
  placed_keys c (ms ++ [m])
  = placed_keys c ms
    ++ (if decide (player_color m = c)
        then match placement_cells m, piece_key m with
             | Some _, Some k => [k]
             | _, _ => []
             end
        else []).
Proof.
  unfold placed_keys. rewrite omap_app. f_equal. simpl.
  case_decide; [|done]. by destruct (placement_cells m), (piece_key m).
Qed.

Lemma project_move_used ms b m b' :
  used_of ms b → project_move b m = Some b' → used_of (ms ++ [m]) b'.
Proof.
  intros [Hd Hds Hk]. unfold project_move.
  destruct (placement_cells m) as [cs|] eqn:Ecs; simpl.
  - destruct (foldM (add_cell _) b cs) as [b1|] eqn:E; simpl; [|done].
    apply add_cell_fold_keeps in E as [Eu Ed].
    unfold add_used. rewrite Eu.
    destruct (usedPieces b !! player_color m) as [u0|] eqn:E0; simpl; [|done].
    intros [= <-]. split; simpl.
    + rewrite dom_insert_L, Hd.
      assert (player_color m ∈ dom four_sets)
        by (rewrite <- Hd; apply elem_of_dom; eauto).
      set_solver.
    + congruence.
    + intros c u. rewrite lookup_insert, placed_keys_snoc, Ecs.
      destruct (decide (player_color m = c)) as [Hc|Hc].
      * intros [= <-] k.
        rewrite elem_of_app. destruct (piece_key m) as [k0|]; simpl.
        -- rewrite elem_of_union, elem_of_singleton, (Hk _ _ E0 k).
           subst c. rewrite list_elem_of_singleton. tauto.
        -- subst c. rewrite (Hk _ _ E0 k), elem_of_nil. tauto.
      * intros H k. rewrite app_nil_r. by apply Hk.
  - intros [= <-]. split; [done|done|].
    intros c u H k. rewrite placed_keys_snoc, Ecs.
    case_decide; rewrite app_nil_r; by apply Hk.
Qed.

Lemma project_used ms : ∀ b,
  foldM project_move empty_board ms = Some b → used_of ms b.
Proof.
  induction ms as [|m ms IH] using rev_ind; intros b.
  - simpl. intros [= <-]. split; simpl; [done|done|].
    intros c u H k. apply four_sets_lookup in H as ->.
    unfold placed_keys. simpl. rewrite elem_of_nil. set_solver.
  - intros (b1 & H1 & H2)%foldM_snoc. eapply project_move_used; eauto.
Qed.

Lemma project_move_is_Some b m :
  dom (playerSets b) = dom four_sets → dom (usedPieces b) = dom four_sets →
  (is_Some (placement_cells m) → is_color (player_color m)) →
  ∃ b', project_move b m = Some b'
        ∧ dom (playerSets b') = dom four_sets
        ∧ dom (usedPieces b') = dom four_sets.
Proof.
  intros Hs Hu Hc. unfold project_move.
  destruct (placement_cells m) as [cs|]; simpl; [|eauto].
  assert (Hin : player_color m ∈ dom four_sets).
  { apply elem_of_four_sets, Hc. by eexists. }
  destruct (add_cell_fold_is_Some (player_color m) b cs) as [b1 H1];
    [by rewrite Hs|].
  rewrite H1. simpl. apply add_cell_fold_keeps in H1 as [Eu Ed].
  unfold add_used. rewrite Eu.
  pose proof Hin as Hin'. rewrite <- Hu in Hin'.
  apply elem_of_dom in Hin' as [u0 E0]. rewrite E0. simpl.
  eexists. split; [done|]. simpl. split; [congruence|].
  rewrite dom_insert_L, Hu. set_solver.
Qed.

Lemma project_total ms : ∀ b,
  moves_ok ms →
  dom (playerSets b) = dom four_sets → dom (usedPieces b) = dom four_sets →
  is_Some (foldM project_move b ms).
Proof.
  induction ms as [|m ms IH]; intros b Hok Hs Hu; simpl; [by eexists|].
  destruct (project_move_is_Some b m Hs Hu) as (b' & -> & Hs' & Hu').
  { apply Hok. apply list_elem_of_here. }
  simpl. apply IH; [|done|done].
  intros m' Hm'. apply Hok. by apply list_elem_of_further.
Qed.

End ProjectFacts.

(** ** The handlers: case analysis *)

Module StateFacts.
Import Geometry Catalog Server Props KeyFacts BoardFacts ProjectFacts.

Lemma index_Some {A} (l : list A) i x :
  index l i = Some x → 0 <= i < Z.of_nat (length l) ∧ x ∈ l.
Proof.
  unfold index. case_decide as Hi; [|done]. intros H.
  pose proof (lookup_lt_Some _ _ _ H). split; [lia|].
  by eapply list_elem_of_lookup_2.
Qed.

Lemma index_is_Some {A} (l : list A) i :
  0 <= i < Z.of_nat (length l) → is_Some (index l i).
Proof.
  intros Hi. unfold index. rewrite decide_True by lia.
  apply lookup_lt_is_Some. lia.
Qed.

(** The fold that fills [remaining] (with [g = remPieces]) or [scores]
    (with [g = score_of]). *)
Lemma insert_fold {V} (g : gset string → V) (used : gmap string (gset string)) ps :
  ∀ r0 r : gmap string V,
  foldM (λ r p, u ← used !! color p; Some (<[color p := g u]> r)) r0 ps = Some r →
  ∀ p, p ∈ ps → ∃ u, used !! color p = Some u ∧ r !! color p = Some (g u).
Proof.
  induction ps as [|a ps IH] using rev_ind; intros r0 r H p Hp.
  - by apply elem_of_nil in Hp.
  - apply foldM_snoc in H as (r1 & H1 & H2).
    destruct (used !! color a) as [ua|] eqn:Ea; simpl in H2; [|done].
    injection H2 as <-.
    destruct (decide (color p = color a)) as [Ec|Ec].
    + exists ua. rewrite Ec. split; [done|]. apply lookup_insert_eq.
    + apply elem_of_app in Hp as [Hp|Hp%list_elem_of_singleton]; [|by subst].
      destruct (IH _ _ H1 _ Hp) as (u & Hu & Hr). exists u. split; [done|].
      by rewrite lookup_insert_ne.
Qed.

Lemma insert_fold_is_Some {V} (g : gset string → V) (used : gmap string (gset string)) ps :
  (∀ p, p ∈ ps → is_Some (used !! color p)) →
  ∀ r0 : gmap string V,
  is_Some (foldM (λ r p, u ← used !! color p; Some (<[color p := g u]> r)) r0 ps).
Proof.
  induction ps as [|a ps IH]; intros Hall r0; simpl; [by eexists|].
  destruct (Hall a) as [u Hu]; [apply list_elem_of_here|]. rewrite Hu. simpl.
  apply IH. intros p Hp. apply Hall. by apply list_elem_of_further.
Qed.

Lemma getGameState_inv db s :
  getGameState db = Some s →
  ∃ b, foldM project_move empty_board (moves db) = Some b
    ∧ gs_game s = {| status := projected_status db;
                     board_size := board_size (game db);
                     next_player_index := next_player_index (game db) |}
    ∧ gs_players s = players db
    ∧ gs_moves s = moves db
    ∧ occupiedCount s = size (occupied b)
    ∧ (∀ p, p ∈ players db →
         ∃ u, usedPieces b !! color p = Some u
              ∧ remaining s !! color p = Some (remPieces u)
              ∧ (projected_status db = finished →
                 scores s !! color p = Some (score_of u)))
    ∧ (projected_status db ≠ finished → scores s = ∅).
Proof.
  unfold getGameState.
  destruct (foldM project_move empty_board (moves db)) as [b|]; simpl; [|done].
  destruct (foldM (add_remaining (usedPieces b)) ∅ (players db)) as [rem|] eqn:Er;
    simpl; [|done].
  destruct (decide (projected_status db = finished)) as [Hf|Hf].
  - destruct (foldM (add_score (usedPieces b)) ∅ (players db)) as [sc|] eqn:Es;
      simpl; [|done].
    intros [= <-]. exists b. simpl. split_and!; try done.
    intros p Hp.
    destruct (insert_fold remPieces _ _ _ _ Er p Hp) as (u & Hu & Hr).
    destruct (insert_fold score_of _ _ _ _ Es p Hp) as (u' & Hu' & Hs').
    exists u. split_and!; [done|done|]. intros _. congruence.
  - simpl. intros [= <-]. exists b. simpl. split_and!; try done.
    intros p Hp.
    destruct (insert_fold remPieces _ _ _ _ Er p Hp) as (u & Hu & Hr).
    exists u. split_and!; done.
Qed.

Lemma project_move_doms b m b' :
  project_move b m = Some b' →
  dom (usedPieces b') = dom (usedPieces b)
  ∧ (is_Some (placement_cells m) → player_color m ∈ dom (usedPieces b)).
Proof.
  unfold project_move. destruct (placement_cells m) as [cs|]; simpl.
  - destruct (foldM (add_cell _) b cs) as [b1|] eqn:E; simpl; [|done].
    apply add_cell_fold_keeps in E as [Eu _]. unfold add_used. rewrite Eu.
    destruct (usedPieces b !! player_color m) as [u|] eqn:E0; simpl; [|done].
    intros [= <-]. simpl. apply (elem_of_dom_2 (D := gset string)) in E0.
    split; [|done]. rewrite dom_insert_L. set_solver.
  - intros [= <-]. split; [done|]. by intros [? ?].
Qed.

Lemma project_fold_moves_ok ms : ∀ b b',
  dom (usedPieces b) = dom four_sets →
  foldM project_move b ms = Some b' → moves_ok ms.
Proof.
  induction ms as [|m ms IH]; intros b b' Hd H m' Hm'.
  - by apply elem_of_nil in Hm'.
  - simpl in H. destruct (project_move b m) as [b1|] eqn:E; simpl in H; [|done].
    apply project_move_doms in E as [Ed Hc].
    apply elem_of_cons in Hm' as [->|Hm'].
    + intros Hp. apply elem_of_four_sets. rewrite <- Hd. by apply Hc.
    + eapply (IH b1 b'); [congruence|done|done].
Qed.

Lemma getGameState_ok db s :
  getGameState db = Some s → moves_ok (moves db) ∧ colors_ok (players db).
Proof.
  intros (b & Hb & _ & _ & _ & _ & Hp & _)%getGameState_inv. split.
  - by apply (project_fold_moves_ok _ empty_board b).
  - intros p Hin. destruct (Hp p Hin) as (u & Hu & _).
    apply elem_of_four_sets. rewrite <- (uo_dom _ _ (project_used _ _ Hb)).
    apply elem_of_dom. eauto.
Qed.

Lemma getGameState_is_Some db :
  moves_ok (moves db) → colors_ok (players db) → is_Some (getGameState db).
Proof.
  intros Hm Hc. unfold getGameState.
  destruct (project_total (moves db) empty_board Hm) as [b Hb]; [done|done|].
  rewrite Hb. simpl.
  assert (Hall : ∀ p, p ∈ players db → is_Some (usedPieces b !! color p)).
  { intros p Hp. apply elem_of_dom.
    rewrite (uo_dom _ _ (project_used _ _ Hb)). by apply elem_of_four_sets, Hc. }
  destruct (insert_fold_is_Some remPieces _ _ Hall ∅) as [rem Hr].
  unfold add_remaining. rewrite Hr. simpl.
  destruct (decide _); simpl; [|by eexists].
  destruct (insert_fold_is_Some score_of _ _ Hall ∅) as [sc Hs].
  unfold add_score. rewrite Hs. simpl. by eexists.
Qed.

Lemma moves_ok_snoc ms m :
  moves_ok ms → (is_Some (placement_cells m) → is_color (player_color m)) →
  moves_ok (ms ++ [m]).
Proof.
  intros H1 H2 m' [Hin|Hin%list_elem_of_singleton]%elem_of_app; subst; auto.
Qed.

(** After the two writes, the state is read back without a throw. *)
Lemma getGameState_append db s current m :
  getGameState db = Some s → current ∈ players db →
  player_color m = color current →
  is_Some (getGameState (append_move db m)).
Proof.
  intros [Hm Hc]%getGameState_ok Hin Hcol. apply getGameState_is_Some; simpl.
  - apply moves_ok_snoc; [done|]. intros _. rewrite Hcol. by apply Hc.
  - done.
Qed.

(** What [skip] does, by cases. *)
Lemma skip_cases db c :
  (∃ code e, skip db c = (db, Error code e))
  ∨ (∃ s current s',
       getGameState db = Some s
       ∧ index (players db) (next_player_index (game db)) = Some current
       ∧ color current = c
       ∧ getGameState
           (append_move db (pass_row c (Z.of_nat (length (moves db)) + 1)))
         = Some s'
       ∧ skip db c
         = (append_move db (pass_row c (Z.of_nat (length (moves db)) + 1)),
            Ok200 s')).
Proof.
  unfold skip. destruct (getGameState db) as [s|] eqn:Es; [|left; eauto].
  destruct (getGameState_inv _ _ Es) as (b & _ & Hg & Hp & Hm & _).
  rewrite Hg, Hp, Hm. simpl.
  destruct (index _ _) as [current|] eqn:Ei; [|left; eauto].
  case_decide as Hc; [left; eauto|].
  right. unfold reply_state.
  destruct (getGameState_append db s current
              (pass_row c (Z.of_nat (length (moves db)) + 1)) Es) as [s' Hs'];
    [by apply index_Some in Ei as [_ ?] | by simpl |].
  rewrite Hs'. exists s, current, s'. done.
Qed.

(** What [place] does, by cases. *)
Lemma place_cases db rq :
  (∃ code e, place db rq = (db, Error code e))
  ∨ (∃ shape position s current b s',
       let placed := placed_cells shape rq position in
       let row := placement_row rq placed (Z.of_nat (length (moves db)) + 1) in
       js_get PIECES (rq_piece_key rq) = Own shape
       ∧ rq_position rq = Some position
       ∧ getGameState db = Some s
       ∧ index (players db) (next_player_index (game db)) = Some current
       ∧ color current = rq_player_color rq
       ∧ foldM replay_move empty_board (moves db) = Some b
       ∧ validate db b (rq_player_color rq) placed = inr tt
       ∧ getGameState (append_move db row) = Some s'
       ∧ place db rq = (append_move db row, Ok200 s')).
Proof.
  unfold place.
  destruct (js_get PIECES (rq_piece_key rq)) as [shape| |] eqn:Ep;
    [| |left; eauto].
  - destruct (rq_position rq) as [position|]; [|left; eauto].
    destruct (getGameState db) as [s|] eqn:Es; [|left; eauto].
    destruct (getGameState_inv _ _ Es) as (b0 & _ & Hg & Hp & Hm & _).
    rewrite Hg, Hp, Hm. simpl.
    destruct (index _ _) as [current|] eqn:Ei; [|left; eauto].
    case_decide as Hc; [left; eauto|].
    destruct (foldM replay_move empty_board (moves db)) as [b|] eqn:Eb;
      [|left; eauto].
    destruct (validate db b (rq_player_color rq) _) as [[code e]|[]] eqn:Ev;
      [left; eauto|].
    right. unfold reply_state.
    destruct (getGameState_append db s current
                (placement_row rq (placed_cells shape rq position)
                   (Z.of_nat (length (moves db)) + 1)) Es) as [s' Hs'];
      [by apply index_Some in Ei as [_ ?] | by simpl |].
    rewrite Hs'. exists shape, position, s, current, b, s'. done.
  - left. destruct (rq_position rq); [|eauto].
    destruct (getGameState db) as [s|]; [|eauto].
    destruct (index _ _); [|eauto]. case_decide; [eauto|].
    destruct (foldM _ _ _); eauto.
Qed.

End StateFacts.

(** ** The validator, check by check *)

Module ValidateFacts.
Import Geometry Catalog Server Props KeyFacts BoardFacts ProjectFacts StateFacts.

Lemma isWithinBoard_true cs size : isWithinBoard cs size = true ↔ in_bounds cs size.
Proof.
  unfold isWithinBoard, in_bounds. rewrite forallb_forall. split.
  - intros H p Hp%list_elem_of_In. specialize (H p Hp).
    rewrite !andb_true_iff, !bool_decide_eq_true in H. lia.
  - intros H p Hp%list_elem_of_In. specialize (H p Hp).
    rewrite !andb_true_iff, !bool_decide_eq_true. lia.
Qed.

Lemma isFirstMove_true ms c : isFirstMove ms c = true ↔ first_move_for c ms.
Proof.
  unfold isFirstMove, first_move_for.
  rewrite negb_true_iff, <- not_true_iff_false, existsb_exists. split.
  - intros H m Hm Hc. destruct (passed m) eqn:E; [done|]. exfalso. apply H.
    exists m. rewrite <- list_elem_of_In, andb_true_iff, bool_decide_eq_true, E.
    done.
  - intros H (m & Hm%list_elem_of_In & [Hc Hp]%andb_true_iff).
    apply bool_decide_eq_true in Hc. rewrite (H m Hm Hc) in Hp. done.
Qed.

Lemma first_move_no_claims c ms p : first_move_for c ms → ¬ claims ms p c.
Proof.
  intros H (m & cs & Hm & Hcs & _ & Hc). unfold placement_cells in Hcs.
  by rewrite (H m Hm Hc) in Hcs.
Qed.

Lemma START_CORNERS_color c : is_color c → ∃ corner, js_get START_CORNERS c = Own corner.
Proof.
  unfold is_color, DEFAULT_COLORS. rewrite !elem_of_cons, elem_of_nil.
  intros [->|[->|[->|[->|[]]]]]; by eexists.
Qed.

Lemma START_CORNERS_spec c corner :
  js_get START_CORNERS c = Own corner ↔ starting_corner 20 c = Some corner.
Proof.
  unfold js_get, starting_corner, START_CORNERS, assoc.
  destruct (decide (c = "blue")) as [->|?];
    [rewrite decide_True by done; split; intros [= <-]; done|].
  rewrite (decide_False (P := "blue" = c)) by done.
  destruct (decide (c = "yellow")) as [->|?];
    [rewrite decide_True by done; split; intros [= <-]; done|].
  rewrite (decide_False (P := "yellow" = c)) by done.
  destruct (decide (c = "red")) as [->|?];
    [rewrite decide_True by done; split; intros [= <-]; done|].
  rewrite (decide_False (P := "red" = c)) by done.
  destruct (decide (c = "green")) as [->|?];
    [rewrite decide_True by done; split; intros [= <-]; done|].
  rewrite (decide_False (P := "green" = c)) by done.
  case_decide; naive_solver.
Qed.

Section checks.
Context (db : Db) (b : Board) (c : string) (s : gset string)
        (placed : list (Z * Z)).
Hypothesis Hboard : board_of (events (moves db)) b.
Hypothesis Hset : playerSets b !! c = Some s.

Lemma key_in_set q : keyOfCell q.1 q.2 ∈ s ↔ claims (moves db) q c.
Proof.
  rewrite (bo_sets _ _ Hboard c s Hset). split.
  - intros (p & Hp & E). apply keyOfCell_pair_inj in E as ->.
    by apply elem_of_events.
  - intros H. exists q. split; [by apply elem_of_events|done].
Qed.

Lemma key_occupied q :
  is_Some (occupied b !! keyOfCell q.1 q.2) ↔ q ∈ log_cells (moves db).
Proof.
  rewrite elem_of_log_cells. split.
  - intros [c' H]. destruct (bo_occ_sound _ _ Hboard _ _ H) as (p & Hp & E).
    apply keyOfCell_pair_inj in E as ->. exists c'. by apply elem_of_events.
  - intros [c' H%elem_of_events]. by eapply bo_occ_complete.
Qed.

Lemma overlap_check_false :
  existsb (λ p, bool_decide (is_Some (occupied b !! keyOfCell p.1 p.2))) placed = false
  ↔ overlap_free placed (moves db).
Proof.
  rewrite <- not_true_iff_false, existsb_exists. unfold overlap_free. split.
  - intros H p Hp Hin. apply H. exists p. rewrite <- list_elem_of_In.
    split; [done|]. by apply bool_decide_eq_true, key_occupied.
  - intros H (p & Hp%list_elem_of_In & Ho%bool_decide_eq_true).
    by apply (H p Hp), key_occupied.
Qed.

Lemma hasEdgeContact_true :
  hasEdgeContact placed s = true ↔ touches_edge placed c (moves db).
Proof.
  unfold hasEdgeContact, touches_edge. rewrite existsb_exists. split.
  - intros (p & Hp%list_elem_of_In & H). apply existsb_exists in H as (q & Hq & Hk).
    apply bool_decide_eq_true, key_in_set in Hk. exists p, q.
    split_and!; [done|done|]. unfold edge_adjacent.
    simpl in Hq. destruct Hq as [<-|[<-|[<-|[<-|[]]]]]; simpl; lia.
  - intros (p & q & Hp & Hq & Ha). exists p. rewrite <- list_elem_of_In.
    split; [done|]. apply existsb_exists. exists q. split.
    + destruct q as [q1 q2]. unfold edge_adjacent in Ha. simpl in *.
      destruct Ha as [[-> ->]|[[-> ->]|[[-> ->]|[-> ->]]]]; tauto.
    + by apply bool_decide_eq_true, key_in_set.
Qed.

Lemma hasCornerContact_true :
  hasCornerContact placed s = true ↔ touches_corner placed c (moves db).
Proof.
  unfold hasCornerContact, touches_corner. rewrite existsb_exists. split.
  - intros (p & Hp%list_elem_of_In & H). apply existsb_exists in H as (q & Hq & Hk).
    apply bool_decide_eq_true, key_in_set in Hk. exists p, q.
    split_and!; [done|done|]. unfold corner_adjacent.
    simpl in Hq. destruct Hq as [<-|[<-|[<-|[<-|[]]]]]; simpl; lia.
  - intros (p & q & Hp & Hq & Ha). exists p. rewrite <- list_elem_of_In.
    split; [done|]. apply existsb_exists. exists q. split.
    + destruct q as [q1 q2]. unfold corner_adjacent in Ha. simpl in *.
      destruct Ha as [[-> | ->] [-> | ->]]; tauto.
    + by apply bool_decide_eq_true, key_in_set.
Qed.

Lemma covers_corner_true (corner : Z * Z) :
  existsb (λ p, bool_decide (p.1 = corner.1) && bool_decide (p.2 = corner.2)) placed
  = true ↔ corner ∈ placed.
Proof.
  rewrite existsb_exists. split.
  - intros ([x y] & Hp%list_elem_of_In & [H1 H2]%andb_true_iff).
    apply bool_decide_eq_true in H1, H2. destruct corner. simpl in *. by subst.
  - intros H. exists corner. rewrite <- list_elem_of_In, andb_true_iff.
    rewrite !bool_decide_eq_true. done.
Qed.

Lemma validate_verdict :
  is_color c → verdict db c placed (validate db b c placed).
Proof.
  intros Hc. destruct (START_CORNERS_color c Hc) as [corner Hcorner].
  unfold validate.
  destruct (isWithinBoard placed (board_size (game db))) eqn:Eb; simpl.
  2:{ apply v_out_of_bounds. rewrite <- isWithinBoard_true. congruence. }
  apply isWithinBoard_true in Eb.
  destruct (existsb _ placed) eqn:Eo.
  { apply v_overlap; [done|]. rewrite <- overlap_check_false. congruence. }
  apply overlap_check_false in Eo.
  rewrite Hset, Hcorner.
  destruct (isFirstMove (moves db) c) eqn:Ef.
  - apply isFirstMove_true in Ef.
    destruct (existsb _ placed) eqn:Ec.
    + apply covers_corner_true in Ec.
      destruct (hasEdgeContact placed s) eqn:Ee.
      * apply hasEdgeContact_true in Ee as (p & q & _ & Hq & _).
        by apply first_move_no_claims in Hq.
      * by eapply v_first_ok.
    + eapply v_first_miss; eauto. rewrite <- covers_corner_true. congruence.
  - assert (¬ first_move_for c (moves db))
      by (rewrite <- isFirstMove_true; congruence).
    destruct (hasCornerContact placed s) eqn:Ec.
    + apply hasCornerContact_true in Ec.
      destruct (hasEdgeContact placed s) eqn:Ee.
      * apply hasEdgeContact_true in Ee. by apply v_edge.
      * apply v_ok; try done. rewrite <- hasEdgeContact_true. congruence.
    + apply v_no_corner; try done. rewrite <- hasCornerContact_true. congruence.
Qed.
End checks.

(** A request on turn reaches [validate], on the board of the log. *)
Lemma place_on_turn db rq shape position :
  on_turn db rq shape position →
  ∃ b s,
    foldM replay_move empty_board (moves db) = Some b
    ∧ board_of (events (moves db)) b
    ∧ playerSets b !! rq_player_color rq = Some s
    ∧ is_color (rq_player_color rq)
    ∧ place db rq =
        match validate db b (rq_player_color rq) (placed_cells shape rq position) with
        | inl (code, e) => (db, Error code e)
        | inr _ =>
            reply_state
              (append_move db
                 (placement_row rq (placed_cells shape rq position)
                    (Z.of_nat (length (moves db)) + 1)))
              failed_to_place
        end.
Proof.
  intros [Hp Hpos [st Hst] (current & Hi & Hc)].
  destruct (getGameState_inv _ _ Hst) as (b0 & Hb0 & Hg & Hpl & Hm & _).
  destruct (project_board _ _ Hb0) as (_ & b & Hb & Hsame).
  pose proof (replay_board _ _ Hb) as Hboard.
  assert (Hcol : is_color (rq_player_color rq)).
  { rewrite <- Hc. apply (getGameState_ok _ _ Hst). by apply index_Some in Hi as [_ ?]. }
  assert (is_Some (playerSets b !! rq_player_color rq)) as [s Hs].
  { apply elem_of_dom. rewrite (bo_dom _ _ Hboard). by apply elem_of_four_sets. }
  exists b, s. split_and!; try done.
  unfold place. rewrite Hp, Hpos, Hst, Hg, Hpl, Hm. simpl.
  rewrite Hi, decide_False by (by intros []). rewrite Hb. done.
Qed.

End ValidateFacts.

(** ** Invariants of the rows of a game *)

Module ReachFacts.
Import Geometry Catalog Server Props KeyFacts BoardFacts ProjectFacts StateFacts
       ValidateFacts GeometryFacts.

Lemma assoc_Some_elem {A} (l : list (string * A)) k v :
  assoc l k = Some v → (k, v) ∈ l.
Proof.
  induction l as [|[k' v'] l IH]; simpl; [done|].
  case_decide as E.
  - intros [= <-]. subst. apply list_elem_of_here.
  - intros H. apply list_elem_of_further. auto.
Qed.

Lemma js_get_Own {A} (l : list (string * A)) k v :
  js_get l k = Own v → assoc l k = Some v.
Proof.
  unfold js_get. destruct (assoc l k); [by intros [= ->]|]. by case_decide.
Qed.

Lemma PIECES_shapes : Forall (λ e, NoDup e.2 ∧ e.2 ≠ []) PIECES.
Proof. by apply (bool_decide_unpack _); vm_compute. Qed.

Lemma PIECES_shape k shape :
  js_get PIECES k = Own shape → NoDup shape ∧ shape ≠ [] ∧ assoc PIECES k = Some shape.
Proof.
  intros H%js_get_Own. pose proof (assoc_Some_elem _ _ _ H) as Hin.
  pose proof PIECES_shapes as Hall. rewrite Forall_forall in Hall.
  destruct (Hall _ Hin). done.
Qed.

(** What acceptance of a placement means, in terms of cells. *)
Lemma place_accepted db rq :
  (∃ code e, place db rq = (db, Error code e))
  ∨ (∃ shape position s',
       let placed := placed_cells shape rq position in
       let row := placement_row rq placed (Z.of_nat (length (moves db)) + 1) in
       let c := rq_player_color rq in
       on_turn db rq shape position
       ∧ is_color c
       ∧ in_bounds placed (board_size (game db))
       ∧ overlap_free placed (moves db)
       ∧ ((first_move_for c (moves db)
           ∧ ∃ corner, js_get START_CORNERS c = Own corner ∧ corner ∈ placed)
          ∨ (¬ first_move_for c (moves db)
             ∧ touches_corner placed c (moves db)
             ∧ ¬ touches_edge placed c (moves db)))
       ∧ getGameState (append_move db row) = Some s'
       ∧ place db rq = (append_move db row, Ok200 s')).
Proof.
  destruct (place_cases db rq)
    as [?|(shape & position & s & current & b & s' & Hp & Hpos & Hs & Hi & Hc & Hb & Hv & Hs' & Hpl)];
    [by left|right].
  exists shape, position, s'.
  assert (Hon : on_turn db rq shape position) by (split; eauto).
  destruct (place_on_turn _ _ _ _ Hon) as (b' & st & Hb' & Hboard & Hset & Hcol & _).
  assert (b' = b) as -> by congruence.
  pose proof (validate_verdict db b _ st (placed_cells shape rq position)
                Hboard Hset Hcol) as V.
  rewrite Hv in V. split_and!; try done; inversion V; eauto.
Qed.

Lemma wf_create colors : wf_db (createGame colors).
Proof.
  unfold createGame. split; simpl; try done.
  - destruct colors; done.
  - rewrite length_imap. destruct colors; simpl; lia.
  - intros m Hm. by apply elem_of_nil in Hm.
  - intros m Hm. by apply elem_of_nil in Hm.
  - intros m Hm. by apply elem_of_nil in Hm.
  - unfold log_cells, events. simpl. constructor.
Qed.

Lemma next_index_bound i n :
  0 <= i < n → 0 <= Z.rem (i + 1) n < n ∧ Z.rem (i + 1) n = (i + 1) `mod` n.
Proof.
  intros H. rewrite Z.rem_mod_nonneg by lia.
  split; [|done]. apply Z.mod_pos_bound. lia.
Qed.

Lemma turns_snoc (ms : list MoveRow) m :
  turn_number <$> ms = (λ i, Z.of_nat i + 1) <$> seq 0 (length ms) →
  turn_number m = Z.of_nat (length ms) + 1 →
  turn_number <$> (ms ++ [m])
  = (λ i, Z.of_nat i + 1) <$> seq 0 (length (ms ++ [m])).
Proof.
  intros H1 H2. rewrite length_app, Nat.add_1_r, seq_S, !fmap_app, H1. simpl.
  by rewrite H2.
Qed.

Lemma wf_append_pass db current :
  wf_db db → current ∈ players db →
  wf_db (append_move db (pass_row (color current) (Z.of_nat (length (moves db)) + 1))).
Proof.
  intros [H1 H2 H3 H4 H5 H6 H7 H8 H9] Hin. split; simpl; try done.
  - by apply next_index_bound.
  - by apply turns_snoc.
  - intros m [Hm|Hm%list_elem_of_singleton]%elem_of_app; [auto|by subst].
  - intros m [Hm|Hm%list_elem_of_singleton]%elem_of_app; [auto|by subst].
  - intros m [Hm|Hm%list_elem_of_singleton]%elem_of_app; [auto|subst; eauto].
  - rewrite log_cells_app, log_cells_single. simpl. by rewrite app_nil_r.
Qed.

Lemma wf_append_placement db rq shape position :
  let placed := placed_cells shape rq position in
  wf_db db → on_turn db rq shape position →
  is_color (rq_player_color rq) →
  in_bounds placed (board_size (game db)) → overlap_free placed (moves db) →
  wf_db (append_move db
           (placement_row rq placed (Z.of_nat (length (moves db)) + 1))).
Proof.
  intros placed [H1 H2 H3 H4 H5 H6 H7 H8 H9] [Hp Hpos Hst (cur & Hi & Hc)]
         Hcol Hb Ho.
  destruct (PIECES_shape _ _ Hp) as (Hnd & Hne & Ha).
  apply index_Some in Hi as [_ Hin].
  split; simpl; try done.
  - by apply next_index_bound.
  - by apply turns_snoc.
  - intros m [Hm|Hm%list_elem_of_singleton]%elem_of_app; [auto|by subst].
  - intros m [Hm|Hm%list_elem_of_singleton]%elem_of_app; [auto|].
    intros _. subst m. simpl. exists placed, (rq_piece_key rq), shape.
    split_and!; try done.
    + apply placed_length.
    + rewrite <- H1. apply Hb.
  - intros m [Hm|Hm%list_elem_of_singleton]%elem_of_app; [auto|subst; eauto].
  - rewrite log_cells_app, log_cells_single. simpl.
    apply NoDup_app. split_and!; [done| |by apply placed_NoDup].
    intros p Hp1 Hp2. by apply (Ho p).
Qed.

Lemma wf_place db rq : wf_db db → wf_db (place db rq).1.
Proof.
  intros Hwf.
  destruct (place_accepted db rq)
    as [(code & e & ->)|(shape & position & s' & Hon & Hc & Hb & Ho & _ & _ & ->)];
    [done|].
  by apply wf_append_placement.
Qed.

Lemma wf_skip db c : wf_db db → wf_db (skip db c).1.
Proof.
  intros Hwf.
  destruct (skip_cases db c)
    as [(code & e & ->)|(s & current & s' & _ & Hi & <- & _ & ->)]; [done|].
  apply wf_append_pass; [done|]. by apply index_Some in Hi as [_ ?].
Qed.

Lemma reachable_wf db : reachable db → wf_db db.
Proof.
  induction 1; [apply wf_create | by apply wf_place | by apply wf_skip].
Qed.

(** The move rows come back from [ORDER BY turn_number] in the order they were
    inserted: their turn numbers are 1, 2, ..., n. *)
Lemma reachable_turn_numbers db :
  reachable db →
  turn_number <$> moves db = (λ i, Z.of_nat i + 1) <$> seq 0 (length (moves db)).
Proof. intros H. apply (wf_turns _ (reachable_wf _ H)). Qed.

(** In the rows of a game, every placement row has one of the four colours. *)
Lemma wf_moves_ok db : wf_db db → moves_ok (moves db).
Proof.
  intros Hwf m Hm [cs Hcs]. unfold placement_cells in Hcs.
  destruct (passed m) eqn:E; [done|].
  destruct (wf_placement _ Hwf m Hm E) as (? & ? & ? & _ & _ & _ & _ & Hc & _).
  done.
Qed.

(** The state of a game can be read when its players have the four
    colours (or some of them). *)
Lemma reachable_readable db :
  reachable db → colors_ok (players db) → is_Some (getGameState db).
Proof.
  intros Hr Hc. apply getGameState_is_Some; [|done].
  by apply wf_moves_ok, reachable_wf.
Qed.

(** A rejected request leaves the rows as they were. *)
Lemma place_rejected_unchanged db rq code e :
  (place db rq).2 = Error code e → (place db rq).1 = db.
Proof.
  destruct (place_cases db rq)
    as [(code' & e' & ->)|(? & ? & ? & ? & ? & ? & _ & _ & _ & _ & _ & _ & _ & _ & ->)];
    [done|by simpl].
Qed.

Lemma skip_rejected_unchanged db c code e :
  (skip db c).2 = Error code e → (skip db c).1 = db.
Proof.
  destruct (skip_cases db c)
    as [(code' & e' & ->)|(? & ? & ? & _ & _ & _ & _ & ->)]; [done|by simpl].
Qed.

End ReachFacts.

(** ** Requests by the player on turn *)

Module TurnFacts.
Import Geometry Catalog Server Props Examples KeyFacts BoardFacts ProjectFacts
       StateFacts ValidateFacts ReachFacts GeometryFacts.

Lemma NoDup_snd_unique {A B} (l : list (A * B)) a1 a2 b :
  NoDup (l.*2) → (a1, b) ∈ l → (a2, b) ∈ l → a1 = a2.
Proof.
  induction l as [|[a' b'] l IH]; simpl.
  - intros _ H. by apply elem_of_nil in H.
  - intros [Hnin Hnd]%NoDup_cons H1 H2.
    apply elem_of_cons in H1 as [E1|H1];
      apply elem_of_cons in H2 as [E2|H2]; simplify_eq; auto.
    + destruct Hnin. apply list_elem_of_fmap. by exists (a2, b').
    + destruct Hnin. apply list_elem_of_fmap. by exists (a1, b').
Qed.

Lemma claims_unique ms p c1 c2 :
  NoDup (log_cells ms) → claims ms p c1 → claims ms p c2 → c1 = c2.
Proof.
  intros Hnd H1%elem_of_events H2%elem_of_events.
  by eapply NoDup_snd_unique.
Qed.

(** A pass by the player on turn goes through. *)
Lemma skip_on_turn db s current :
  getGameState db = Some s →
  index (players db) (next_player_index (game db)) = Some current →
  ∃ s', getGameState
          (append_move db (pass_row (color current)
                             (Z.of_nat (length (moves db)) + 1))) = Some s'
        ∧ skip db (color current)
          = (append_move db (pass_row (color current)
                               (Z.of_nat (length (moves db)) + 1)),
             Ok200 s').
Proof.
  intros Hs Hi.
  destruct (getGameState_append db s current
              (pass_row (color current) (Z.of_nat (length (moves db)) + 1)) Hs)
    as [s' Hs']; [by apply index_Some in Hi as [_ ?] | done |].
  exists s'. split; [done|].
  destruct (getGameState_inv _ _ Hs) as (b & _ & Hg & Hp & Hm & _).
  unfold skip. rewrite Hs, Hg, Hp, Hm. simpl. rewrite Hi.
  rewrite decide_False by (by intros []).
  unfold reply_state. by rewrite Hs'.
Qed.

(** A placement by the player on turn gets the verdict of the validator. *)
Lemma place_verdict db rq shape position :
  let placed := placed_cells shape rq position in
  let row := placement_row rq placed (Z.of_nat (length (moves db)) + 1) in
  on_turn db rq shape position →
  ∃ v, verdict db (rq_player_color rq) placed v
       ∧ match v with
         | inl (code, e) => place db rq = (db, Error code e)
         | inr _ => ∃ s', getGameState (append_move db row) = Some s'
                          ∧ place db rq = (append_move db row, Ok200 s')
         end.
Proof.
  intros placed row Hon.
  destruct (place_on_turn _ _ _ _ Hon) as (b & st & Hb & Hboard & Hset & Hcol & Hpl).
  exists (validate db b (rq_player_color rq) placed). split.
  { by eapply validate_verdict. }
  fold placed in Hpl. fold row in Hpl.
  destruct (validate db b (rq_player_color rq) placed) as [[code e]|[]]; [done|].
  destruct Hon as [_ _ [s Hs] (current & Hi & Hc)].
  destruct (getGameState_append db s current row Hs) as [s' Hs'];
    [by apply index_Some in Hi as [_ ?] | done |].
  exists s'. split; [done|]. rewrite Hpl. unfold reply_state. by rewrite Hs'.
Qed.

Lemma accepted_place db rq :
  accepted (place db rq).2 = true →
  ∃ shape position s',
    let placed := placed_cells shape rq position in
    let row := placement_row rq placed (Z.of_nat (length (moves db)) + 1) in
    let c := rq_player_color rq in
    on_turn db rq shape position
    ∧ in_bounds placed (board_size (game db))
    ∧ overlap_free placed (moves db)
    ∧ ((first_move_for c (moves db)
        ∧ ∃ corner, js_get START_CORNERS c = Own corner ∧ corner ∈ placed)
       ∨ (¬ first_move_for c (moves db)
          ∧ touches_corner placed c (moves db)
          ∧ ¬ touches_edge placed c (moves db)))
    ∧ getGameState (append_move db row) = Some s'
    ∧ place db rq = (append_move db row, Ok200 s').
Proof.
  destruct (place_accepted db rq)
    as [(code & e & ->)|(shape & position & s' & H)]; [done|].
  intros _. exists shape, position, s'. simpl in *. tauto.
Qed.

Lemma accepted_skip db c :
  accepted (skip db c).2 = true →
  ∃ s current s',
    getGameState db = Some s
    ∧ index (players db) (next_player_index (game db)) = Some current
    ∧ color current = c
    ∧ getGameState
        (append_move db (pass_row c (Z.of_nat (length (moves db)) + 1))) = Some s'
    ∧ skip db c
      = (append_move db (pass_row c (Z.of_nat (length (moves db)) + 1)), Ok200 s').
Proof.
  destruct (skip_cases db c) as [(code & e & ->)|H]; [done|]. by intros _.
Qed.

(** The cell-level predicates are decidable: list forms. *)
Lemma overlap_free_Forall cs ms :
  overlap_free cs ms ↔ Forall (λ p, p ∉ log_cells ms) cs.
Proof. unfold overlap_free. by rewrite Forall_forall. Qed.

Lemma touches_edge_Exists cs c ms :
  touches_edge cs c ms
  ↔ Exists (λ p, Exists (λ q, edge_adjacent p q) (cells_of c ms)) cs.
Proof.
  unfold touches_edge. rewrite Exists_exists. split.
  - intros (p & q & Hp & Hq & Ha). exists p. split; [done|].
    apply Exists_exists. exists q. by rewrite elem_of_cells_of.
  - intros (p & Hp & (q & Hq & Ha)%Exists_exists).
    exists p, q. by rewrite <- elem_of_cells_of.
Qed.

Lemma touches_corner_Exists cs c ms :
  touches_corner cs c ms
  ↔ Exists (λ p, Exists (λ q, corner_adjacent p q) (cells_of c ms)) cs.
Proof.
  unfold touches_corner. rewrite Exists_exists. split.
  - intros (p & q & Hp & Hq & Ha). exists p. split; [done|].
    apply Exists_exists. exists q. by rewrite elem_of_cells_of.
  - intros (p & Hp & (q & Hq & Ha)%Exists_exists).
    exists p, q. by rewrite <- elem_of_cells_of.
Qed.

Lemma reachable_run db rs : reachable db → reachable (run db rs).
Proof.
  revert db. induction rs as [|r rs IH]; intros db H; [done|].
  simpl. apply IH. destruct r; simpl; by constructor.
Qed.

Lemma reachable_new_game : reachable new_game.
Proof. apply reach_create. Qed.

(** [everyonePassed], in terms of the last rows of the log. *)
Lemma everyonePassed_true db :
  players db ≠ [] →
  everyonePassed db = true
  ↔ (length (players db) <= length (moves db))%nat
    ∧ Forall (λ m, passed m = true)
        (drop (length (moves db) - length (players db)) (moves db)).
Proof.
  intros Hne. unfold everyonePassed, slice_last.
  destruct (length (players db)) as [|n] eqn:En.
  { by destruct (players db). }
  rewrite andb_true_iff, bool_decide_eq_true, length_drop.
  rewrite forallb_forall, Forall_forall.
  setoid_rewrite list_elem_of_In. split; intros [H1 H2]; (split; [lia|done]).
Qed.

Lemma filter_none {A} (P : A → Prop) `{∀ x, Decision (P x)} (l : list A) :
  (∀ x, x ∈ l → ¬ P x) → filter P l = [].
Proof.
  induction l as [|x l IH]; intros Hall; [done|].
  rewrite filter_cons_False by (apply Hall, list_elem_of_here).
  apply IH. intros y Hy. apply Hall. by apply list_elem_of_further.
Qed.

(** A colour that has used every catalog piece scores 20. *)
Lemma score_of_all_used (used : gset string) :
  (∀ k, k ∈ pieceKeys → k ∈ used) → score_of used = 20.
Proof.
  intros Hall. unfold score_of.
  assert (remPieces used = []) as ->.
  { apply filter_none. intros k Hk Hn. by apply Hn, Hall. }
  simpl. rewrite decide_True; [done|]. split; [|done].
  apply Hall. by apply (bool_decide_unpack _); vm_compute.
Qed.

(** After an accepted pass in a finished game the game is still finished. *)
Lemma everyonePassed_pass db c t :
  players db ≠ [] → everyonePassed db = true →
  everyonePassed (append_move db (pass_row c t)) = true.
Proof.
  intros Hne. rewrite !everyonePassed_true by done. simpl.
  rewrite length_app. simpl. intros [Hle Hall].
  assert (0 < length (players db))%nat by (destruct (players db); simpl; [done|lia]).
  split; [lia|].
  rewrite drop_app_le by lia. apply Forall_app. split; [|by repeat constructor].
  replace (length (moves db) + 1 - length (players db))%nat
    with ((length (moves db) - length (players db)) + 1)%nat by lia.
  rewrite <- drop_drop. by apply Forall_drop.
Qed.

(** After an accepted placement the last move is not a pass. *)
Lemma everyonePassed_placement db rq placed t :
  players db ≠ [] →
  everyonePassed (append_move db (placement_row rq placed t)) = false.
Proof.
  intros Hne. apply not_true_iff_false.
  rewrite everyonePassed_true by done. simpl.
  rewrite length_app. simpl. intros [Hle Hall].
  assert (0 < length (players db))%nat by (destruct (players db); simpl; [done|lia]).
  rewrite drop_app_le in Hall by lia.
  apply Forall_app in Hall as [_ Hlast].
  rewrite Forall_singleton in Hlast. simpl in Hlast. discriminate Hlast.
Qed.

End TurnFacts.

(** ** The claims of the specification *)

Module Claims.
Import Geometry Catalog Client Server Props Examples KeyFacts BoardFacts
       ProjectFacts StateFacts ValidateFacts ReachFacts GeometryFacts TurnFacts.

(** *** Geometry and catalog *)

(** C4. For every shape, every integer rotation [r] (negative ones
    included) and flip flag, [transformShape] mirrors first when flipped
    ((x,y) -> (-x,y)), then applies the quarter turn (x,y) -> (y,-x) exactly
    [((r mod 4) + 4) mod 4] times (which is [r mod 4], a number in 0..3),
    then subtracts the least x and the least y of the cells; on a non-empty
    shape the result has least x = 0 and least y = 0, so the minimum corner
    of its bounding box is (0,0). *)
Theorem C4_transform_pipeline (shape : list (Z * Z)) (r : Z) (flipped : bool) :
  let n := Z.to_nat (((r `mod` 4) + 4) `mod` 4) in
  let turned := flip_then_rotate shape n flipped in
  rotate_times r = ((r `mod` 4) + 4) `mod` 4
  ∧ 0 <= rotate_times r < 4
  ∧ length (transformShape shape r flipped) = length shape
  ∧ (shape ≠ [] →
     ∃ mx my,
       is_min mx (fst <$> turned) ∧ is_min my (snd <$> turned)
       ∧ transformShape shape r flipped = (λ p, (p.1 - mx, p.2 - my)) <$> turned
       ∧ is_min 0 (fst <$> transformShape shape r flipped)
       ∧ is_min 0 (snd <$> transformShape shape r flipped)).
Proof.
  intros n turned.
  assert (Hn : ((r `mod` 4) + 4) `mod` 4 = r `mod` 4).
  { rewrite <- (Zplus_mod_idemp_r 4 (r `mod` 4) 4).
    change (4 `mod` 4) with 0. rewrite Z.add_0_r. apply Z.mod_mod. lia. }
  split; [|split; [|split]].
  - by rewrite rotate_times_mod, Hn.
  - apply rotate_times_bound.
  - pose proof (placed_length shape r flipped 0 0) as H.
    unfold translate in H. by rewrite length_fmap in H.
  - intros Hne. unfold transformShape. rewrite transformShape_pipeline.
    subst turned n. rewrite Hn.
    set (cs := flip_then_rotate shape (Z.to_nat (r `mod` 4)) flipped).
    assert (Hcs : cs ≠ []).
    { unfold cs, flip_then_rotate. destruct shape; [done|]. by destruct flipped. }
    destruct (normalize_spec cs Hcs) as (mx & my & Hx & Hy & ->).
    exists mx, my. split_and!; try done.
    + assert (((λ p : Z * Z, (p.1 - mx, p.2 - my)) <$> cs).*1
              = (λ x, x - mx) <$> cs.*1) as ->
        by (rewrite <- !list_fmap_compose; by apply list_fmap_ext).
      replace 0 with (mx - mx) by lia. by apply is_min_shift.
    + assert (((λ p : Z * Z, (p.1 - mx, p.2 - my)) <$> cs).*2
              = (λ y, y - my) <$> cs.*2) as ->
        by (rewrite <- !list_fmap_compose; by apply list_fmap_ext).
      replace 0 with (my - my) by lia. by apply is_min_shift.
Qed.

(** The flipped F pentomino turned by -1 (three quarter turns). *)
Lemma C4_transform_witness :
  let shape := [(1,0);(0,1);(1,1);(1,2);(2,2)] in
  let turned := flip_then_rotate shape 3 true in
  ∃ mx my,
    is_min mx (fst <$> turned) ∧ is_min my (snd <$> turned)
    ∧ transformShape shape (-1) true = (λ p, (p.1 - mx, p.2 - my)) <$> turned
    ∧ is_min 0 (fst <$> transformShape shape (-1) true)
    ∧ is_min 0 (snd <$> transformShape shape (-1) true).
Proof.
  apply (C4_transform_pipeline [(1,0);(0,1);(1,1);(1,2);(2,2)] (-1) true).
  discriminate.
Defined.

(** C9, as the specification states it, fails: the X and the F pentomino
    have all coordinates non-negative but do not contain the cell (0,0). *)
Lemma C9_catalog_counterexample :
  assoc PIECES "X5" = Some [(1,0);(0,1);(1,1);(2,1);(1,2)]
  ∧ ((0,0) ∉ [(1,0);(0,1);(1,1);(2,1);(1,2)])
  ∧ assoc PIECES "F5" = Some [(1,0);(0,1);(1,1);(1,2);(2,2)]
  ∧ ((0,0) ∉ [(1,0);(0,1);(1,1);(1,2);(2,2)])
  ∧ ¬ (∀ k shape, assoc PIECES k = Some shape → (0,0) ∈ shape).
Proof.
  split_and!; try done.
  - by apply (bool_decide_unpack _); vm_compute.
  - by apply (bool_decide_unpack _); vm_compute.
  - intros H. specialize (H "X5" _ eq_refl). revert H.
    by apply (bool_decide_unpack _); vm_compute.
Qed.

(** C9, amended. The catalog is a fixed table of exactly 21 entries with
    distinct keys, whose sizes are 1 to 5 (one of size 1, one of size 2, two
    of size 3, five of size 4, twelve of size 5); every entry is normalized:
    all coordinates are non-negative and the least x and the least y are 0
    (the minimum corner of the bounding box is (0,0)); the entry contains the
    cell (0,0) itself except for [X5] and [F5]. *)
Theorem C9_catalog_normalized :
  length PIECES = 21%nat
  ∧ NoDup pieceKeys
  ∧ (count_size 1 = 1 ∧ count_size 2 = 1 ∧ count_size 3 = 2
     ∧ count_size 4 = 5 ∧ count_size 5 = 12)%nat
  ∧ Forall (λ e, (1 <= length e.2 <= 5)%nat
                 ∧ NoDup e.2
                 ∧ Forall (λ p, 0 <= p.1 ∧ 0 <= p.2) e.2
                 ∧ is_min 0 (e.2.*1) ∧ is_min 0 (e.2.*2)
                 ∧ ((0,0) ∈ e.2 ↔ e.1 ≠ "X5" ∧ e.1 ≠ "F5")) PIECES.
Proof.
  split_and!; try done.
  - by apply (bool_decide_unpack _); vm_compute.
  - unfold PIECES.
    repeat (apply Forall_cons; split;
      [ simpl; split_and!;
        [ lia | lia
        | by apply (bool_decide_unpack _); vm_compute
        | by apply (bool_decide_unpack _); vm_compute
        | split; [set_solver | intros x Hx; set_unfold; lia]
        | split; [set_solver | intros x Hx; set_unfold; lia]
        | split;
          [ intros H; first [ by split | exfalso; revert H;
                                by apply (bool_decide_unpack _); vm_compute ]
          | intros [H1 H2]; first [ done | set_solver ] ] ]
      | ]).
    apply Forall_nil_2.
Qed.

(** C10 requires the client's [cornerFor] and the server's [START_CORNERS]
    to agree on every colour, so that the preview agrees with the server on
    a first move. They agree on blue and yellow and exchange red and green:
    the client starts red at (19,19) and green at (0,19), the server red at
    (0,19) and green at (19,19). With red on turn and nothing placed, the
    preview [canPlaceLocal] approves red's monomino on (19,19), which the
    server rejects with [first_move_must_cover_corner], and refuses it on
    (0,19), where the server accepts it. *)
Theorem C10_corner_tables_differ :
  cornerFor "blue" = Some (0, 0) ∧ js_get START_CORNERS "blue" = Own (0, 0)
  ∧ cornerFor "yellow" = Some (19, 0) ∧ js_get START_CORNERS "yellow" = Own (19, 0)
  ∧ cornerFor "red" = Some (19, 19) ∧ js_get START_CORNERS "red" = Own (0, 19)
  ∧ cornerFor "green" = Some (0, 19) ∧ js_get START_CORNERS "green" = Own (19, 19)
  ∧ canPlaceLocal (Some [(0,0)]) 0 false (Some (19, 19)) "red"
      (boardOccupancy (moves red_to_move)) = Some true
  ∧ place red_to_move (request "red" "I1" 0 false 19 19)
    = (red_to_move, Error 400 first_move_must_cover_corner)
  ∧ canPlaceLocal (Some [(0,0)]) 0 false (Some (0, 19)) "red"
      (boardOccupancy (moves red_to_move)) = Some false
  ∧ accepted (place red_to_move (request "red" "I1" 0 false 0 19)).2 = true.
Proof. split_and!; by vm_compute. Qed.

(** *** The placement validator *)

(** C1. In the rows of every game (all moves having been accepted by the
    handlers), no cell is claimed twice: the cells of all placements, listed
    with repetition, are pairwise distinct, so a cell is claimed for at most
    one colour; the occupancy projected by [getGameState] maps the key of a
    cell to a colour exactly when a placement of that colour claims the cell;
    and a request on turn whose cells are on the board and one of which is
    already claimed (by any colour) is rejected with [overlap], the rows
    unchanged. *)
Theorem C1_no_cell_claimed_twice db :
  reachable db →
  NoDup (log_cells (moves db))
  ∧ (∀ p c1 c2, claims (moves db) p c1 → claims (moves db) p c2 → c1 = c2)
  ∧ (∃ b, foldM project_move empty_board (moves db) = Some b
          ∧ ∀ p c, occupied b !! keyOfCell p.1 p.2 = Some c
                   ↔ claims (moves db) p c)
  ∧ (∀ rq shape position,
       on_turn db rq shape position →
       in_bounds (placed_cells shape rq position) (board_size (game db)) →
       (∃ p, p ∈ placed_cells shape rq position ∧ p ∈ log_cells (moves db)) →
       place db rq = (db, Error 400 overlap)).
Proof.
  intros Hr. pose proof (reachable_wf _ Hr) as Hwf.
  pose proof (wf_nodup _ Hwf) as Hnd.
  split; [done|]. split; [intros p c1 c2; by apply claims_unique|]. split.
  - destruct (project_total (moves db) empty_board (wf_moves_ok _ Hwf))
      as [b Hb]; [done|done|].
    exists b. split; [done|].
    destruct (project_board _ _ Hb) as [Hboard _].
    intros p c. split.
    + intros H. destruct (bo_occ_sound _ _ Hboard _ _ H) as (q & Hq & E).
      apply keyOfCell_pair_inj in E as ->. by apply elem_of_events.
    + intros H. pose proof H as He. apply elem_of_events in He.
      destruct (bo_occ_complete _ _ Hboard _ _ He) as [c' Hc']. rewrite Hc'.
      f_equal. destruct (bo_occ_sound _ _ Hboard _ _ Hc') as (q & Hq & E).
      apply keyOfCell_pair_inj in E as ->. apply elem_of_events in Hq.
      by eapply claims_unique.
  - intros rq shape position Hon Hb (p & Hp & Hin).
    destruct (place_verdict _ _ _ _ Hon) as (v & V & Hpl).
    assert (Hno : ¬ overlap_free (placed_cells shape rq position) (moves db)).
    { intros Ho. by apply (Ho p). }
    destruct V; done.
Qed.

Lemma C1_no_cell_claimed_twice_witness :
  reachable one_blue ∧ NoDup (log_cells (moves one_blue)).
Proof.
  assert (H : reachable one_blue) by apply reachable_run, reach_create.
  split; [exact H|]. apply (C1_no_cell_claimed_twice one_blue H).
Defined.

(** C2, as the specification states it, fails. After blue's monomino on
    (0,0), blue's domino on (1,0),(2,0) is a non-first placement that is
    edge-adjacent to a blue cell and diagonal to none: the handler rejects it
    with [must_touch_same_color_corner], not with
    [cannot_touch_same_color_edge]. *)
Lemma C2_edge_before_corner_counterexample :
  reachable one_blue
  ∧ on_turn one_blue beside [(0,0);(1,0)] (1,0)
  ∧ placed_cells [(0,0);(1,0)] beside (1,0) = [(1,0);(2,0)]
  ∧ ¬ first_move_for "blue" (moves one_blue)
  ∧ touches_edge [(1,0);(2,0)] "blue" (moves one_blue)
  ∧ ¬ touches_corner [(1,0);(2,0)] "blue" (moves one_blue)
  ∧ place one_blue beside = (one_blue, Error 400 must_touch_same_color_corner)
  ∧ (place one_blue beside).2 ≠ Error 400 cannot_touch_same_color_edge.
Proof.
  assert (Hpl : place one_blue beside
                = (one_blue, Error 400 must_touch_same_color_corner))
    by (vm_compute; reflexivity).
  split_and!.
  - apply reachable_run, reach_create.
  - split.
    + done.
    + done.
    + by apply (bool_decide_unpack _); vm_compute.
    + exists {| color := "blue"; order_index := 0 |}. split; [|done].
      vm_compute. reflexivity.
  - done.
  - rewrite <- isFirstMove_true. by vm_compute.
  - apply touches_edge_Exists, (bool_decide_unpack _). by vm_compute.
  - rewrite touches_corner_Exists. apply (bool_decide_unpack _). by vm_compute.
  - exact Hpl.
  - rewrite Hpl. cbv [snd]. discriminate.
Qed.

(** C2, amended. The corner / first-move rule is checked before the
    edge-adjacency prohibition. A non-first placement by the player on turn,
    on the board and overlap-free, that is diagonal to no cell of its colour
    is rejected with [must_touch_same_color_corner], whether or not it is
    edge-adjacent to one; one that is diagonal to a cell of its colour and
    edge-adjacent to one is rejected with [cannot_touch_same_color_edge]; one
    that is diagonal to a cell of its colour and edge-adjacent to none is
    accepted. *)
Theorem C2_corner_rule_before_edge_rule db rq shape position :
  let placed := placed_cells shape rq position in
  let c := rq_player_color rq in
  on_turn db rq shape position →
  in_bounds placed (board_size (game db)) →
  overlap_free placed (moves db) →
  ¬ first_move_for c (moves db) →
  (¬ touches_corner placed c (moves db) →
     place db rq = (db, Error 400 must_touch_same_color_corner))
  ∧ (touches_corner placed c (moves db) → touches_edge placed c (moves db) →
     place db rq = (db, Error 400 cannot_touch_same_color_edge))
  ∧ (touches_corner placed c (moves db) → ¬ touches_edge placed c (moves db) →
     ∃ s', place db rq
           = (append_move db
                (placement_row rq placed (Z.of_nat (length (moves db)) + 1)),
              Ok200 s')).
Proof.
  intros placed c Hon Hb Ho Hnf.
  destruct (place_verdict _ _ _ _ Hon) as (v & V & Hpl).
  fold placed in V, Hpl. fold c in V.
  destruct V; simpl in Hpl; try tauto.
  destruct Hpl as (s' & _ & Hpl).
  split_and!; intros; first [by exists s' | tauto].
Qed.

Lemma C2_corner_rule_before_edge_rule_witness :
  place one_blue beside = (one_blue, Error 400 must_touch_same_color_corner)
  ∧ place one_blue beside_upright
    = (one_blue, Error 400 cannot_touch_same_color_edge).
Proof.
  assert (Hturn : ∃ current,
            index (players one_blue) (next_player_index (game one_blue))
            = Some current ∧ color current = "blue").
  { exists {| color := "blue"; order_index := 0 |}. split; [|done].
    vm_compute. reflexivity. }
  assert (Hst : is_Some (getGameState one_blue))
    by (by apply (bool_decide_unpack _); vm_compute).
  assert (Hnf : ¬ first_move_for "blue" (moves one_blue))
    by (rewrite <- isFirstMove_true; by vm_compute).
  split.
  - apply (C2_corner_rule_before_edge_rule one_blue beside [(0,0);(1,0)] (1,0)).
    + by split.
    + apply isWithinBoard_true. vm_compute. reflexivity.
    + apply overlap_free_Forall, (bool_decide_unpack _). by vm_compute.
    + exact Hnf.
    + rewrite touches_corner_Exists. apply (bool_decide_unpack _). by vm_compute.
  - apply (C2_corner_rule_before_edge_rule one_blue beside_upright
             [(0,0);(1,0)] (1,0)).
    + by split.
    + apply isWithinBoard_true. vm_compute. reflexivity.
    + apply overlap_free_Forall, (bool_decide_unpack _). by vm_compute.
    + exact Hnf.
    + apply touches_corner_Exists, (bool_decide_unpack _). by vm_compute.
    + apply touches_edge_Exists, (bool_decide_unpack _). by vm_compute.
Defined.

(** C3. For a colour with no non-pass move in the log so far, a placement
    is accepted only if one of its cells is that colour's starting corner
    (blue (0,0), yellow (boardSize-1,0), red (0,boardSize-1), green
    (boardSize-1,boardSize-1)); a request on turn, on the board and
    overlap-free, is rejected with [first_move_must_cover_corner] when it
    misses the corner and accepted when it covers it; in particular blue's
    first placement covering (0,0) is accepted. *)
Theorem C3_first_move_covers_corner db rq :
  let c := rq_player_color rq in
  let size := board_size (game db) in
  reachable db →
  first_move_for c (moves db) →
  (accepted (place db rq).2 = true →
     ∃ shape position corner,
       on_turn db rq shape position
       ∧ starting_corner size c = Some corner
       ∧ corner ∈ placed_cells shape rq position)
  ∧ (∀ shape position,
       let placed := placed_cells shape rq position in
       on_turn db rq shape position →
       in_bounds placed size → overlap_free placed (moves db) →
       ∃ corner,
         starting_corner size c = Some corner
         ∧ (corner ∉ placed →
            place db rq = (db, Error 400 first_move_must_cover_corner))
         ∧ (corner ∈ placed →
            ∃ s', place db rq
                  = (append_move db
                       (placement_row rq placed
                          (Z.of_nat (length (moves db)) + 1)),
                     Ok200 s')))
  ∧ (∀ shape position,
       let placed := placed_cells shape rq position in
       c = "blue" →
       on_turn db rq shape position →
       in_bounds placed size → overlap_free placed (moves db) →
       (0, 0) ∈ placed →
       accepted (place db rq).2 = true).
Proof.
  intros c size Hr Hfirst. pose proof (reachable_wf _ Hr) as Hwf.
  assert (Hsize : size = 20) by apply (wf_size _ Hwf).
  assert (Hmain : ∀ shape position,
    let placed := placed_cells shape rq position in
    on_turn db rq shape position →
    in_bounds placed size → overlap_free placed (moves db) →
    ∃ corner,
      starting_corner size c = Some corner
      ∧ (corner ∉ placed →
         place db rq = (db, Error 400 first_move_must_cover_corner))
      ∧ (corner ∈ placed →
         ∃ s', place db rq
               = (append_move db
                    (placement_row rq placed (Z.of_nat (length (moves db)) + 1)),
                  Ok200 s'))).
  { intros shape position placed Hon Hb Ho.
    destruct (place_verdict _ _ _ _ Hon) as (v & V & Hpl).
    fold placed in V, Hpl. fold c in V.
    destruct V as [| |corner ? ? ? Hcorner Hmiss|corner ? ? ? Hcorner Hin| | |];
      simpl in Hpl; try tauto.
    - exists corner. rewrite Hsize, <- START_CORNERS_spec.
      split_and!; [done|done|tauto].
    - exists corner. rewrite Hsize, <- START_CORNERS_spec.
      destruct Hpl as (s' & _ & Hpl).
      split_and!; [done|tauto|by exists s']. }
  split_and!.
  - intros (shape & position & s' & Hon & _ & _ & Hrule & _)%accepted_place.
    destruct Hrule as [(_ & corner & Hc & Hin)|[Hnf _]]; [|tauto].
    exists shape, position, corner. split_and!; [done| |done].
    rewrite Hsize. by apply START_CORNERS_spec.
  - exact Hmain.
  - intros shape position placed Hblue Hon Hb Ho Hin.
    destruct (Hmain shape position Hon Hb Ho) as (corner & Hc & _ & Hok).
    rewrite Hblue in Hc. injection Hc as <-.
    destruct (Hok Hin) as (s' & ->). done.
Qed.

(** Blue opens a new game with the monomino on (0,0). *)
Lemma C3_first_move_covers_corner_witness :
  reachable new_game
  ∧ first_move_for "blue" (moves new_game)
  ∧ accepted (place new_game (request "blue" "I1" 0 false 0 0)).2 = true.
Proof.
  assert (Hr : reachable new_game) by apply reach_create.
  assert (Hf : first_move_for "blue" (moves new_game)).
  { intros m Hm. by apply elem_of_nil in Hm. }
  split_and!; [exact Hr|exact Hf|].
  destruct (C3_first_move_covers_corner new_game
              (request "blue" "I1" 0 false 0 0) Hr Hf) as (_ & _ & H3).
  apply (H3 [(0,0)] (0,0)).
  - reflexivity.
  - split.
    + reflexivity.
    + reflexivity.
    + by apply (bool_decide_unpack _); vm_compute.
    + exists {| color := "blue"; order_index := 0 |}. split; reflexivity.
  - apply isWithinBoard_true. vm_compute. reflexivity.
  - intros p _ Hp. by apply elem_of_nil in Hp.
  - apply (bool_decide_unpack _). by vm_compute.
Defined.

(** *** Turn order and end of game *)

(** C5. After every accepted move, placement or pass, the stored
    [next_player_index] (and the one in the state returned) is the previous
    index plus one modulo the number of players; with four players, index 0
    becomes 1 and index 3 wraps to 0. *)
Theorem C5_turn_pointer_advances db :
  let n := Z.of_nat (length (players db)) in
  let i := next_player_index (game db) in
  (∀ rq, accepted (place db rq).2 = true →
     next_player_index (game (place db rq).1) = (i + 1) `mod` n
     ∧ (∀ s', (place db rq).2 = Ok200 s' →
              next_player_index (gs_game s') = (i + 1) `mod` n)
     ∧ (n = 4 → i = 0 → next_player_index (game (place db rq).1) = 1)
     ∧ (n = 4 → i = 3 → next_player_index (game (place db rq).1) = 0))
  ∧ (∀ c, accepted (skip db c).2 = true →
     next_player_index (game (skip db c).1) = (i + 1) `mod` n
     ∧ (∀ s', (skip db c).2 = Ok200 s' →
              next_player_index (gs_game s') = (i + 1) `mod` n)
     ∧ (n = 4 → i = 0 → next_player_index (game (skip db c).1) = 1)
     ∧ (n = 4 → i = 3 → next_player_index (game (skip db c).1) = 0)).
Proof.
  intros n i.
  assert (Hstep : ∀ m s' current,
    index (players db) i = Some current →
    getGameState (append_move db m) = Some s' →
    next_player_index (game (append_move db m)) = (i + 1) `mod` n
    ∧ next_player_index (gs_game s') = (i + 1) `mod` n).
  { intros m s' current [Hi _]%index_Some Hs'.
    destruct (getGameState_inv _ _ Hs') as (_ & _ & -> & _).
    simpl. fold n i. by destruct (next_index_bound i n Hi) as [_ ->]. }
  split.
  - intros rq (shape & position & s' & Hon & _ & _ & _ & Hs' & Hpl)%accepted_place.
    destruct Hon as [_ _ _ (current & Hi & _)].
    destruct (Hstep _ _ _ Hi Hs') as [H1 H2].
    rewrite Hpl. cbv [fst snd]. rewrite H1.
    split_and!; [done| | |].
    + by intros ? [= <-].
    + by intros -> ->.
    + by intros -> ->.
  - intros c (s & current & s' & _ & Hi & _ & Hs' & Hsk)%accepted_skip.
    destruct (Hstep _ _ _ Hi Hs') as [H1 H2].
    rewrite Hsk. cbv [fst snd]. rewrite H1.
    split_and!; [done| | |].
    + by intros ? [= <-].
    + by intros -> ->.
    + by intros -> ->.
Qed.

(** In a new four-player game blue's opening move hands the turn to index 1. *)
Lemma C5_turn_pointer_advances_witness :
  accepted (place new_game (request "blue" "I1" 0 false 0 0)).2 = true
  ∧ next_player_index
      (game (place new_game (request "blue" "I1" 0 false 0 0)).1) = 1
  ∧ accepted (skip new_game "blue").2 = true
  ∧ next_player_index (game (skip new_game "blue").1) = 1.
Proof.
  assert (H1 : accepted (place new_game (request "blue" "I1" 0 false 0 0)).2 = true)
    by (vm_compute; reflexivity).
  assert (H2 : accepted (skip new_game "blue").2 = true)
    by (vm_compute; reflexivity).
  split_and!; [exact H1| |exact H2|].
  - apply (C5_turn_pointer_advances new_game); [exact H1|reflexivity|reflexivity].
  - apply (C5_turn_pointer_advances new_game); [exact H2|reflexivity|reflexivity].
Defined.

(** C6. The projected status is [finished] exactly when the log has at least
    as many moves as there are players and its last playerCount moves are
    all passes, whatever came before; otherwise it is [active]. *)
Theorem C6_finished_iff_trailing_passes db s :
  let n := length (players db) in
  reachable db →
  getGameState db = Some s →
  (status (gs_game s) = finished
   ↔ (n <= length (moves db))%nat
     ∧ Forall (λ m, passed m = true) (drop (length (moves db) - n) (moves db)))
  ∧ (status (gs_game s) ≠ finished → status (gs_game s) = active).
Proof.
  intros n Hr Hs. subst n. pose proof (reachable_wf _ Hr) as Hwf.
  destruct (getGameState_inv _ _ Hs) as (_ & _ & -> & _). simpl.
  unfold projected_status. rewrite (wf_status _ Hwf).
  rewrite <- (everyonePassed_true db (wf_players _ Hwf)).
  destruct (everyonePassed db); by split.
Qed.

(** After four opening passes the game is finished. *)
Lemma C6_finished_iff_trailing_passes_witness :
  reachable all_passed
  ∧ ∃ s, getGameState all_passed = Some s ∧ status (gs_game s) = finished.
Proof.
  assert (Hr : reachable all_passed) by apply reachable_run, reach_create.
  split; [exact Hr|].
  assert (His : is_Some (getGameState all_passed))
    by (by apply (bool_decide_unpack _); vm_compute).
  destruct His as [s Hs]. exists s. split; [exact Hs|].
  apply (C6_finished_iff_trailing_passes all_passed s Hr Hs).
  split; [vm_compute; lia|].
  apply (bool_decide_unpack _). by vm_compute.
Defined.

(** C7 asks for the further bonus of 5 only when the last piece the colour
    placed is the monomino, and the comment above the scoring code says the
    same; the code adds it whenever the monomino is among the used pieces.
    In [full_game] blue places all 21 pieces, the monomino first and [T4]
    last, and everyone passes (each of the 85 requests is accepted and leaves
    its row): blue's score is 20, not 15 (the three others, with all 89
    squares left, score -89). Every colour that has used all the pieces
    scores 20. *)
Theorem C7_full_set_scores_20_whatever_came_last :
  reachable full_game
  ∧ length (moves full_game) = length blue_plays_all
  ∧ placed_keys "blue" (moves full_game) = pieceKeys
  ∧ last (placed_keys "blue" (moves full_game)) = Some "T4"
  ∧ (∃ s, getGameState full_game = Some s
          ∧ status (gs_game s) = finished
          ∧ scores s !! "blue" = Some 20
          ∧ scores s !! "yellow" = Some (-89))
  ∧ (∀ used : gset string, (∀ k, k ∈ pieceKeys → k ∈ used) → score_of used = 20).
Proof.
  split_and!.
  - apply reachable_run, reach_create.
  - vm_compute. reflexivity.
  - vm_compute. reflexivity.
  - vm_compute. reflexivity.
  - assert (H : (s ← getGameState full_game;
                 Some (status (gs_game s), scores s !! "blue",
                       scores s !! "yellow"))
                = Some (finished, Some 20, Some (-89)))
      by (vm_compute; reflexivity).
    destruct (getGameState full_game) as [s|]; [|done].
    exists s. cbn [mbind option_bind] in H. injection H as H1 H2 H3. done.
  - apply score_of_all_used.
Qed.

(** C8, as the specification states it, fails. After four opening passes the
    game is finished, yet blue's pass is accepted and appended as the fifth
    move, and so is blue's monomino on (0,0). *)
Lemma C8_finished_is_terminal_counterexample :
  reachable all_passed
  ∧ projected_status all_passed = finished
  ∧ accepted (skip all_passed "blue").2 = true
  ∧ length (moves (skip all_passed "blue").1) = 5%nat
  ∧ accepted (place all_passed (request "blue" "I1" 0 false 0 0)).2 = true
  ∧ length (moves (place all_passed (request "blue" "I1" 0 false 0 0)).1) = 5%nat.
Proof.
  split_and!; [apply reachable_run, reach_create | by vm_compute ..].
Qed.

(** C8, amended. The handlers do not look at the status. In every finished
    game whose state can be read, a pass by the player on turn is accepted and
    appended, and the game is still finished; every placement that is
    accepted is appended, and the game is then active again. *)
Theorem C8_finished_not_enforced db s :
  reachable db →
  getGameState db = Some s →
  status (gs_game s) = finished →
  (∃ current s',
     index (players db) (next_player_index (game db)) = Some current
     ∧ skip db (color current)
       = (append_move db
            (pass_row (color current) (Z.of_nat (length (moves db)) + 1)),
          Ok200 s')
     ∧ status (gs_game s') = finished)
  ∧ (∀ rq s', (place db rq).2 = Ok200 s' →
       length (moves (place db rq).1) = S (length (moves db))
       ∧ status (gs_game s') = active).
Proof.
  intros Hr Hs Hfin. pose proof (reachable_wf _ Hr) as Hwf.
  pose proof (wf_players _ Hwf) as Hne.
  split.
  - destruct (index_is_Some (players db) _ (wf_index _ Hwf)) as [current Hi].
    destruct (skip_on_turn db s current Hs Hi) as (s' & Hs' & Hsk).
    exists current, s'. split_and!; [done|done|].
    destruct (getGameState_inv _ _ Hs) as (_ & _ & Hg & _).
    rewrite Hg in Hfin. simpl in Hfin. unfold projected_status in Hfin.
    rewrite (wf_status _ Hwf) in Hfin.
    destruct (everyonePassed db) eqn:Ep; [|done].
    destruct (getGameState_inv _ _ Hs') as (_ & _ & -> & _). simpl.
    unfold projected_status. by rewrite everyonePassed_pass.
  - intros rq s' Hrep.
    assert (Hacc : accepted (place db rq).2 = true) by (by rewrite Hrep).
    apply accepted_place in Hacc
      as (shape & position & s1 & _ & _ & _ & _ & Hs1 & Hpl).
    rewrite Hpl in Hrep |- *. cbv [fst snd] in *. injection Hrep as ->.
    split.
    + simpl. rewrite length_app. simpl. lia.
    + destruct (getGameState_inv _ _ Hs1) as (_ & _ & -> & _). simpl.
      unfold projected_status. rewrite everyonePassed_placement by done.
      simpl. apply (wf_status _ Hwf).
Qed.

Lemma C8_finished_not_enforced_witness :
  reachable all_passed
  ∧ ∃ current s',
      index (players all_passed) (next_player_index (game all_passed))
      = Some current
      ∧ skip all_passed (color current)
        = (append_move all_passed
             (pass_row (color current)
                (Z.of_nat (length (moves all_passed)) + 1)),
           Ok200 s')
      ∧ status (gs_game s') = finished.
Proof.
  assert (Hr : reachable all_passed) by apply reachable_run, reach_create.
  split; [exact Hr|].
  assert (H : (s ← getGameState all_passed; Some (status (gs_game s)))
              = Some finished) by (vm_compute; reflexivity).
  destruct (getGameState all_passed) as [s|] eqn:Hs; [|done].
  cbn [mbind option_bind] in H. injection H as Hfin.
  apply (C8_finished_not_enforced all_passed s Hr Hs Hfin).
Defined.

End Claims.

(** * Further properties of the code *)

(** ** Geometry: composition of transforms *)

Module GeometryMore.
Import Geometry Catalog Server Props GeometryFacts KeyFacts.

Lemma rotate_iter p r : rotate p r = Nat.iter (Z.to_nat (r `mod` 4)) rot90 p.
Proof. unfold rotate. by rewrite rotate_times_mod. Qed.

Lemma mod4_cases r : r `mod` 4 = 0 ∨ r `mod` 4 = 1 ∨ r `mod` 4 = 2 ∨ r `mod` 4 = 3.
Proof. pose proof (Z.mod_pos_bound r 4). lia. Qed.

Ltac eval_to_nat :=
  repeat match goal with
  | |- context [Z.to_nat ?z] =>
      let v := eval vm_compute in (Z.to_nat z) in
      change (Z.to_nat z) with v
  end.

Lemma rotate_add p a b : rotate (rotate p a) b = rotate p (a + b).
Proof.
  rewrite !rotate_iter, (Zplus_mod a b 4).
  destruct p as [x y].
  destruct (mod4_cases a) as [-> | [-> | [-> | ->]]];
    destruct (mod4_cases b) as [-> | [-> | [-> | ->]]];
    eval_to_nat; unfold rot90; simpl; f_equal; lia.
Qed.

Lemma rotate_period p r k : rotate p (r + 4 * k) = rotate p r.
Proof.
  rewrite !rotate_iter. by rewrite (Z.mul_comm 4 k), Z_mod_plus_full.
Qed.

Lemma rotate_0 p : rotate p 0 = p.
Proof. done. Qed.

(** Linearity of the point maps. *)
Lemma rot90_add p d : rot90 (p.1 + d.1, p.2 + d.2) = ((rot90 p).1 + (rot90 d).1, (rot90 p).2 + (rot90 d).2).
Proof. unfold rot90. simpl. f_equal. lia. Qed.

Lemma rotate_shift p d r :
  rotate (p.1 + d.1, p.2 + d.2) r
  = ((rotate p r).1 + (rotate d r).1, (rotate p r).2 + (rotate d r).2).
Proof.
  unfold rotate. induction (Z.to_nat (rotate_times r)) as [|n IH]; simpl; [done|].
  rewrite IH. apply rot90_add.
Qed.

Lemma flip_shift p d :
  flip (p.1 + d.1, p.2 + d.2) = ((flip p).1 + (flip d).1, (flip p).2 + (flip d).2).
Proof. unfold flip. simpl. f_equal. lia. Qed.

Lemma flip_rotate p r : flip (rotate p r) = rotate (flip p) (- r).
Proof.
  rewrite !rotate_iter. destruct p as [x y].
  assert (H : (- r) `mod` 4 = (4 - r `mod` 4) `mod` 4).
  { clear. Z.div_mod_to_equations. lia. }
  rewrite H.
  destruct (mod4_cases r) as [-> | [-> | [-> | ->]]];
    eval_to_nat; unfold rot90, flip; simpl; f_equal; lia.
Qed.

Lemma foldl_min_shift d x l :
  foldl Z.min (x + d) ((λ y, y + d) <$> l) = foldl Z.min x l + d.
Proof.
  revert x. induction l as [|a l IH]; intros x; simpl; [done|].
  rewrite <- IH. f_equal. lia.
Qed.

Lemma Math_min_shift d l :
  Math_min ((λ y, y + d) <$> l) = (λ m, m + d) <$> Math_min l.
Proof. destruct l as [|x l]; simpl; [done|]. by rewrite foldl_min_shift. Qed.

Lemma normalize_translate cs dx dy : normalize (translate cs dx dy) = normalize cs.
Proof.
  unfold normalize, translate.
  assert (E1 : ((λ p : Z * Z, (p.1 + dx, p.2 + dy)) <$> cs).*1 = (λ y, y + dx) <$> cs.*1)
    by (rewrite <- !list_fmap_compose; by apply list_fmap_ext).
  assert (E2 : ((λ p : Z * Z, (p.1 + dx, p.2 + dy)) <$> cs).*2 = (λ y, y + dy) <$> cs.*2)
    by (rewrite <- !list_fmap_compose; by apply list_fmap_ext).
  rewrite E1, E2, !Math_min_shift.
  destruct (Math_min (cs.*1)) as [mx|]; simpl; [|done].
  destruct (Math_min (cs.*2)) as [my|]; simpl; [|done].
  rewrite <- list_fmap_compose. apply list_fmap_ext.
  intros _ [x y] _. simpl. f_equal; lia.
Qed.

Lemma normalize_as_translate cs :
  ∃ dx dy, normalize cs = translate cs dx dy.
Proof.
  unfold normalize, translate.
  destruct cs as [|p cs]; [by exists 0, 0|].
  simpl. eexists (- _), (- _). f_equal.
Qed.

Lemma map_rotate_translate cs dx dy r :
  (λ p, rotate p r) <$> translate cs dx dy
  = translate ((λ p, rotate p r) <$> cs) (rotate (dx, dy) r).1 (rotate (dx, dy) r).2.
Proof.
  unfold translate. rewrite <- !list_fmap_compose. apply list_fmap_ext.
  intros _ p _. simpl. apply (rotate_shift p (dx, dy) r).
Qed.

Lemma map_flip_translate cs dx dy :
  flip <$> translate cs dx dy = translate (flip <$> cs) (- dx) dy.
Proof.
  unfold translate. rewrite <- !list_fmap_compose. apply list_fmap_ext.
  intros _ p _. simpl. unfold flip. simpl. f_equal. lia.
Qed.

Lemma transformShape_translate shape dx dy r flipped :
  transformShape (translate shape dx dy) r flipped = transformShape shape r flipped.
Proof.
  unfold transformShape. destruct flipped.
  - by rewrite map_flip_translate, map_rotate_translate, normalize_translate.
  - by rewrite map_rotate_translate, normalize_translate.
Qed.

Lemma is_min_unique m m' l : is_min m l → is_min m' l → m = m'.
Proof. intros [H1 H2] [H3 H4]. specialize (H2 _ H3). specialize (H4 _ H1). lia. Qed.

Lemma normalize_id cs :
  is_min 0 (fst <$> cs) → is_min 0 (snd <$> cs) → normalize cs = cs.
Proof.
  intros Hx Hy. unfold normalize.
  destruct (Math_min (cs.*1)) as [mx|] eqn:Ex.
  2:{ destruct cs; [done|discriminate]. }
  destruct (Math_min (cs.*2)) as [my|] eqn:Ey.
  2:{ destruct cs; [done|discriminate]. }
  apply Math_min_is_min in Ex, Ey.
  rewrite <- (is_min_unique _ _ _ Hx Ex), <- (is_min_unique _ _ _ Hy Ey).
  rewrite <- (list_fmap_id cs) at 2. apply list_fmap_ext.
  intros _ [x y] _. simpl. f_equal; lia.
Qed.

Lemma map_rotate_0 (cs : list (Z * Z)) : (λ p, rotate p 0) <$> cs = cs.
Proof. rewrite <- (list_fmap_id cs) at 2. by apply list_fmap_ext. Qed.

End GeometryMore.

Module GeometryMore2.
Import Geometry Catalog Server Props GeometryFacts KeyFacts GeometryMore.

Lemma transformShape_unfold shape r flipped :
  transformShape shape r flipped
  = normalize ((λ p, rotate p r) <$> (if flipped then flip <$> shape else shape)).
Proof. done. Qed.

(** Transforming an already transformed shape: the re-normalization in
    between does not matter. *)
Lemma transformShape_after shape a f b g :
  transformShape (transformShape shape a f) b g
  = normalize ((λ p, rotate p b)
                 <$> (if g then flip <$> ((λ p, rotate p a)
                                 <$> (if f then flip <$> shape else shape))
                      else (λ p, rotate p a)
                             <$> (if f then flip <$> shape else shape))).
Proof.
  rewrite (transformShape_unfold shape a f).
  destruct (normalize_as_translate
              ((λ p, rotate p a) <$> (if f then flip <$> shape else shape)))
    as (dx & dy & ->).
  rewrite transformShape_translate. done.
Qed.

Lemma transformShape_rotate_again shape a f b :
  transformShape (transformShape shape a f) b false = transformShape shape (a + b) f.
Proof.
  rewrite transformShape_after, transformShape_unfold. f_equal.
  rewrite <- list_fmap_compose. apply list_fmap_ext.
  intros _ p _. simpl. apply rotate_add.
Qed.

Lemma transformShape_flip_after shape r :
  transformShape (transformShape shape r false) 0 true = transformShape shape (- r) true.
Proof.
  rewrite transformShape_after, transformShape_unfold. f_equal.
  rewrite map_rotate_0, <- !list_fmap_compose. apply list_fmap_ext.
  intros _ p _. simpl. apply flip_rotate.
Qed.

Lemma flip_flip p : flip (flip p) = p.
Proof. destruct p. unfold flip. simpl. f_equal. lia. Qed.

Lemma transformShape_flip_twice shape :
  transformShape (transformShape shape 0 true) 0 true = transformShape shape 0 false.
Proof.
  rewrite transformShape_after, transformShape_unfold. f_equal.
  rewrite !map_rotate_0, <- list_fmap_compose.
  rewrite <- (list_fmap_id shape) at 2. apply list_fmap_ext.
  intros _ p _. simpl. apply flip_flip.
Qed.

End GeometryMore2.

(** ** State projection and handlers: further lemmas *)

Module StateMore.
Import Geometry Catalog Client Server Props Examples KeyFacts BoardFacts
       ProjectFacts StateFacts ValidateFacts ReachFacts GeometryFacts TurnFacts.

Global Instance keyOfCell_pair_Inj : Inj (=) (=) (λ p : Z * Z, keyOfCell p.1 p.2).
Proof. intros p q. apply keyOfCell_pair_inj. Qed.

(** The occupancy map has one entry per claimed cell. *)
Lemma occupied_size es b :
  board_of es b → NoDup (es.*2) → size (occupied b) = length es.
Proof.
  intros Hb Hnd.
  assert (Hdom : dom (occupied b)
                 = list_to_set ((λ p : Z * Z, keyOfCell p.1 p.2) <$> es.*2)).
  { apply set_eq. intros k.
    rewrite elem_of_dom, elem_of_list_to_set, list_elem_of_fmap. split.
    - intros [c H]. destruct (bo_occ_sound _ _ Hb _ _ H) as (p & Hp & ->).
      exists p. split; [done|]. apply list_elem_of_fmap. by exists (c, p).
    - intros (p & -> & ([c q] & -> & H)%list_elem_of_fmap).
      by eapply bo_occ_complete. }
  rewrite <- (size_dom (D := gset string)), Hdom, size_list_to_set.
  - by rewrite !length_fmap.
  - by apply (NoDup_fmap_2 _).
Qed.

Lemma insert_fold_other {V} (g : gset string → V) (used : gmap string (gset string)) ps :
  ∀ r0 r : gmap string V,
  foldM (λ r p, u ← used !! color p; Some (<[color p := g u]> r)) r0 ps = Some r →
  ∀ c, c ∉ color <$> ps → r !! c = r0 !! c.
Proof.
  induction ps as [|a ps IH]; intros r0 r H c Hc.
  - by injection H as <-.
  - simpl in H. destruct (used !! color a) as [u|]; simpl in H; [|done].
    rewrite fmap_cons, not_elem_of_cons in Hc. destruct Hc as [Hne Hc].
    rewrite (IH _ _ H c Hc). by apply lookup_insert_ne.
Qed.

(** Sums of piece sizes. *)
Lemma foldl_sum_acc {A} (f : A → Z) a0 l :
  foldl (λ a k, a + f k) a0 l = a0 + foldl (λ a k, a + f k) 0 l.
Proof.
  revert a0. induction l as [|x l IH]; intros a0; simpl; [lia|].
  rewrite (IH (a0 + f x)), (IH (0 + f x)). lia.
Qed.

Lemma sum_filter_bounds {A} (f : A → Z) (P : A → Prop) `{∀ x, Decision (P x)} l :
  (∀ k, k ∈ l → 1 <= f k) →
  Z.of_nat (length (filter P l)) <= foldl (λ a k, a + f k) 0 (filter P l)
  ∧ foldl (λ a k, a + f k) 0 (filter P l) <= foldl (λ a k, a + f k) 0 l.
Proof.
  induction l as [|x l IH]; intros Hf; [done|].
  destruct IH as [IH1 IH2].
  { intros k Hk. apply Hf. by apply list_elem_of_further. }
  pose proof (Hf x (list_elem_of_here _ _)).
  simpl (foldl _ 0 (x :: l)). rewrite (foldl_sum_acc f (0 + f x)).
  destruct (decide (P x)).
  - rewrite filter_cons_True by done. simpl.
    rewrite (foldl_sum_acc f (0 + f x)). lia.
  - rewrite filter_cons_False by done. lia.
Qed.

Lemma sizeOf_bounds : Forall (λ k, 1 <= sizeOf k <= 5) pieceKeys.
Proof. by apply (bool_decide_unpack _); vm_compute. Qed.

Lemma total_squares : foldl (λ a k, a + sizeOf k) 0 pieceKeys = 89.
Proof. by vm_compute. Qed.

Lemma remPieces_nil used : remPieces used = [] ↔ ∀ k, k ∈ pieceKeys → k ∈ used.
Proof.
  unfold remPieces. split.
  - intros H k Hk. destruct (decide (k ∈ used)) as [|Hn]; [done|].
    by destruct (filter_nil_not_elem_of _ _ k H Hn).
  - intros H. apply filter_none. intros k Hk Hn. by apply Hn, H.
Qed.

Lemma score_of_range used :
  (remPieces used = [] ∧ score_of used = 20)
  ∨ (remPieces used ≠ [] ∧ -89 <= score_of used <= -1).
Proof.
  destruct (decide (remPieces used = [])) as [E|E].
  - left. split; [done|]. by apply score_of_all_used, remPieces_nil.
  - right. split; [done|]. unfold score_of.
    assert (Hlen : length (remPieces used) ≠ 0%nat) by (by destruct (remPieces used)).
    cbv zeta.
    rewrite (decide_False (P := length (remPieces used) = 0%nat)) by done.
    rewrite decide_False by (by intros [_ ?]).
    destruct (sum_filter_bounds sizeOf (λ k, k ∉ used) pieceKeys) as [H1 H2].
    { intros k Hk. pose proof sizeOf_bounds as Hb. rewrite Forall_forall in Hb.
      by apply Hb. }
    rewrite total_squares in H2. fold (remPieces used) in H1, H2. lia.
Qed.

(** A pass row adds nothing to the projection. *)
Lemma project_pass ms c t :
  foldM project_move empty_board (ms ++ [pass_row c t])
  = foldM project_move empty_board ms.
Proof.
  rewrite foldM_app. destruct (foldM project_move empty_board ms); done.
Qed.

Lemma events_pass ms c t : events (ms ++ [pass_row c t]) = events ms.
Proof. rewrite events_app. unfold events at 2. simpl. by rewrite app_nil_r. Qed.

Lemma getGameState_None db : ¬ colors_ok (players db) → getGameState db = None.
Proof.
  intros H. destruct (getGameState db) as [s|] eqn:E; [|done].
  by destruct H, (getGameState_ok _ _ E).
Qed.

Lemma createGame_colors colors :
  color <$> players (createGame colors)
  = match colors with [] => DEFAULT_COLORS | _ => colors end.
Proof.
  unfold createGame. simpl. rewrite fmap_imap.
  set (l := match colors with [] => DEFAULT_COLORS | _ => colors end).
  apply list_eq. intros i. rewrite list_lookup_imap. by destruct (l !! i).
Qed.

Lemma colors_ok_fmap ps : colors_ok ps ↔ Forall is_color (color <$> ps).
Proof.
  unfold colors_ok. rewrite Forall_fmap, Forall_forall. done.
Qed.

Lemma inherited_not_piece k :
  k ∈ Object_prototype_keys → js_get PIECES k = Inherited.
Proof.
  unfold Object_prototype_keys. rewrite !elem_of_cons, elem_of_nil.
  intros H. repeat (destruct H as [->|H]; [reflexivity|]). done.
Qed.

Lemma js_get_Undefined_iff k :
  js_get PIECES k = Undefined ↔ (k ∉ pieceKeys) ∧ (k ∉ Object_prototype_keys).
Proof.
  unfold js_get. destruct (assoc PIECES k) as [v|] eqn:E.
  - split; [done|]. intros [Hn _]. destruct Hn.
    apply assoc_Some_elem in E. unfold pieceKeys.
    apply list_elem_of_fmap. by exists (k, v).
  - case_decide as Hk.
    + split; [done|]. by intros [_ ?].
    + split; [|done]. intros _. split; [|done].
      unfold pieceKeys. intros ((k' & v) & -> & Hin)%list_elem_of_fmap.
      simpl in E. clear Hk. revert E.
      unfold PIECES in Hin. set_unfold.
      repeat (destruct Hin as [Hin|Hin]; [injection Hin as -> ->; by vm_compute|]).
      done.
Qed.

End StateMore.

(** ** Invariants of the move log *)

Module InvariantFacts.
Import Geometry Catalog Client Server Props Examples KeyFacts BoardFacts
       ProjectFacts StateFacts ValidateFacts ReachFacts GeometryFacts TurnFacts
       MoreProps.

Lemma to_int32_range r : - 2^31 <= to_int32 r < 2^31.
Proof.
  unfold to_int32. change (2^31) with 2147483648. change (2^32) with 4294967296.
  pose proof (Z.mod_pos_bound (r + 2147483648) 4294967296). lia.
Qed.

Lemma to_int32_mod4 r : to_int32 r `mod` 4 = r `mod` 4.
Proof.
  unfold to_int32. change (2^31) with 2147483648. change (2^32) with 4294967296.
  Z.div_mod_to_equations. lia.
Qed.

Lemma to_int32_small r : - 2^31 <= r < 2^31 → to_int32 r = r.
Proof.
  unfold to_int32. change (2^31) with 2147483648. change (2^32) with 4294967296.
  intros H. rewrite Z.mod_small; lia.
Qed.

Lemma transformShape_to_int32 shape r f :
  transformShape shape (to_int32 r) f = transformShape shape r f.
Proof.
  unfold transformShape. f_equal. apply list_fmap_ext. intros _ p _.
  unfold rotate. by rewrite !rotate_times_mod, to_int32_mod4.
Qed.

(** *** Turn order *)

Lemma turn_inv_append db current m :
  turn_inv db →
  index (players db) (next_player_index (game db)) = Some current →
  color current = player_color m →
  turn_number m = Z.of_nat (length (moves db)) + 1 →
  turn_inv (append_move db m).
Proof.
  intros [Hidx Hrows] Hi Hc Ht. pose proof Hi as [Hb _]%index_Some. split; simpl.
  - destruct (next_index_bound _ _ Hb) as [_ ->].
    rewrite Hidx, length_app, Nat2Z.inj_add, Zplus_mod_idemp_l. done.
  - intros i m' [[Hlt H]|[-> <-]]%lookup_snoc_Some; [by apply Hrows|].
    split; [done|]. exists current. split; [|done].
    unfold index in Hi. rewrite decide_True in Hi by lia.
    rewrite Hidx, <- Nat2Z.inj_mod, Nat2Z.id in Hi. done.
Qed.

Lemma reachable_turn_inv db : reachable db → turn_inv db.
Proof.
  induction 1 as [colors|db rq Hr IH|db c Hr IH].
  - split; simpl; [by rewrite Zmod_0_l|]. intros i m H. by rewrite lookup_nil in H.
  - destruct (place_accepted db rq)
      as [(code & e & ->)|(shape & position & s' & Hon & _ & _ & _ & _ & _ & ->)];
      [done|].
    destruct Hon as [_ _ _ (current & Hi & Hc)]. simpl.
    by apply (turn_inv_append db current).
  - destruct (skip_cases db c)
      as [(code & e & ->)|(s & current & s' & _ & Hi & Hc & _ & ->)]; [done|].
    simpl. by apply (turn_inv_append db current).
Qed.

(** *** Stored rows *)

Lemma reachable_reproducible db : reachable db → Forall reproducible (moves db).
Proof.
  induction 1 as [colors|db rq Hr IH|db c Hr IH].
  - constructor.
  - destruct (place_accepted db rq)
      as [(code & e & ->)|(shape & position & s' & Hon & _ & _ & _ & _ & _ & ->)];
      [done|].
    simpl. apply Forall_app. split; [done|]. apply Forall_singleton.
    unfold reproducible. simpl.
    exists (rq_piece_key rq), shape, (to_int32 (rq_rotation rq)), (rq_flipped rq),
      position.1, position.2.
    split_and!; try done.
    + apply (ot_piece _ _ _ _ Hon).
    + apply to_int32_range.
    + apply to_int32_range.
    + unfold placed_cells. by rewrite transformShape_to_int32.
  - destruct (skip_cases db c)
      as [(code & e & ->)|(s & current & s' & _ & _ & _ & _ & ->)]; [done|].
    simpl. apply Forall_app. split; [done|]. by apply Forall_singleton.
Qed.

(** *** Every row was legal when it was appended *)

Lemma legal_rows_append ms m :
  (∀ i m', ms !! i = Some m' → legal_after (take i ms) m') →
  legal_after ms m →
  ∀ i m', (ms ++ [m]) !! i = Some m' → legal_after (take i (ms ++ [m])) m'.
Proof.
  intros Hold Hnew i m' [[Hlt H]|[-> <-]]%lookup_snoc_Some.
  - rewrite take_app_le by lia. by apply Hold.
  - by rewrite take_app_length.
Qed.

Lemma reachable_legal db :
  reachable db → ∀ i m, moves db !! i = Some m → legal_after (take i (moves db)) m.
Proof.
  induction 1 as [colors|db rq Hr IH|db c Hr IH].
  - intros i m H. simpl in H. by rewrite lookup_nil in H.
  - destruct (place_accepted db rq)
      as [(code & e & ->)|(shape & position & s' & Hon & _ & Hb & Ho & Hrule & _ & ->)];
      [done|].
    simpl. apply legal_rows_append; [done|].
    intros cs [= <-]. simpl.
    rewrite (wf_size _ (reachable_wf _ Hr)) in Hb.
    split_and!; [done|done| | |].
    + destruct Hrule as [[Hf _]|(_ & _ & ?)]; [|done].
      intros (p & q & _ & Hq & _). by apply (first_move_no_claims _ _ q Hf).
    + intros Hf. destruct Hrule as [[_ ?]|[? _]]; done.
    + intros Hf. destruct Hrule as [[? _]|(_ & ? & _)]; done.
  - destruct (skip_cases db c)
      as [(code & e & ->)|(s & current & s' & _ & _ & _ & _ & ->)]; [done|].
    simpl. apply legal_rows_append; [done|]. by intros cs [=].
Qed.

Lemma claims_mono ms1 ms2 p c : claims ms1 p c → claims (ms1 ++ ms2) p c.
Proof.
  intros (m & cs & Hm & H). exists m, cs. split; [|done].
  apply elem_of_app. by left.
Qed.

Lemma claims_take ms i p c : claims (take i ms) p c → claims ms p c.
Proof. rewrite <- (take_drop i ms) at 2. apply claims_mono. Qed.

Lemma edge_adjacent_sym p q : edge_adjacent p q → edge_adjacent q p.
Proof. unfold edge_adjacent. lia. Qed.

Global Instance first_move_for_dec c ms : Decision (first_move_for c ms).
Proof.
  destruct (isFirstMove ms c) eqn:E.
  - left. by apply isFirstMove_true.
  - right. rewrite <- isFirstMove_true. congruence.
Defined.

Lemma first_move_for_snoc c ms m :
  first_move_for c (ms ++ [m])
  ↔ first_move_for c ms ∧ (player_color m = c → passed m = true).
Proof.
  unfold first_move_for. split.
  - intros H. split.
    + intros m' Hm'. apply H. apply elem_of_app. by left.
    + apply H. apply elem_of_app. right. by apply list_elem_of_singleton.
  - intros [H1 H2] m' [Hm'|Hm'%list_elem_of_singleton]%elem_of_app;
      [by apply H1|by subst].
Qed.

(** A colour that has placed anything holds its starting corner. *)
Lemma reachable_holds_corner db :
  reachable db →
  ∀ c, ¬ first_move_for c (moves db) →
       ∃ corner, js_get START_CORNERS c = Own corner ∧ claims (moves db) corner c.
Proof.
  induction 1 as [colors|db rq Hr IH|db c0 Hr IH].
  - intros c H. destruct H. intros m Hm. by apply elem_of_nil in Hm.
  - destruct (place_accepted db rq)
      as [(code & e & ->)|(shape & position & s' & Hon & _ & Hb & Ho & Hrule & _ & ->)];
      [done|].
    simpl. intros c Hnf.
    destruct (decide (first_move_for c (moves db))) as [Hf|Hf].
    + rewrite first_move_for_snoc in Hnf. simpl in Hnf.
      destruct (decide (rq_player_color rq = c)) as [<-|Hne]; [|tauto].
      destruct Hrule as [(_ & corner & Hc & Hin)|[? _]]; [|done].
      exists corner. split; [done|].
      exists (placement_row rq (placed_cells shape rq position)
                (Z.of_nat (length (moves db)) + 1)),
        (placed_cells shape rq position).
      split_and!; [|reflexivity|exact Hin|done].
      apply elem_of_app. right. by apply list_elem_of_singleton.
    + destruct (IH c Hf) as (corner & Hc & Hcl). exists corner.
      split; [done|]. by apply claims_mono.
  - destruct (skip_cases db c0)
      as [(code & e & ->)|(s & current & s' & _ & _ & _ & _ & ->)]; [done|].
    simpl. intros c Hnf. rewrite first_move_for_snoc in Hnf. simpl in Hnf.
    destruct (IH c) as (corner & Hc & Hcl); [tauto|].
    exists corner. split; [done|]. by apply claims_mono.
Qed.

(** *** The rules, decided *)

Lemma accepted_iff db rq :
  accepted (place db rq).2 = true
  ↔ ∃ shape position,
      on_turn db rq shape position
      ∧ meets_rules db (rq_player_color rq) (placed_cells shape rq position).
Proof.
  split.
  - intros (shape & position & s' & Hon & Hb & Ho & Hrule & _)%accepted_place.
    exists shape, position. by split.
  - intros (shape & position & Hon & Hb & Ho & Hrule).
    destruct (place_verdict _ _ _ _ Hon) as (v & V & Hpl).
    destruct V as [| |corner ? ? ? Hcorner Hmiss|corner ? ? ? Hcorner Hin| | |];
      simpl in Hpl; try tauto.
    + destruct Hrule as [(_ & corner' & Hc' & Hin')|[? _]]; [|done].
      rewrite Hcorner in Hc'. injection Hc' as <-. done.
    + destruct Hpl as (s' & _ & ->). done.
    + destruct Hpl as (s' & _ & ->). done.
Qed.

(** *** Piece keys of earlier rows are not consulted *)

Lemma same_but_key_placement m1 m2 :
  same_but_key m1 m2 → placement_cells m1 = placement_cells m2.
Proof. intros (_ & Hc & Hp). unfold placement_cells. by rewrite Hc, Hp. Qed.

Lemma same_but_key_moves_ok ms1 ms2 :
  Forall2 same_but_key ms1 ms2 → moves_ok ms1 → moves_ok ms2.
Proof.
  intros HF Hok m2 [i Hi]%list_elem_of_lookup Hp.
  destruct (Forall2_lookup_r _ _ _ _ _ HF Hi) as (m1 & Hm1 & Hs).
  apply list_elem_of_lookup_2 in Hm1.
  pose proof Hs as (Hc & _). rewrite <- Hc. apply Hok; [done|].
  by rewrite (same_but_key_placement _ _ Hs).
Qed.

Lemma same_but_key_replay ms1 ms2 :
  Forall2 same_but_key ms1 ms2 →
  ∀ b, foldM replay_move b ms1 = foldM replay_move b ms2.
Proof.
  induction 1 as [|m1 m2 ms1 ms2 Hs HF IH]; intros b; [done|]. simpl.
  assert (replay_move b m1 = replay_move b m2) as ->.
  { unfold replay_move. rewrite (same_but_key_placement _ _ Hs).
    by destruct Hs as (-> & _). }
  destruct (replay_move b m2); simpl; auto.
Qed.

Lemma same_but_key_isFirstMove ms1 ms2 c :
  Forall2 same_but_key ms1 ms2 → isFirstMove ms1 c = isFirstMove ms2 c.
Proof.
  unfold isFirstMove. intros HF. f_equal.
  induction HF as [|m1 m2 ms1 ms2 (Hc & _ & Hp) HF IH]; [done|].
  simpl. by rewrite Hc, Hp, IH.
Qed.

Lemma same_but_key_readable db1 db2 :
  players db1 = players db2 → Forall2 same_but_key (moves db1) (moves db2) →
  is_Some (getGameState db1) → is_Some (getGameState db2).
Proof.
  intros Hp HF [s Hs]. destruct (getGameState_ok _ _ Hs) as [Hm Hc].
  apply getGameState_is_Some; [by eapply same_but_key_moves_ok|by rewrite <- Hp].
Qed.

Lemma same_but_key_sym ms1 ms2 :
  Forall2 same_but_key ms1 ms2 → Forall2 same_but_key ms2 ms1.
Proof.
  induction 1 as [|m1 m2 ms1 ms2 (? & ? & ?) HF IH]; constructor; [|done].
  by split_and!.
Qed.

Lemma same_but_key_outcome db1 db2 rq :
  game db1 = game db2 → players db1 = players db2 →
  Forall2 same_but_key (moves db1) (moves db2) →
  outcome (place db1 rq).2 = outcome (place db2 rq).2.
Proof.
  intros Hg Hp HF.
  assert (Hrd : is_Some (getGameState db1) ↔ is_Some (getGameState db2)).
  { split; apply same_but_key_readable; try done; by apply same_but_key_sym. }
  pose proof (Forall2_length _ _ _ HF) as Hlen.
  unfold place.
  destruct (js_get PIECES (rq_piece_key rq)) as [shape| |] eqn:Ek; [| |done].
  - destruct (rq_position rq) as [position|]; [|done].
    destruct (getGameState db1) as [s1|] eqn:E1;
      destruct (getGameState db2) as [s2|] eqn:E2;
      [|by destruct Hrd as [[? ?] _]; [eexists|]
       |by destruct Hrd as [_ [? ?]]; [eexists|] |done].
    destruct (getGameState_inv _ _ E1) as (_ & _ & Hg1 & Hp1 & Hm1 & _).
    destruct (getGameState_inv _ _ E2) as (_ & _ & Hg2 & Hp2 & Hm2 & _).
    rewrite Hg1, Hg2, Hp1, Hp2, Hm1, Hm2. simpl. rewrite <- Hg, <- Hp.
    destruct (index _ _) as [current|] eqn:Ei; [|done].
    case_decide as Hc; [done|].
    rewrite <- (same_but_key_replay _ _ HF).
    destruct (foldM replay_move empty_board (moves db1)) as [b|]; [|done].
    assert (Hv : validate db2 b (rq_player_color rq) (placed_cells shape rq position)
                 = validate db1 b (rq_player_color rq) (placed_cells shape rq position)).
    { unfold validate. by rewrite Hg, (same_but_key_isFirstMove _ _ _ HF). }
    rewrite Hv.
    destruct (validate db1 b _ _) as [[code e]|[]]; [done|].
    rewrite <- Hlen.
    set (row := placement_row rq _ _).
    destruct (getGameState_append db1 s1 current row E1) as [s1' Hs1'];
      [by apply index_Some in Ei as [_ ?] | done |].
    destruct (getGameState_append db2 s2 current row E2) as [s2' Hs2'];
      [rewrite <- Hp; by apply index_Some in Ei as [_ ?] | done |].
    unfold reply_state. by rewrite Hs1', Hs2'.
  - destruct (rq_position rq) as [position|]; [|done].
    destruct (getGameState db1) as [s1|] eqn:E1;
      destruct (getGameState db2) as [s2|] eqn:E2;
      [|by destruct Hrd as [[? ?] _]; [eexists|]
       |by destruct Hrd as [_ [? ?]]; [eexists|] |done].
    destruct (getGameState_inv _ _ E1) as (_ & _ & Hg1 & Hp1 & Hm1 & _).
    destruct (getGameState_inv _ _ E2) as (_ & _ & Hg2 & Hp2 & Hm2 & _).
    rewrite Hg1, Hg2, Hp1, Hp2, Hm1, Hm2. simpl. rewrite <- Hg, <- Hp.
    destruct (index _ _) as [current|] eqn:Ei; [|done].
    case_decide as Hc; [done|].
    by destruct (foldM _ _ _), (foldM _ _ _).
Qed.

End InvariantFacts.

(** ** The client preview against the server *)

Module ClientFacts.
Import Geometry Catalog Client Server Props Examples KeyFacts BoardFacts
       ProjectFacts StateFacts ValidateFacts ReachFacts GeometryFacts TurnFacts
       MoreProps InvariantFacts.

Lemma existsb_elem_of {A} (f : A → bool) (l : list A) :
  existsb f l = true ↔ ∃ x, x ∈ l ∧ f x = true.
Proof. rewrite existsb_exists. by setoid_rewrite <- list_elem_of_In. Qed.

Lemma boardOccupancy_events ms :
  boardOccupancy ms
  = foldl (λ (occ : gmap (Z * Z) string) (e : string * (Z * Z)), <[e.2 := e.1]> occ)
      ∅ (events ms).
Proof.
  unfold boardOccupancy. generalize (∅ : gmap (Z * Z) string).
  induction ms as [|m ms IH]; intros occ0; [done|].
  rewrite events_cons, foldl_app. cbn [foldl]. rewrite IH. f_equal.
  destruct (placement_cells m) as [cs|]; simpl; [|done].
  by rewrite foldl_fmap.
Qed.

Lemma occ_events_lookup (es : list (string * (Z * Z))) p c :
  NoDup es.*2 →
  foldl (λ (occ : gmap (Z * Z) string) (e : string * (Z * Z)), <[e.2 := e.1]> occ)
    ∅ es !! p = Some c
  ↔ (c, p) ∈ es.
Proof.
  revert p c. induction es as [|e es IH] using rev_ind; intros p c Hnd.
  - simpl. rewrite lookup_empty, elem_of_nil. naive_solver.
  - rewrite foldl_snoc. rewrite fmap_app in Hnd.
    apply NoDup_app in Hnd as (Hnd & Hdisj & _).
    rewrite lookup_insert, elem_of_app, list_elem_of_singleton.
    case_decide as Hp.
    + split.
      * intros [= <-]. right. destruct e; simpl in *; by subst.
      * intros [Hin|He]; [|by subst e]. exfalso. apply (Hdisj p).
        -- apply list_elem_of_fmap. by exists (c, p).
        -- simpl. apply list_elem_of_singleton. done.
    + rewrite IH by done. split; [tauto|]. intros [?|He]; [done|].
      subst e. by destruct Hp.
Qed.

Lemma boardOccupancy_lookup ms p c :
  NoDup (log_cells ms) → boardOccupancy ms !! p = Some c ↔ claims ms p c.
Proof.
  intros H. rewrite boardOccupancy_events, occ_events_lookup by done.
  apply elem_of_events.
Qed.

Lemma elem_of_grid p : p ∈ grid ↔ 0 <= p.1 < 20 ∧ 0 <= p.2 < 20.
Proof.
  unfold grid. rewrite list_elem_of_bind. split.
  - intros (yy & Hp & Hy). apply list_elem_of_bind in Hp as (xx & Hp & Hx).
    apply list_elem_of_singleton in Hp as ->. simpl.
    apply list_elem_of_fmap in Hy as (j & -> & Hj%elem_of_seq).
    apply list_elem_of_fmap in Hx as (i & -> & Hi%elem_of_seq). lia.
  - intros [Hx Hy]. exists p.2. split.
    + apply list_elem_of_bind. exists p.1. split.
      * destruct p; simpl. by apply list_elem_of_singleton.
      * apply list_elem_of_fmap. exists (Z.to_nat p.1).
        split; [lia|]. apply elem_of_seq. lia.
    + apply list_elem_of_fmap. exists (Z.to_nat p.2).
      split; [lia|]. apply elem_of_seq. lia.
Qed.

Lemma claims_wf db q c :
  wf_db db → claims (moves db) q c →
  is_color c ∧ 0 <= q.1 < 20 ∧ 0 <= q.2 < 20.
Proof.
  intros Hwf (m & cs & Hm & Hcs & Hq & <-). unfold placement_cells in Hcs.
  destruct (passed m) eqn:Ep; [done|].
  destruct (wf_placement _ Hwf m Hm Ep) as (cs' & k & shape & Hc & _ & _ & _ & Hcol & Hin).
  rewrite Hcs in Hc. injection Hc as <-. split; [done|]. by apply Hin.
Qed.

Lemma is_color_nonempty c : is_color c → c ≠ "".
Proof.
  unfold is_color, DEFAULT_COLORS. rewrite !elem_of_cons, elem_of_nil.
  intros [->|[->|[->|[->|[]]]]]; done.
Qed.

Lemma not_first_move c ms :
  ¬ first_move_for c ms ↔ ∃ m, m ∈ ms ∧ player_color m = c ∧ passed m = false.
Proof.
  rewrite <- isFirstMove_true. unfold isFirstMove.
  rewrite not_true_iff_false, negb_false_iff, existsb_elem_of.
  split; intros (m & Hm & H); exists m; (split; [done|]).
  - apply andb_true_iff in H as [H1 H2]. apply bool_decide_eq_true in H1.
    apply negb_true_iff in H2. done.
  - destruct H as [H1 H2]. apply andb_true_iff. split.
    + by apply bool_decide_eq_true.
    + by apply negb_true_iff.
Qed.

Lemma playerHasAny_true db c :
  wf_db db →
  playerHasAny c (boardOccupancy (moves db)) = true ↔ ¬ first_move_for c (moves db).
Proof.
  intros Hwf. unfold playerHasAny. rewrite existsb_elem_of. split.
  - intros (p & _ & H) Hfirst. apply bool_decide_eq_true in H.
    apply boardOccupancy_lookup in H; [|apply Hwf].
    by apply (first_move_no_claims _ _ p Hfirst).
  - intros (m & Hm & Hc & Hp)%not_first_move.
    destruct (wf_placement _ Hwf m Hm Hp)
      as (cs & k & shape & Hcs & _ & Hshape & Hlen & _ & Hin).
    assert (Hne : shape ≠ []).
    { pose proof PIECES_shapes as Hall. rewrite Forall_forall in Hall.
      destruct (Hall (k, shape)) as [_ ?]; [|done].
      by apply assoc_Some_elem. }
    destruct cs as [|p cs]; [by destruct shape|].
    exists p. split.
    + apply elem_of_grid, Hin. by left.
    + apply bool_decide_eq_true, boardOccupancy_lookup; [apply Hwf|].
      exists m, (p :: cs). unfold placement_cells. rewrite Hp.
      split_and!; [done|done|by left|done].
Qed.

Lemma on_board_true p : on_board p = true ↔ 0 <= p.1 < 20 ∧ 0 <= p.2 < 20.
Proof.
  unfold on_board, BOARD_SIZE. rewrite !andb_true_iff, !bool_decide_eq_true. lia.
Qed.

Lemma touches_true db dirs targets c (R : Z * Z → Z * Z → Prop) :
  wf_db db →
  (∀ p q, R p q ↔ ∃ d, d ∈ dirs ∧ q = (p.1 + d.1, p.2 + d.2)) →
  touches dirs targets c (boardOccupancy (moves db)) = true
  ↔ ∃ p q, p ∈ targets ∧ claims (moves db) q c ∧ R p q.
Proof.
  intros Hwf HR. unfold touches. rewrite existsb_elem_of. split.
  - intros (t & Ht & H). apply existsb_elem_of in H as (d & Hd & H).
    apply andb_true_iff in H as [_ H]. apply bool_decide_eq_true in H.
    apply boardOccupancy_lookup in H; [|apply Hwf].
    exists t, (t.1 + d.1, t.2 + d.2). split_and!; [done|done|].
    apply HR. by exists d.
  - intros (p & q & Hp & Hc & (d & Hd & ->)%HR). exists p. split; [done|].
    apply existsb_elem_of. exists d. split; [done|]. cbv zeta.
    apply andb_true_iff. split.
    + apply on_board_true. by destruct (claims_wf _ _ _ Hwf Hc).
    + apply bool_decide_eq_true, boardOccupancy_lookup; [apply Hwf|done].
Qed.

Lemma edge_adjacent_dirs p q :
  edge_adjacent p q
  ↔ ∃ d, d ∈ [(1,0); (-1,0); (0,1); (0,-1)] ∧ q = (p.1 + d.1, p.2 + d.2).
Proof.
  destruct p as [x y], q as [x' y']. unfold edge_adjacent. simpl. split.
  - intros [[-> ->]|[[-> ->]|[[-> ->]|[-> ->]]]];
      [exists (-1,0)|exists (1,0)|exists (0,-1)|exists (0,1)];
      (split; [set_solver|simpl; f_equal; lia]).
  - intros (d & Hd & [= -> ->]). rewrite !elem_of_cons, elem_of_nil in Hd.
    destruct Hd as [->|[->|[->|[->|[]]]]]; simpl; lia.
Qed.

Lemma corner_adjacent_dirs p q :
  corner_adjacent p q
  ↔ ∃ d, d ∈ [(1,1); (1,-1); (-1,1); (-1,-1)] ∧ q = (p.1 + d.1, p.2 + d.2).
Proof.
  destruct p as [x y], q as [x' y']. unfold corner_adjacent. simpl. split.
  - intros [[->| ->] [->| ->]];
      [exists (-1,-1)|exists (-1,1)|exists (1,-1)|exists (1,1)];
      (split; [set_solver|simpl; f_equal; lia]).
  - intros (d & Hd & [= -> ->]). rewrite !elem_of_cons, elem_of_nil in Hd.
    destruct Hd as [->|[->|[->|[->|[]]]]]; simpl; lia.
Qed.

Lemma cell_taken db t :
  wf_db db →
  match boardOccupancy (moves db) !! t with
  | Some c => bool_decide (c ≠ "")
  | None => false
  end = true ↔ t ∈ log_cells (moves db).
Proof.
  intros Hwf. rewrite elem_of_log_cells. split.
  - destruct (boardOccupancy (moves db) !! t) as [c|] eqn:E; [|done].
    intros _. exists c. by apply boardOccupancy_lookup in E; [|apply Hwf].
  - intros [c Hc]. pose proof Hc as Hc'.
    apply boardOccupancy_lookup in Hc; [|apply Hwf]. rewrite Hc.
    apply bool_decide_eq_true, is_color_nonempty.
    by destruct (claims_wf _ _ _ Hwf Hc').
Qed.

Lemma free_targets db targets :
  wf_db db →
  existsb (λ t, negb (on_board t)
                || match boardOccupancy (moves db) !! t with
                   | Some c => bool_decide (c ≠ "")
                   | None => false
                   end) targets = false
  ↔ in_bounds targets 20 ∧ overlap_free targets (moves db).
Proof.
  intros Hwf. rewrite <- not_true_iff_false, existsb_elem_of. split.
  - intros H. split.
    + intros p Hp. apply on_board_true. destruct (on_board p) eqn:E; [done|].
      destruct H. exists p. by rewrite E.
    + intros p Hp Hin. apply H. exists p. split; [done|].
      apply orb_true_iff. right. by apply cell_taken.
  - intros [Hb Ho] (p & Hp & [H|H]%orb_true_iff).
    + apply negb_true_iff in H. apply Hb, on_board_true in Hp. congruence.
    + apply cell_taken in H; [|done]. by apply (Ho p).
Qed.

Lemma targets_placed shape rq (position : Z * Z) :
  (λ d : Z * Z, (position.1 + d.1, position.2 + d.2))
    <$> transform shape (rq_rotation rq) (rq_flipped rq)
  = placed_cells shape rq position.
Proof.
  unfold placed_cells, translate. rewrite client_transform.
  apply list_fmap_ext. intros i [x y] _. simpl. f_equal; lia.
Qed.

Lemma corner_tables_agree c :
  c = "blue" ∨ c = "yellow" →
  ∃ corner, cornerFor c = Some corner ∧ js_get START_CORNERS c = Own corner.
Proof. intros [->| ->]; eexists; split; reflexivity. Qed.

Lemma covers_start (start : Z * Z) targets :
  existsb (λ t : Z * Z, bool_decide (t.1 = start.1) && bool_decide (t.2 = start.2))
    targets = true ↔ start ∈ targets.
Proof.
  rewrite existsb_elem_of. split.
  - intros ([x y] & Hin & [H1 H2]%andb_true_iff).
    apply bool_decide_eq_true in H1, H2. destruct start. simpl in *. by subst.
  - intros H. exists start. split; [done|].
    apply andb_true_iff. split; by apply bool_decide_eq_true.
Qed.

Lemma accepted_on_turn db rq shape position :
  on_turn db rq shape position →
  accepted (place db rq).2 = true
  ↔ meets_rules db (rq_player_color rq) (placed_cells shape rq position).
Proof.
  intros Hon. rewrite accepted_iff. split.
  - intros (shape' & position' & Hon' & H).
    pose proof (ot_piece _ _ _ _ Hon) as H1. pose proof (ot_piece _ _ _ _ Hon') as H2.
    pose proof (ot_position _ _ _ _ Hon) as H3.
    pose proof (ot_position _ _ _ _ Hon') as H4.
    rewrite H1 in H2. rewrite H3 in H4. injection H2 as <-. injection H4 as <-. done.
  - intros H. by exists shape, position.
Qed.

Lemma on_turn_color db rq shape position :
  on_turn db rq shape position → is_color (rq_player_color rq).
Proof.
  intros [_ _ [s Hs] (current & Hcur & <-)].
  destruct (getGameState_ok _ _ Hs) as [_ Hc]. apply Hc.
  by apply index_Some in Hcur as [_ ?].
Qed.

Lemma preview_agrees db rq shape position :
  wf_db db →
  on_turn db rq shape position →
  (rq_player_color rq = "blue" ∨ rq_player_color rq = "yellow"
   ∨ ¬ first_move_for (rq_player_color rq) (moves db)) →
  canPlaceLocal (Some shape) (rq_rotation rq) (rq_flipped rq) (Some position)
    (rq_player_color rq) (boardOccupancy (moves db))
  = Some (accepted (place db rq).2).
Proof.
  intros Hwf Hon Hc. pose proof (accepted_on_turn _ _ _ _ Hon) as Hacc.
  pose proof (on_turn_color _ _ _ _ Hon) as Hcol.
  unfold meets_rules in Hacc. rewrite (wf_size _ Hwf) in Hacc.
  unfold canPlaceLocal.
  rewrite decide_False by by apply is_color_nonempty.
  cbv zeta. rewrite targets_placed.
  set (placed := placed_cells shape rq position) in *.
  set (c := rq_player_color rq) in *.
  destruct (existsb _ placed) eqn:E1.
  { f_equal. symmetry. apply not_true_iff_false. rewrite Hacc.
    intros (Hb & Ho & _). apply not_true_iff_false in E1; [done|].
    by apply free_targets. }
  apply free_targets in E1 as [Hb Ho]; [|done].
  pose proof (touches_true db _ placed c _ Hwf edge_adjacent_dirs) as Hedge.
  pose proof (touches_true db _ placed c _ Hwf corner_adjacent_dirs) as Hcorner.
  fold (touches_edge placed c (moves db)) in Hedge.
  fold (touches_corner placed c (moves db)) in Hcorner.
  destruct (touches [(1,0); (-1,0); (0,1); (0,-1)] placed c _) eqn:E2.
  { f_equal. symmetry. apply not_true_iff_false. rewrite Hacc.
    assert (He : touches_edge placed c (moves db)) by by apply Hedge.
    intros (_ & _ & [[Hf _]|(_ & _ & Hne)]); [|done].
    destruct He as (p & q & _ & Hq & _). by apply (first_move_no_claims _ _ q Hf). }
  assert (Hne : ¬ touches_edge placed c (moves db)).
  { rewrite <- Hedge. congruence. }
  pose proof (playerHasAny_true db c Hwf) as Hany.
  destruct (playerHasAny c _) eqn:E3; simpl negb; cbv iota.
  - assert (Hnf : ¬ first_move_for c (moves db)) by by apply Hany.
    f_equal. apply eq_true_iff_eq. rewrite Hcorner, Hacc. split.
    + intros Ht. split_and!; [done|done|]. by right.
    + intros (_ & _ & [[Hf _]|(_ & Ht & _)]); done.
  - assert (Hf : first_move_for c (moves db)).
    { destruct (decide (first_move_for c (moves db))) as [|Hn]; [done|].
      apply Hany in Hn. congruence. }
    destruct Hc as [Hc|[Hc|Hc]]; [| |done].
    + destruct (corner_tables_agree c) as (corner & -> & Hs); [by left|].
      f_equal. apply eq_true_iff_eq. rewrite covers_start, Hacc. split.
      * intros Hin. split_and!; [done|done|]. left. split; [done|]. by exists corner.
      * intros (_ & _ & [[_ (corner' & Hs' & Hin)]|(Hn & _)]); [|done].
        rewrite Hs in Hs'. by injection Hs' as <-.
    + destruct (corner_tables_agree c) as (corner & -> & Hs); [by right|].
      f_equal. apply eq_true_iff_eq. rewrite covers_start, Hacc. split.
      * intros Hin. split_and!; [done|done|]. left. split; [done|]. by exists corner.
      * intros (_ & _ & [[_ (corner' & Hs' & Hin)]|(Hn & _)]); [|done].
        rewrite Hs in Hs'. by injection Hs' as <-.
Qed.

End ClientFacts.

(** ** Properties of the geometry engine *)

Module GeometryExtras.
Import Geometry Catalog Client Server Props Examples GeometryFacts KeyFacts GeometryMore GeometryMore2.

(** X1. Quarter turns compose by adding their counts, for all integers:
    turning by [a] and then by [b] is turning by [a + b]; adding a multiple
    of four turns changes nothing; turning by [- a] undoes turning by [a]. *)
Theorem X1_rotate_composes (p : Z * Z) (a b k : Z) :
  rotate (rotate p a) b = rotate p (a + b)
  ∧ rotate p (a + 4 * k) = rotate p a
  ∧ rotate (rotate p a) (- a) = p.
Proof.
  split_and!.
  - apply rotate_add.
  - apply rotate_period.
  - rewrite rotate_add. by replace (a + - a) with 0 by lia.
Qed.

(** X2. [transformShape] depends on the rotation only modulo 4; with rotation
    0 (or 4) and no flip it returns a shape whose least x and least y are 0
    unchanged, and so it returns every catalog piece unchanged. *)
Theorem X2_transform_identity (shape : list (Z * Z)) (r k : Z) (flipped : bool) :
  transformShape shape (r + 4 * k) flipped = transformShape shape r flipped
  ∧ (is_min 0 (fst <$> shape) → is_min 0 (snd <$> shape) →
     transformShape shape 0 false = shape ∧ transformShape shape 4 false = shape)
  ∧ Forall (λ e, transformShape e.2 0 false = e.2
                 ∧ transformShape e.2 4 false = e.2) PIECES.
Proof.
  assert (Hp : ∀ s r k f, transformShape s (r + 4 * k) f = transformShape s r f).
  { intros s r' k' f. unfold transformShape. f_equal. apply list_fmap_ext.
    intros _ p _. apply rotate_period. }
  split_and!.
  - apply Hp.
  - intros Hx Hy.
    assert (H0 : transformShape shape 0 false = shape).
    { unfold transformShape. rewrite map_rotate_0. by apply normalize_id. }
    split; [done|]. by rewrite <- (Hp shape 0 1 false) in H0.
  - by apply (bool_decide_unpack _); vm_compute.
Qed.

Lemma X2_transform_identity_witness :
  transformShape [(1,0);(0,1);(1,1);(2,1);(1,2)] 0 false
  = [(1,0);(0,1);(1,1);(2,1);(1,2)].
Proof.
  apply (X2_transform_identity [(1,0);(0,1);(1,1);(2,1);(1,2)] 0 0 false).
  - simpl. split; [set_solver|]. intros x Hx. set_unfold. lia.
  - simpl. split; [set_solver|]. intros x Hx. set_unfold. lia.
Defined.

(** X3. The result of [transformShape] does not depend on where the input
    shape sits: translating the input first changes nothing. [normalize]
    likewise ignores a translation of its input, and normalizing twice is
    normalizing once. *)
Theorem X3_transform_ignores_translation (shape : list (Z * Z)) (dx dy r : Z)
    (flipped : bool) :
  transformShape (translate shape dx dy) r flipped = transformShape shape r flipped
  ∧ normalize (translate shape dx dy) = normalize shape
  ∧ normalize (normalize shape) = normalize shape.
Proof.
  split_and!.
  - apply transformShape_translate.
  - apply normalize_translate.
  - destruct (normalize_as_translate shape) as (ex & ey & E).
    rewrite E at 1. apply normalize_translate.
Qed.

(** X4. Transforms compose. Rotating a transformed shape by [b] more is
    transforming with the rotations added; flipping a shape rotated by [r]
    is rotating the flipped shape by [- r] (so flip-then-rotate and
    rotate-then-flip differ by the sign of the rotation: for the F pentomino
    and one quarter turn they give different cells); flipping twice is no
    flip. *)
Theorem X4_transforms_compose (shape : list (Z * Z)) (a b : Z) (f : bool) :
  transformShape (transformShape shape a f) b false = transformShape shape (a + b) f
  ∧ transformShape (transformShape shape a false) 0 true
    = transformShape shape (- a) true
  ∧ transformShape (transformShape shape 0 true) 0 true
    = transformShape shape 0 false
  ∧ transformShape (transformShape [(1,0);(0,1);(1,1);(1,2);(2,2)] 1 false) 0 true
    ≠ transformShape [(1,0);(0,1);(1,1);(1,2);(2,2)] 1 true.
Proof.
  split_and!.
  - apply transformShape_rotate_again.
  - apply transformShape_flip_after.
  - apply transformShape_flip_twice.
  - by vm_compute.
Qed.

(** X5. Whatever the rotation, flip and anchor, the cells placed for a shape
    with distinct cells are distinct and as many as the shape has. *)
Theorem X5_placed_cells_distinct (shape : list (Z * Z)) (r dx dy : Z) (flipped : bool) :
  NoDup shape →
  NoDup (translate (transformShape shape r flipped) dx dy)
  ∧ length (translate (transformShape shape r flipped) dx dy) = length shape.
Proof. intros H. split; [by apply placed_NoDup | apply placed_length]. Qed.

Lemma X5_placed_cells_distinct_witness :
  NoDup (translate (transformShape [(0,0);(0,1);(1,0)] (-3) true) 7 9).
Proof.
  apply (X5_placed_cells_distinct [(0,0);(0,1);(1,0)] (-3) 7 9 true).
  by apply (bool_decide_unpack _); vm_compute.
Defined.

(** X6. [keyOfCell] gives two integer cells the same key only when they are
    the same cell. *)
Theorem X6_keyOfCell_injective (x y x' y' : Z) :
  keyOfCell x y = keyOfCell x' y' ↔ x = x' ∧ y = y'.
Proof.
  split; [apply keyOfCell_inj|]. by intros [-> ->].
Qed.

(** X7. The client's [transform] and the server's [transformShape] compute
    the same cells, in the same order, for every shape, integer rotation and
    flip. *)
Theorem X7_client_transform_is_transformShape (shape : list (Z * Z)) (r : Z)
    (flipped : bool) :
  Client.transform shape r flipped = transformShape shape r flipped.
Proof. apply client_transform. Qed.

End GeometryExtras.

(** ** Properties of the state projection and the handlers *)

Module StateExtras.
Import Geometry Catalog Client Server Props Examples KeyFacts BoardFacts
       ProjectFacts StateFacts ValidateFacts ReachFacts GeometryFacts TurnFacts
       StateMore.

(** X8. In every game, [occupiedCount] is the number of cells placed so far:
    the length of the list of all cells of all placement rows. *)
Theorem X8_occupiedCount_counts_cells db s :
  reachable db → getGameState db = Some s →
  occupiedCount s = length (log_cells (moves db)).
Proof.
  intros Hr Hs. pose proof (reachable_wf _ Hr) as Hwf.
  destruct (getGameState_inv _ _ Hs) as (b & Hb & _ & _ & _ & -> & _).
  destruct (project_board _ _ Hb) as [Hboard _].
  rewrite (occupied_size _ _ Hboard (wf_nodup _ Hwf)).
  unfold log_cells. by rewrite length_fmap.
Qed.

Lemma X8_occupiedCount_counts_cells_witness :
  ∃ s, getGameState one_blue = Some s ∧ occupiedCount s = 1%nat.
Proof.
  assert (Hr : reachable one_blue) by apply reachable_run, reach_create.
  assert (His : is_Some (getGameState one_blue))
    by (by apply (bool_decide_unpack _); vm_compute).
  destruct His as [s Hs]. exists s. split; [exact Hs|].
  rewrite (X8_occupiedCount_counts_cells one_blue s Hr Hs). by vm_compute.
Defined.

(** X9. Whenever the state can be read, [remaining] has exactly the players'
    colours as keys, and for each of them it lists, in catalog order, the
    catalog keys that no placement row of that colour carries. *)
Theorem X9_remaining_is_catalog_minus_used db s :
  getGameState db = Some s →
  (∀ p, p ∈ players db →
     remaining s !! color p
     = Some (filter (λ k, k ∉ placed_keys (color p) (moves db)) pieceKeys))
  ∧ (∀ c, c ∉ color <$> players db → remaining s !! c = None).
Proof.
  intros Hs. split.
  - intros p Hp.
    destruct (getGameState_inv _ _ Hs) as (b & Hb & _ & _ & _ & _ & Hpl & _).
    destruct (Hpl p Hp) as (u & Hu & -> & _). f_equal.
    unfold remPieces. apply list_filter_iff. intros k.
    by rewrite (uo_keys _ _ (project_used _ _ Hb) _ _ Hu k).
  - intros c Hc. unfold getGameState in Hs.
    destruct (foldM project_move empty_board (moves db)) as [b|];
      simpl in Hs; [|done].
    destruct (foldM (add_remaining (usedPieces b)) ∅ (players db)) as [rem|] eqn:Er;
      simpl in Hs; [|done].
    destruct (decide _).
    + destruct (foldM (add_score _) _ _); simpl in Hs; [|done].
      injection Hs as <-. simpl.
      by rewrite (insert_fold_other remPieces _ _ _ _ Er c Hc).
    + simpl in Hs. injection Hs as <-. simpl.
      by rewrite (insert_fold_other remPieces _ _ _ _ Er c Hc).
Qed.

Lemma X9_remaining_is_catalog_minus_used_witness :
  ∃ s, getGameState one_blue = Some s
       ∧ remaining s !! "blue" = Some (drop 1 pieceKeys).
Proof.
  assert (His : is_Some (getGameState one_blue))
    by (by apply (bool_decide_unpack _); vm_compute).
  destruct His as [s Hs]. exists s. split; [exact Hs|].
  destruct (X9_remaining_is_catalog_minus_used one_blue s Hs) as [H _].
  assert (Hin : {| color := "blue"; order_index := 0 |} ∈ players one_blue)
    by (apply list_elem_of_lookup; exists 0%nat; by vm_compute).
  pose proof (H _ Hin) as H'. cbn [color] in H'. rewrite H'. by vm_compute.
Defined.




(** X11. An accepted pass leaves the board as it was: the claimed cells, each
    colour's placed pieces and first-move status, and in the state returned
    [remaining] and [occupiedCount] are those of the state before. *)
Theorem X11_pass_leaves_board db c s s' :
  getGameState db = Some s →
  (skip db c).2 = Ok200 s' →
  log_cells (moves (skip db c).1) = log_cells (moves db)
  ∧ (∀ c', placed_keys c' (moves (skip db c).1) = placed_keys c' (moves db))
  ∧ (∀ c', first_move_for c' (moves (skip db c).1) ↔ first_move_for c' (moves db))
  ∧ remaining s' = remaining s
  ∧ occupiedCount s' = occupiedCount s.
Proof.
  intros Hs Hrep.
  assert (Hacc : accepted (skip db c).2 = true) by (by rewrite Hrep).
  apply accepted_skip in Hacc as (s0 & current & s1 & _ & _ & _ & Hs1 & Hsk).
  rewrite Hsk in Hrep |- *. cbv [fst snd] in *. injection Hrep as ->.
  set (t := Z.of_nat (length (moves db)) + 1) in *.
  split_and!.
  - unfold log_cells. simpl. by rewrite events_pass.
  - intros c'. simpl. rewrite placed_keys_snoc.
    destruct (decide _); simpl; apply app_nil_r.
  - intros c'. simpl. unfold first_move_for. split.
    + intros H m Hm. apply H. apply elem_of_app. by left.
    + intros H m [Hm|Hm%list_elem_of_singleton]%elem_of_app; [by apply H|].
      by subst m.
  - unfold getGameState in Hs, Hs1. simpl in Hs1. rewrite project_pass in Hs1.
    destruct (foldM project_move empty_board (moves db)) as [b|];
      simpl in Hs, Hs1; [|done].
    destruct (foldM (add_remaining (usedPieces b)) ∅ (players db));
      simpl in Hs, Hs1; [|done].
    destruct (decide (projected_status db = finished));
      destruct (decide (projected_status _ = finished));
      repeat (destruct (foldM (add_score _) _ _); simpl in Hs, Hs1; [|done]);
      simpl in Hs, Hs1; injection Hs as <-; injection Hs1 as <-; done.
  - unfold getGameState in Hs, Hs1. simpl in Hs1. rewrite project_pass in Hs1.
    destruct (foldM project_move empty_board (moves db)) as [b|];
      simpl in Hs, Hs1; [|done].
    destruct (foldM (add_remaining (usedPieces b)) ∅ (players db));
      simpl in Hs, Hs1; [|done].
    destruct (decide (projected_status db = finished));
      destruct (decide (projected_status _ = finished));
      repeat (destruct (foldM (add_score _) _ _); simpl in Hs, Hs1; [|done]);
      simpl in Hs, Hs1; injection Hs as <-; injection Hs1 as <-; done.
Qed.

Lemma X11_pass_leaves_board_witness :
  log_cells (moves (skip one_blue "blue").1) = log_cells (moves one_blue).
Proof.
  assert (His : is_Some (getGameState one_blue))
    by (by apply (bool_decide_unpack _); vm_compute).
  destruct His as [s Hs].
  assert (Hacc : accepted (skip one_blue "blue").2 = true) by (by vm_compute).
  destruct ((skip one_blue "blue").2) as [s'|] eqn:Hrep; [|done].
  apply (X11_pass_leaves_board one_blue "blue" s s' Hs Hrep).
Defined.

(** X12. A rejected request changes nothing; an accepted one appends exactly
    one row and leaves the players and earlier rows as they were. The row has
    the next turn number and the requester's colour; a placement row carries
    the request's piece key and is not a pass, a pass row carries no piece
    and no cells. *)
Theorem X12_reject_keeps_accept_appends db :
  (∀ rq code e, (place db rq).2 = Error code e → (place db rq).1 = db)
  ∧ (∀ c code e, (skip db c).2 = Error code e → (skip db c).1 = db)
  ∧ (∀ rq, accepted (place db rq).2 = true →
       ∃ row, moves (place db rq).1 = moves db ++ [row]
              ∧ players (place db rq).1 = players db
              ∧ turn_number row = Z.of_nat (length (moves db)) + 1
              ∧ player_color row = rq_player_color rq
              ∧ piece_key row = Some (rq_piece_key rq)
              ∧ passed row = false
              ∧ ∃ cs, cells row = Some cs ∧ cs ≠ [])
  ∧ (∀ c, accepted (skip db c).2 = true →
       moves (skip db c).1
       = moves db ++ [pass_row c (Z.of_nat (length (moves db)) + 1)]
       ∧ players (skip db c).1 = players db).
Proof.
  split_and!.
  - intros rq code e. apply place_rejected_unchanged.
  - intros c code e. apply skip_rejected_unchanged.
  - intros rq (shape & position & s' & Hon & _ & _ & _ & _ & Hpl)%accepted_place.
    rewrite Hpl. cbv [fst]. eexists. split; [reflexivity|].
    split_and!; try done.
    exists (placed_cells shape rq position). split; [done|].
    destruct (PIECES_shape _ _ (ot_piece _ _ _ _ Hon)) as (_ & Hne & _).
    intros E. apply Hne. apply (f_equal length) in E.
    unfold placed_cells in E. rewrite placed_length in E. by destruct shape.
  - intros c (s & current & s' & _ & _ & _ & _ & Hsk)%accepted_skip.
    by rewrite Hsk.
Qed.

(** X13. The place handler decides in this order: an unknown piece key (not
    in the catalog, not a name every object inherits) is [invalid_piece]; else
    a missing anchor is [invalid_position]; else an unreadable state is the
    500 [failed_to_place]; else a requester who is not the player on turn is
    [not_your_turn], whatever cells the request asks for. *)
Theorem X13_place_early_checks db rq :
  (js_get PIECES (rq_piece_key rq) = Undefined
   ↔ (rq_piece_key rq ∉ pieceKeys) ∧ (rq_piece_key rq ∉ Object_prototype_keys))
  ∧ (js_get PIECES (rq_piece_key rq) = Undefined →
     place db rq = (db, Error 400 invalid_piece))
  ∧ (js_get PIECES (rq_piece_key rq) ≠ Undefined →
     (rq_position rq = None → place db rq = (db, Error 400 invalid_position))
     ∧ (is_Some (rq_position rq) → getGameState db = None →
        place db rq = (db, Error 500 failed_to_place))
     ∧ (∀ current,
          is_Some (rq_position rq) → is_Some (getGameState db) →
          index (players db) (next_player_index (game db)) = Some current →
          color current ≠ rq_player_color rq →
          place db rq = (db, Error 400 not_your_turn))).
Proof.
  split_and!.
  - apply js_get_Undefined_iff.
  - intros E. unfold place. by rewrite E.
  - intros Hk. unfold place. split_and!.
    + intros ->. destruct (js_get PIECES (rq_piece_key rq)); first [done | by destruct Hk].
    + intros [pos ->] ->. destruct (js_get PIECES (rq_piece_key rq)); first [done | by destruct Hk].
    + intros current [pos ->] [s Hs] Hi Hc.
      destruct (getGameState_inv _ _ Hs) as (_ & _ & Hg & Hp & _).
      rewrite Hs, Hg, Hp. simpl. rewrite Hi.
      destruct (js_get PIECES (rq_piece_key rq)); [| |by destruct Hk];
        by rewrite decide_True by done.
Qed.

(** X14. A piece key that is a property name every object inherits
    ([constructor], [toString], [__proto__], ...) passes the [invalid_piece]
    test: the request is never answered [invalid_piece] and never accepted,
    and when it comes with an anchor from the player on turn of a readable
    game it is answered with the 500 [failed_to_place], the rows unchanged. *)
Theorem X14_inherited_piece_key db rq :
  rq_piece_key rq ∈ Object_prototype_keys →
  (place db rq).2 ≠ Error 400 invalid_piece
  ∧ accepted (place db rq).2 = false
  ∧ (place db rq).1 = db
  ∧ (∀ current,
       is_Some (rq_position rq) → is_Some (getGameState db) →
       index (players db) (next_player_index (game db)) = Some current →
       color current = rq_player_color rq →
       place db rq = (db, Error 500 failed_to_place)).
Proof.
  intros Hk. pose proof (inherited_not_piece _ Hk) as E.
  assert (Hform : (∃ e, place db rq = (db, Error 400 e) ∧ e ≠ invalid_piece)
                  ∨ place db rq = (db, Error 500 failed_to_place)).
  { unfold place. rewrite E.
    destruct (rq_position rq); [|left; by eexists].
    destruct (getGameState db) as [s|]; [|by right].
    destruct (index _ _); [|by right].
    case_decide; [left; by eexists|]. right. by destruct (foldM _ _ _). }
  split_and!.
  - destruct Hform as [(e & -> & He) | ->]; simpl; congruence.
  - by destruct Hform as [(e & -> & He) | ->].
  - by destruct Hform as [(e & -> & He) | ->].
  - intros current [pos Hpos] [s Hs] Hi Hc.
    destruct (getGameState_inv _ _ Hs) as (_ & _ & Hg & Hp & _).
    unfold place. rewrite E, Hpos, Hs, Hg, Hp. simpl.
    rewrite Hi, decide_False by (by intros []). by destruct (foldM _ _ _).
Qed.

Lemma X14_inherited_piece_key_witness :
  place new_game (request "blue" "constructor" 0 false 0 0)
  = (new_game, Error 500 failed_to_place).
Proof.
  apply (X14_inherited_piece_key new_game (request "blue" "constructor" 0 false 0 0))
    with (current := {| color := "blue"; order_index := 0 |}).
  - by apply (bool_decide_unpack _); vm_compute.
  - by eexists.
  - by apply (bool_decide_unpack _); vm_compute.
  - reflexivity.
  - reflexivity.
Defined.

(** X15. A game created with a colour outside blue, yellow, red, green cannot
    be played or read: [getGameState] throws on it, so every pass is answered
    with the 500 [failed_to_skip], no placement is ever accepted, and no
    sequence of requests changes its rows. A game created with colours among
    the four (or with none given) can be read. *)
Theorem X15_foreign_colour_game_is_dead (colors : list string) :
  ((∃ c, c ∈ colors ∧ ¬ is_color c) →
     getGameState (createGame colors) = None
     ∧ (∀ c, skip (createGame colors) c
             = (createGame colors, Error 500 failed_to_skip))
     ∧ (∀ rq, accepted (place (createGame colors) rq).2 = false)
     ∧ (∀ rs, run (createGame colors) rs = createGame colors))
  ∧ ((∀ c, c ∈ colors → is_color c) → is_Some (getGameState (createGame colors))).
Proof.
  split.
  - intros (c & Hc & Hn). set (db := createGame colors).
    assert (Hbad : ¬ colors_ok (players db)).
    { rewrite colors_ok_fmap. unfold db. rewrite createGame_colors.
      destruct colors as [|c0 colors']; [by apply elem_of_nil in Hc|].
      rewrite Forall_forall. intros H. by apply Hn, H. }
    pose proof (getGameState_None _ Hbad) as Hnone.
    assert (Hskip : ∀ c', skip db c' = (db, Error 500 failed_to_skip)).
    { intros c'. unfold skip. by rewrite Hnone. }
    assert (Hplace : ∀ rq, (place db rq).1 = db ∧ accepted (place db rq).2 = false).
    { intros rq. unfold place. rewrite Hnone.
      destruct (js_get PIECES (rq_piece_key rq)), (rq_position rq); done. }
    split_and!; [done|done|intros rq; apply Hplace|].
    intros rs. induction rs as [|r rs IH]; [done|]. simpl.
    assert ((handle db r).1 = db) as ->; [|exact IH].
    destruct r as [rq|c']; simpl; [apply Hplace|by rewrite Hskip].
  - intros Hall. apply getGameState_is_Some; [by intros m Hm%elem_of_nil|].
    rewrite colors_ok_fmap, createGame_colors.
    destruct colors as [|c0 colors'].
    + by apply (bool_decide_unpack _); vm_compute.
    + rewrite Forall_forall. exact Hall.
Qed.

Lemma X15_foreign_colour_game_is_dead_witness :
  skip (createGame ["blue"; "purple"]) "blue"
  = (createGame ["blue"; "purple"], Error 500 failed_to_skip).
Proof.
  apply (X15_foreign_colour_game_is_dead ["blue"; "purple"]).
  exists "purple". split; [set_solver|].
  unfold is_color. by apply (bool_decide_unpack _); vm_compute.
Defined.

(** X16. When the state can be read and a player is on turn, a pass request
    is accepted exactly when it names that player's colour; any other colour
    is answered [not_your_turn] and changes nothing. *)
Theorem X16_skip_decision db s current c :
  getGameState db = Some s →
  index (players db) (next_player_index (game db)) = Some current →
  (c = color current → accepted (skip db c).2 = true)
  ∧ (c ≠ color current → skip db c = (db, Error 400 not_your_turn)).
Proof.
  intros Hs Hi. split.
  - intros ->. destruct (skip_on_turn db s current Hs Hi) as (s' & _ & ->). done.
  - intros Hc. destruct (getGameState_inv _ _ Hs) as (_ & _ & Hg & Hp & _).
    unfold skip. rewrite Hs, Hg, Hp. simpl. rewrite Hi.
    by rewrite decide_True by congruence.
Qed.

Lemma X16_skip_decision_witness :
  skip new_game "red" = (new_game, Error 400 not_your_turn).
Proof.
  assert (His : is_Some (getGameState new_game))
    by (by apply (bool_decide_unpack _); vm_compute).
  destruct His as [s Hs].
  apply (X16_skip_decision new_game s {| color := "blue"; order_index := 0 |} "red" Hs).
  - reflexivity.
  - discriminate.
Defined.

End StateExtras.

(** ** Properties of every game *)

Module RuleExtras.
Import Geometry Catalog Client Server Props Examples KeyFacts BoardFacts
       ProjectFacts StateFacts ValidateFacts ReachFacts GeometryFacts TurnFacts
       MoreProps MoreExamples InvariantFacts.

(** X17. In every game the turn pointer is the number of moves made modulo
    the number of players, the row at position [i] of the log has turn number
    [i + 1], and it was made by the player at position [i mod playerCount]:
    the players move strictly in their order. *)
Theorem X17_turn_order db :
  reachable db →
  next_player_index (game db)
  = Z.of_nat (length (moves db)) `mod` Z.of_nat (length (players db))
  ∧ (∀ i m, moves db !! i = Some m →
       turn_number m = Z.of_nat i + 1
       ∧ ∃ p, players db !! (i `mod` length (players db))%nat = Some p
              ∧ color p = player_color m).
Proof. intros [H1 H2]%reachable_turn_inv. by split. Qed.

Lemma X17_turn_order_witness :
  reachable red_to_move ∧ next_player_index (game red_to_move) = 2.
Proof.
  assert (Hr : reachable red_to_move) by apply reachable_run, reach_create.
  split; [exact Hr|].
  destruct (X17_turn_order red_to_move Hr) as [-> _]. by vm_compute.
Defined.




(** X20. Every placement row of the log met the validator's rules against
    the rows before it: its cells are on the 20 x 20 board, none was claimed
    earlier, none is edge-adjacent to an earlier cell of its colour; the
    colour's first placement covers the colour's starting corner, and every
    later one touches an earlier cell of its colour at a corner. *)
Theorem X20_log_is_legal db :
  reachable db →
  ∀ i m cs, moves db !! i = Some m → placement_cells m = Some cs →
    let pre := take i (moves db) in
    let c := player_color m in
    in_bounds cs 20
    ∧ overlap_free cs pre
    ∧ ¬ touches_edge cs c pre
    ∧ (first_move_for c pre →
       ∃ corner, js_get START_CORNERS c = Own corner ∧ corner ∈ cs)
    ∧ (¬ first_move_for c pre → touches_corner cs c pre).
Proof. intros Hr i m cs Hi Hcs. by apply (reachable_legal db Hr i m Hi cs). Qed.

Lemma X20_log_is_legal_witness :
  reachable one_blue ∧ in_bounds [(0, 0)] 20.
Proof.
  assert (Hr : reachable one_blue) by apply reachable_run, reach_create.
  split; [exact Hr|].
  apply (X20_log_is_legal one_blue Hr 0%nat
           (placement_row (request "blue" "I1" 0 false 0 0) [(0,0)] 1) [(0,0)]).
  - by vm_compute.
  - reflexivity.
Defined.

(** X21. On the board of every game, cells of the same colour that belong to
    different moves never share an edge, and a colour that has placed
    anything holds its own starting corner. *)
Theorem X21_same_colour_never_shares_edge db :
  reachable db →
  (∀ i j mi mj ci cj p q,
     i ≠ j → moves db !! i = Some mi → moves db !! j = Some mj →
     player_color mi = player_color mj →
     placement_cells mi = Some ci → placement_cells mj = Some cj →
     p ∈ ci → q ∈ cj → ¬ edge_adjacent p q)
  ∧ (∀ c, ¬ first_move_for c (moves db) →
       ∃ corner, js_get START_CORNERS c = Own corner ∧ claims (moves db) corner c).
Proof.
  intros Hr. split; [|by apply reachable_holds_corner].
  assert (Hlt : ∀ i j mi mj ci cj p q,
    (i < j)%nat → moves db !! i = Some mi → moves db !! j = Some mj →
    player_color mi = player_color mj →
    placement_cells mi = Some ci → placement_cells mj = Some cj →
    p ∈ ci → q ∈ cj → ¬ edge_adjacent q p).
  { intros i j mi mj ci cj p q Hij Hi Hj Hc Hci Hcj Hp Hq Ha.
    destruct (reachable_legal db Hr j mj Hj cj Hcj) as (_ & _ & Hne & _).
    apply Hne. exists q, p. split_and!; [done| |done].
    exists mi, ci. split_and!; [|done|done|done].
    apply (list_elem_of_lookup_2 _ i). by rewrite lookup_take_lt. }
  intros i j mi mj ci cj p q Hij Hi Hj Hc Hci Hcj Hp Hq Ha.
  destruct (decide (i < j)%nat).
  - apply (Hlt i j mi mj ci cj p q); try done. by apply edge_adjacent_sym.
  - apply (Hlt j i mj mi cj ci q p); try done. lia.
Qed.

Lemma X21_same_colour_never_shares_edge_witness :
  reachable one_blue ∧ claims (moves one_blue) (0, 0) "blue".
Proof.
  assert (Hr : reachable one_blue) by apply reachable_run, reach_create.
  split; [exact Hr|].
  destruct (X21_same_colour_never_shares_edge one_blue Hr) as [_ H].
  destruct (H "blue") as (corner & Hc & Hcl).
  - rewrite <- isFirstMove_true. by vm_compute.
  - injection Hc as <-. exact Hcl.
Defined.

(** X22. The exact condition of acceptance. A place request is accepted if
    and only if its piece key is in the catalog, its anchor is given, the
    state can be read, the requester is the player on turn, all its cells are
    on the board and unclaimed, and either the colour has no placement yet
    and a cell is its starting corner, or it has one and the cells touch a
    cell of the colour at a corner and none along an edge. Nothing else is
    looked at; in particular not whether the piece was used before. *)
Theorem X22_acceptance_condition db rq :
  accepted (place db rq).2 = true
  ↔ ∃ shape position,
      let placed := placed_cells shape rq position in
      let c := rq_player_color rq in
      on_turn db rq shape position
      ∧ in_bounds placed (board_size (game db))
      ∧ overlap_free placed (moves db)
      ∧ ((first_move_for c (moves db)
          ∧ ∃ corner, js_get START_CORNERS c = Own corner ∧ corner ∈ placed)
         ∨ (¬ first_move_for c (moves db)
            ∧ touches_corner placed c (moves db)
            ∧ ¬ touches_edge placed c (moves db))).
Proof. apply accepted_iff. Qed.

(** X23. The place handler never consults the piece keys of earlier rows:
    replacing them all, in any way, leaves the decision on every request the
    same (accepted, or rejected with the same code). So a colour may place a
    piece it has already placed: after blue's monomino on (0,0), blue's
    second monomino on (1,1) is accepted. *)
Theorem X23_used_pieces_not_checked db rq (f : option string → option string) :
  outcome (place (rekey f db) rq).2 = outcome (place db rq).2
  ∧ "I1" ∈ placed_keys "blue" (moves one_blue)
  ∧ accepted (place one_blue (request "blue" "I1" 0 false 1 1)).2 = true.
Proof.
  split_and!.
  - apply same_but_key_outcome; [done|done|].
    unfold rekey. simpl. apply Forall2_fmap_l, Forall_Forall2_diag.
    apply Forall_forall. intros m _. by split_and!.
  - by apply (bool_decide_unpack _); vm_compute.
  - by vm_compute.
Qed.

(** X24. On the board the handlers build from a log, the string-keyed tests
    mean what they should for cells: a key is in [occupied] exactly when its
    cell is claimed in the log, [hasEdgeContact] holds exactly when a cell
    has a 4-neighbour claimed by the colour, [hasCornerContact] exactly when
    a cell has a diagonal neighbour claimed by the colour. *)
Theorem X24_contact_tests_mean_adjacency ms b c s (cs : list (Z * Z)) :
  foldM replay_move empty_board ms = Some b →
  playerSets b !! c = Some s →
  (∀ p, is_Some (occupied b !! keyOfCell p.1 p.2) ↔ p ∈ log_cells ms)
  ∧ (hasEdgeContact cs s = true ↔ touches_edge cs c ms)
  ∧ (hasCornerContact cs s = true ↔ touches_corner cs c ms).
Proof.
  intros Hb Hs. pose proof (replay_board _ _ Hb) as Hboard.
  split_and!.
  - intros p. apply (key_occupied (with_log ms) b Hboard).
  - apply (hasEdgeContact_true (with_log ms) b c s cs Hboard Hs).
  - apply (hasCornerContact_true (with_log ms) b c s cs Hboard Hs).
Qed.

Lemma X24_contact_tests_mean_adjacency_witness :
  ∃ b s, foldM replay_move empty_board (moves one_blue) = Some b
         ∧ playerSets b !! "blue" = Some s
         ∧ hasEdgeContact [(1, 0)] s = true.
Proof.
  assert (Hb : is_Some (foldM replay_move empty_board (moves one_blue)))
    by (by apply (bool_decide_unpack _); vm_compute).
  destruct Hb as [b Hb].
  assert (Hs : is_Some (playerSets b !! "blue")).
  { apply elem_of_dom. rewrite (bo_dom _ _ (replay_board _ _ Hb)).
    by apply (bool_decide_unpack _); vm_compute. }
  destruct Hs as [s Hs]. exists b, s. split_and!; [exact Hb|exact Hs|].
  apply (X24_contact_tests_mean_adjacency (moves one_blue) b "blue" s [(1,0)] Hb Hs).
  apply touches_edge_Exists, (bool_decide_unpack _). by vm_compute.
Defined.

End RuleExtras.

(** ** Properties of the client preview *)

Module ClientExtras.
Import Geometry Catalog Client Server Props Examples KeyFacts BoardFacts
       ProjectFacts StateFacts ValidateFacts ReachFacts GeometryFacts TurnFacts
       MoreProps InvariantFacts ClientFacts.





End ClientExtras.
